(** * Channel stacks: layout, lifecycle and operation propagation

    A shallow embedding of [src/core/channel/channel_stack.c] and the
    properties of its layout arithmetic, its init/destroy protocols and
    its propagation primitives. *)

From Stdlib Require Import ZArith Lia.
From stdpp Require Import base list gmap.

Local Open Scope Z_scope.

(** ** The platform

    [channel_stack.c] is compiled against [channel_stack.h] and the
    support headers, which fix the width of [size_t], the alignment
    constant, the sizes of the four structures and the status
    enumerators.  None of them is part of the translated file, so the
    development takes them as parameters. *)

Class Platform := {
  (** width of [size_t], [gpr_uintptr] and of data pointers, in bits *)
  size_t_bits : nat;
  (** the (signed [int]) constant [GPR_MAX_ALIGNMENT] *)
  GPR_MAX_ALIGNMENT : Z;
  (** [sizeof(grpc_channel_stack)] *)
  sizeof_grpc_channel_stack : Z;
  (** [sizeof(grpc_channel_element)] *)
  sizeof_grpc_channel_element : Z;
  (** [sizeof(grpc_call_stack)] *)
  sizeof_grpc_call_stack : Z;
  (** [sizeof(grpc_call_element)] *)
  sizeof_grpc_call_element : Z;
  (** the enumerator [GRPC_STATUS_CANCELLED] *)
  GRPC_STATUS_CANCELLED : Z;
  (** number of words of a [grpc_transport_op] besides
      [cancel_with_status] *)
  transport_op_other_words : nat;
}.

Section Words.
Context `{P : Platform}.

(** [size_t] arithmetic is arithmetic modulo [2 ^ size_t_bits]; data
    pointers are flat addresses of the same width. *)
Definition modulus : Z := 2 ^ Z.of_nat size_t_bits.

Definition wrap (x : Z) : Z := x mod modulus.

Definition wadd (a b : Z) : Z := wrap (a + b).
Definition wsub (a b : Z) : Z := wrap (a - b).
Definition wmul (a b : Z) : Z := wrap (a * b).

(** [#define ROUND_UP_TO_ALIGNMENT_SIZE(x)
      (((x) + GPR_MAX_ALIGNMENT - 1) & ~(GPR_MAX_ALIGNMENT - 1))]
    at a [size_t] argument: the sum is taken in [size_t], the mask is
    computed in [int] and converted to [size_t] for the conjunction. *)
Definition ROUND_UP_TO_ALIGNMENT_SIZE (x : Z) : Z :=
  Z.land (wrap (x + GPR_MAX_ALIGNMENT - 1))
         (wrap (Z.lnot (GPR_MAX_ALIGNMENT - 1))).

(** The condition of the assertion in [grpc_channel_stack_size]:
    [(GPR_MAX_ALIGNMENT & (GPR_MAX_ALIGNMENT - 1)) == 0]. *)
Definition alignment_is_power_of_two : bool :=
  Z.land GPR_MAX_ALIGNMENT (GPR_MAX_ALIGNMENT - 1) =? 0.

End Words.

(** ** Operations and filters *)

(** Modelled from the spec: the declaration of [grpc_transport_op]
    (transport header) is missing.  A call-scoped operation is an
    object that can be zeroed and that carries a cancellation status
    field; [channel_stack.c] touches no other field, so the remaining
    words are an uninterpreted list. *)
Record grpc_transport_op := {
  cancel_with_status : Z;
  transport_op_rest : list Z;
}.

(** Modelled from the spec: the declaration of [grpc_channel_op]
    ([channel_stack.h]) is missing.  A channel-scoped operation carries
    a signed direction, [+1] or [-1]; the remaining words are an
    uninterpreted list. *)
Record grpc_channel_op := {
  dir : Z;
  channel_op_rest : list Z;
}.

(** What an operation handler does with the core: the propagation calls
    it makes, in order, each with the element it is made from and the
    operation it passes on. *)
Inductive forward :=
  | forward_call_op (elem : Z) (op : grpc_transport_op)
  | forward_channel_op (elem : Z) (op : grpc_channel_op).

(** Modelled from the spec: the declaration of [grpc_channel_filter]
    ([channel_stack.h]) is missing.  A filter descriptor, immutable and
    shared by all stacks that use it, declares the byte sizes of its
    call-scoped and channel-scoped data and exposes two operation
    handlers and four lifecycle hooks.  A handler is given by the
    propagation calls it makes back into the core, since each filter
    decides per invocation whether to forward.  The lifecycle hooks
    ([init_channel_elem], [destroy_channel_elem], [init_call_elem],
    [destroy_call_elem]) act on the filter's own data only and have no
    field: a call of one is a [hook_call] that names the filter. *)
Record grpc_channel_filter := {
  start_transport_op : Z -> grpc_transport_op -> list forward;
  channel_op : Z -> Z -> grpc_channel_op -> list forward;
  sizeof_call_data : Z;
  sizeof_channel_data : Z;
}.

(** One call through a function pointer of a filter, with its
    arguments.  Elements and opaque arguments are addresses. *)
Inductive hook_call :=
  | hook_init_channel_elem (f : grpc_channel_filter)
      (elem args metadata_context : Z) (is_first is_last : bool)
  | hook_destroy_channel_elem (f : grpc_channel_filter) (elem : Z)
  | hook_init_call_elem (f : grpc_channel_filter)
      (elem transport_server_data initial_op : Z)
  | hook_destroy_call_elem (f : grpc_channel_filter) (elem : Z)
  | hook_start_transport_op (f : grpc_channel_filter)
      (elem : Z) (op : grpc_transport_op)
  | hook_channel_op (f : grpc_channel_filter)
      (elem from_elem : Z) (op : grpc_channel_op).

(** ** Memory

    Memory is addressed field by field: a word-valued or filter-valued
    field of one of the four structures, at the address of the
    structure that holds it.  A field that was never written has no
    entry.  [hook_calls] is the sequence of calls made into filters so
    far, oldest first. *)
Inductive word_field :=
  | channel_stack_count          (* grpc_channel_stack.count *)
  | channel_stack_call_stack_size (* grpc_channel_stack.call_stack_size *)
  | channel_elem_channel_data    (* grpc_channel_element.channel_data *)
  | call_stack_count             (* grpc_call_stack.count *)
  | call_elem_channel_data       (* grpc_call_element.channel_data *)
  | call_elem_call_data.         (* grpc_call_element.call_data *)

Inductive filter_field :=
  | channel_elem_filter          (* grpc_channel_element.filter *)
  | call_elem_filter.            (* grpc_call_element.filter *)

#[global] Instance word_field_eq_dec : EqDecision word_field.
Proof. solve_decision. Defined.

#[global] Instance filter_field_eq_dec : EqDecision filter_field.
Proof. solve_decision. Defined.

Definition word_field_code (f : word_field) : nat :=
  match f with
  | channel_stack_count => 0
  | channel_stack_call_stack_size => 1
  | channel_elem_channel_data => 2
  | call_stack_count => 3
  | call_elem_channel_data => 4
  | call_elem_call_data => 5
  end%nat.

Definition word_field_of_code (n : nat) : word_field :=
  match n with
  | 0 => channel_stack_count
  | 1 => channel_stack_call_stack_size
  | 2 => channel_elem_channel_data
  | 3 => call_stack_count
  | 4 => call_elem_channel_data
  | _ => call_elem_call_data
  end%nat.

#[global] Instance word_field_countable : Countable word_field.
Proof.
  apply (inj_countable' word_field_code word_field_of_code).
  intros []; reflexivity.
Defined.

Definition filter_field_code (f : filter_field) : bool :=
  match f with channel_elem_filter => false | call_elem_filter => true end.

Definition filter_field_of_code (b : bool) : filter_field :=
  if b then call_elem_filter else channel_elem_filter.

#[global] Instance filter_field_countable : Countable filter_field.
Proof.
  apply (inj_countable' filter_field_code filter_field_of_code).
  intros []; reflexivity.
Defined.

Record machine := {
  words : gmap (word_field * Z) Z;
  filter_refs : gmap (filter_field * Z) grpc_channel_filter;
  hook_calls : list hook_call;
}.

Definition empty_machine : machine :=
  {| words := ∅; filter_refs := ∅; hook_calls := [] |}.

Definition set_word (fld : word_field) (p v : Z) (m : machine) : machine :=
  {| words := <[(fld, p) := v]> (words m);
     filter_refs := filter_refs m;
     hook_calls := hook_calls m |}.

Definition set_filter (fld : filter_field) (p : Z) (f : grpc_channel_filter)
    (m : machine) : machine :=
  {| words := words m;
     filter_refs := <[(fld, p) := f]> (filter_refs m);
     hook_calls := hook_calls m |}.

Definition record_call (c : hook_call) (m : machine) : machine :=
  {| words := words m;
     filter_refs := filter_refs m;
     hook_calls := hook_calls m ++ [c] |}.

(** ** Computations

    A C function is a function from the machine to an outcome and the
    machine it leaves.  [Abort] is a failed [GPR_ASSERT] or [abort()];
    [Undefined] is a read of a field or array slot that holds nothing;
    [OutOfFuel] bounds the nesting of handlers that call back into the
    core. *)
Inductive result (A : Type) :=
  | Ok (a : A)
  | Abort
  | Undefined
  | OutOfFuel.
Arguments Ok {A} a.
Arguments Abort {A}.
Arguments Undefined {A}.
Arguments OutOfFuel {A}.

Definition M (A : Type) : Type := machine -> result A * machine.

Definition ret {A} (a : A) : M A := fun m => (Ok a, m).

Definition bind {A B} (c : M A) (k : A -> M B) : M B :=
  fun m =>
    match c m with
    | (Ok a, m') => k a m'
    | (Abort, m') => (Abort, m')
    | (Undefined, m') => (Undefined, m')
    | (OutOfFuel, m') => (OutOfFuel, m')
    end.

Declare Scope comp_scope.
Delimit Scope comp_scope with comp.
Notation "x <- c ;; k" := (bind c (fun x => k))
  (at level 100, c at next level, k at level 200) : comp_scope.
Notation "c ;; k" := (bind c (fun _ => k))
  (at level 100, k at level 200) : comp_scope.
Local Open Scope comp_scope.

Definition fail_with {A} (r : result A) : M A := fun m => (r, m).

Definition abort {A} : M A := fail_with Abort.

Definition GPR_ASSERT (cond : bool) : M unit :=
  if cond then ret tt else abort.

Definition load_word (fld : word_field) (p : Z) : M Z :=
  fun m =>
    match words m !! (fld, p) with
    | Some v => (Ok v, m)
    | None => (Undefined, m)
    end.

Definition store_word (fld : word_field) (p v : Z) : M unit :=
  fun m => (Ok tt, set_word fld p v m).

Definition load_filter (fld : filter_field) (p : Z) : M grpc_channel_filter :=
  fun m =>
    match filter_refs m !! (fld, p) with
    | Some f => (Ok f, m)
    | None => (Undefined, m)
    end.

Definition store_filter (fld : filter_field) (p : Z)
    (f : grpc_channel_filter) : M unit :=
  fun m => (Ok tt, set_filter fld p f m).

Definition invoke (c : hook_call) : M unit :=
  fun m => (Ok tt, record_call c m).

(** [filters[i]] *)
Definition filter_at (filters : list grpc_channel_filter) (i : Z)
  : M grpc_channel_filter :=
  match filters !! Z.to_nat i with
  | Some f => ret f
  | None => fail_with Undefined
  end.

(** [for (i = i0; ...; i++) body], run for [n] iterations; [l] holds
    the local variables the body updates. *)
Fixpoint for_loop {L} (n : nat) (i : Z) (body : Z -> L -> M L) (l : L)
  : M L :=
  match n with
  | O => ret l
  | S n' => l' <- body i l ;; for_loop n' (i + 1) body l'
  end.

(** Run the propagation calls of a handler one after the other. *)
Fixpoint run_forwards (step : forward -> M unit) (fs : list forward)
  : M unit :=
  match fs with
  | [] => ret tt
  | f :: fs' => step f ;; run_forwards step fs'
  end.

(** ** The functions of [channel_stack.c] *)

Section ChannelStack.
Context `{P : Platform}.

(** [base + index] on a pointer to elements of [size] bytes. *)
Definition elem_ptr (base size index : Z) : Z := wrap (base + index * size).

Definition grpc_channel_stack_size (filters : list grpc_channel_filter)
    (filter_count : Z) : M Z :=
  (* always need the header, and size for the channel elements *)
  let size :=
    wadd (ROUND_UP_TO_ALIGNMENT_SIZE sizeof_grpc_channel_stack)
         (ROUND_UP_TO_ALIGNMENT_SIZE
            (wmul filter_count sizeof_grpc_channel_element)) in
  GPR_ASSERT alignment_is_power_of_two ;;
  (* add the size for each filter *)
  for_loop (Z.to_nat filter_count) 0
    (fun i size =>
       f <- filter_at filters i ;;
       ret (wadd size (ROUND_UP_TO_ALIGNMENT_SIZE (sizeof_channel_data f))))
    size.

Definition CHANNEL_ELEMS_FROM_STACK (stk : Z) : Z :=
  wadd stk (ROUND_UP_TO_ALIGNMENT_SIZE sizeof_grpc_channel_stack).

Definition CALL_ELEMS_FROM_STACK (stk : Z) : Z :=
  wadd stk (ROUND_UP_TO_ALIGNMENT_SIZE sizeof_grpc_call_stack).

Definition grpc_channel_stack_element (channel_stack index : Z) : Z :=
  elem_ptr (CHANNEL_ELEMS_FROM_STACK channel_stack)
           sizeof_grpc_channel_element index.

Definition grpc_channel_stack_last_element (channel_stack : Z) : M Z :=
  count <- load_word channel_stack_count channel_stack ;;
  ret (grpc_channel_stack_element channel_stack (wsub count 1)).

Definition grpc_call_stack_element (call_stack index : Z) : Z :=
  elem_ptr (CALL_ELEMS_FROM_STACK call_stack) sizeof_grpc_call_element index.

(** [grpc_channel_stack_init] up to the end of its loop; the result is
    the pair of locals [(user_data, call_size)] the loop leaves. *)
Definition grpc_channel_stack_init_elems
    (filters : list grpc_channel_filter) (filter_count : Z)
    (args metadata_context stack : Z) : M (Z * Z) :=
  let call_size :=
    wadd (ROUND_UP_TO_ALIGNMENT_SIZE sizeof_grpc_call_stack)
         (ROUND_UP_TO_ALIGNMENT_SIZE
            (wmul filter_count sizeof_grpc_call_element)) in
  store_word channel_stack_count stack filter_count ;;
  let elems := CHANNEL_ELEMS_FROM_STACK stack in
  let user_data :=
    wadd elems
         (ROUND_UP_TO_ALIGNMENT_SIZE
            (wmul filter_count sizeof_grpc_channel_element)) in
  (* init per-filter data *)
  for_loop (Z.to_nat filter_count) 0
    (fun i '(user_data, call_size) =>
       let elem := elem_ptr elems sizeof_grpc_channel_element i in
       fi <- filter_at filters i ;;
       store_filter channel_elem_filter elem fi ;;
       store_word channel_elem_channel_data elem user_data ;;
       f <- load_filter channel_elem_filter elem ;;
       invoke (hook_init_channel_elem f elem args metadata_context
                 (i =? 0) (i =? wsub filter_count 1)) ;;
       ret (wadd user_data
                 (ROUND_UP_TO_ALIGNMENT_SIZE (sizeof_channel_data fi)),
            wadd call_size
                 (ROUND_UP_TO_ALIGNMENT_SIZE (sizeof_call_data fi))))
    (user_data, call_size).

Definition grpc_channel_stack_init
    (filters : list grpc_channel_filter) (filter_count : Z)
    (args metadata_context stack : Z) : M unit :=
  locals <- grpc_channel_stack_init_elems filters filter_count
              args metadata_context stack ;;
  let '(user_data, call_size) := locals in
  GPR_ASSERT (stack <? user_data) ;;
  size <- grpc_channel_stack_size filters filter_count ;;
  GPR_ASSERT (wsub user_data stack =? size) ;;
  store_word channel_stack_call_stack_size stack call_size.

Definition grpc_channel_stack_destroy (stack : Z) : M unit :=
  let channel_elems := CHANNEL_ELEMS_FROM_STACK stack in
  count <- load_word channel_stack_count stack ;;
  (* destroy per-filter data *)
  for_loop (Z.to_nat count) 0
    (fun i _ =>
       let elem := elem_ptr channel_elems sizeof_grpc_channel_element i in
       f <- load_filter channel_elem_filter elem ;;
       invoke (hook_destroy_channel_elem f elem))
    tt.

(** [grpc_call_stack_init], whose loop is its last statement, yielding
    the local [user_data] the loop leaves. *)
Definition grpc_call_stack_init_elems
    (channel_stack transport_server_data initial_op call_stack : Z) : M Z :=
  let channel_elems := CHANNEL_ELEMS_FROM_STACK channel_stack in
  count <- load_word channel_stack_count channel_stack ;;
  store_word call_stack_count call_stack count ;;
  let call_elems := CALL_ELEMS_FROM_STACK call_stack in
  let user_data :=
    wadd call_elems
         (ROUND_UP_TO_ALIGNMENT_SIZE (wmul count sizeof_grpc_call_element)) in
  (* init per-filter data *)
  for_loop (Z.to_nat count) 0
    (fun i user_data =>
       let channel_elem :=
         elem_ptr channel_elems sizeof_grpc_channel_element i in
       let call_elem := elem_ptr call_elems sizeof_grpc_call_element i in
       cf <- load_filter channel_elem_filter channel_elem ;;
       store_filter call_elem_filter call_elem cf ;;
       cd <- load_word channel_elem_channel_data channel_elem ;;
       store_word call_elem_channel_data call_elem cd ;;
       store_word call_elem_call_data call_elem user_data ;;
       f <- load_filter call_elem_filter call_elem ;;
       invoke (hook_init_call_elem f call_elem transport_server_data
                 initial_op) ;;
       f' <- load_filter call_elem_filter call_elem ;;
       ret (wadd user_data
                 (ROUND_UP_TO_ALIGNMENT_SIZE (sizeof_call_data f'))))
    user_data.

Definition grpc_call_stack_init
    (channel_stack transport_server_data initial_op call_stack : Z)
  : M unit :=
  grpc_call_stack_init_elems channel_stack transport_server_data
    initial_op call_stack ;;
  ret tt.

Definition grpc_call_stack_destroy (stack : Z) : M unit :=
  let elems := CALL_ELEMS_FROM_STACK stack in
  count <- load_word call_stack_count stack ;;
  (* destroy per-filter data *)
  for_loop (Z.to_nat count) 0
    (fun i _ =>
       let elem := elem_ptr elems sizeof_grpc_call_element i in
       f <- load_filter call_elem_filter elem ;;
       invoke (hook_destroy_call_elem f elem))
    tt.

(** The bodies of the two propagation primitives; [run] is what
    executes the handler that is called. *)
Definition call_next_op_body (run : list forward -> M unit)
    (elem : Z) (op : grpc_transport_op) : M unit :=
  let next_elem := elem_ptr elem sizeof_grpc_call_element 1 in
  f <- load_filter call_elem_filter next_elem ;;
  invoke (hook_start_transport_op f next_elem op) ;;
  run (start_transport_op f next_elem op).

Definition channel_next_op_body (run : list forward -> M unit)
    (elem : Z) (op : grpc_channel_op) : M unit :=
  let next_elem := elem_ptr elem sizeof_grpc_channel_element (dir op) in
  f <- load_filter channel_elem_filter next_elem ;;
  invoke (hook_channel_op f next_elem elem op) ;;
  run (channel_op f next_elem elem op).

(** One propagation call made by a handler; [fuel] bounds how deep
    handlers may nest such calls. *)
Fixpoint run_forward (fuel : nat) (fw : forward) : M unit :=
  match fuel with
  | O => fail_with OutOfFuel
  | S fuel' =>
      match fw with
      | forward_call_op elem op =>
          call_next_op_body (run_forwards (run_forward fuel')) elem op
      | forward_channel_op elem op =>
          channel_next_op_body (run_forwards (run_forward fuel')) elem op
      end
  end.

Definition run_handler (fuel : nat) : list forward -> M unit :=
  run_forwards (run_forward fuel).

Definition grpc_call_next_op (fuel : nat) (elem : Z)
    (op : grpc_transport_op) : M unit :=
  call_next_op_body (run_handler fuel) elem op.

Definition grpc_channel_next_op (fuel : nat) (elem : Z)
    (op : grpc_channel_op) : M unit :=
  channel_next_op_body (run_handler fuel) elem op.

Definition grpc_channel_stack_from_top_element (elem : Z) : Z :=
  wsub elem (ROUND_UP_TO_ALIGNMENT_SIZE sizeof_grpc_channel_stack).

Definition grpc_call_stack_from_top_element (elem : Z) : Z :=
  wsub elem (ROUND_UP_TO_ALIGNMENT_SIZE sizeof_grpc_call_stack).

Definition grpc_call_element_send_cancel (fuel : nat) (cur_elem : Z)
  : M unit :=
  (* memset(&op, 0, sizeof(op)) *)
  let op := {| cancel_with_status := 0;
               transport_op_rest := repeat 0 transport_op_other_words |} in
  let op := {| cancel_with_status := GRPC_STATUS_CANCELLED;
               transport_op_rest := transport_op_rest op |} in
  grpc_call_next_op fuel cur_elem op.

Definition grpc_call_element_recv_status (cur_elem status message : Z)
  : M unit :=
  abort.

End ChannelStack.

(** ** Vocabulary of the properties

    Closed forms of what the loops compute, the calls they make, and
    what it means for a stack to be in memory. *)

Section Vocabulary.
Context `{P : Platform}.

Definition power_of_two (a : Z) : Prop := exists k, 0 <= k /\ a = 2 ^ k.

(** [r] is the least multiple of [a] that is at least [x]. *)
Definition least_multiple_above (a x r : Z) : Prop :=
  (a | r) /\ x <= r /\ forall r', (a | r') -> x <= r' -> r <= r'.

(** Where the cursor stands after the channel data (call data) of the
    filters [fs] has been laid out from [start]. *)
Definition channel_data_end (fs : list grpc_channel_filter) (start : Z) : Z :=
  fold_left
    (fun c f => wadd c (ROUND_UP_TO_ALIGNMENT_SIZE (sizeof_channel_data f)))
    fs start.

Definition call_data_end (fs : list grpc_channel_filter) (start : Z) : Z :=
  fold_left
    (fun c f => wadd c (ROUND_UP_TO_ALIGNMENT_SIZE (sizeof_call_data f)))
    fs start.

(** The calls [grpc_channel_stack_init] makes for the filters [fs]. *)
Definition channel_init_calls (stack filter_count args metadata_context : Z)
    (fs : list grpc_channel_filter) : list hook_call :=
  imap (fun j f =>
          hook_init_channel_elem f
            (grpc_channel_stack_element stack (Z.of_nat j))
            args metadata_context
            (Z.of_nat j =? 0) (Z.of_nat j =? wsub filter_count 1))
       fs.

(** Where the data cursor of [grpc_channel_stack_init] starts. *)
Definition channel_data_start (stack filter_count : Z) : Z :=
  wadd (CHANNEL_ELEMS_FROM_STACK stack)
       (ROUND_UP_TO_ALIGNMENT_SIZE
          (wmul filter_count sizeof_grpc_channel_element)).

(** The initial value of [call_size] in [grpc_channel_stack_init]. *)
Definition call_size_start (filter_count : Z) : Z :=
  wadd (ROUND_UP_TO_ALIGNMENT_SIZE sizeof_grpc_call_stack)
       (ROUND_UP_TO_ALIGNMENT_SIZE
          (wmul filter_count sizeof_grpc_call_element)).

(** A channel stack (call stack) of the filters [fs] lives at [stack]:
    its header holds their number and the [j]-th element refers to the
    [j]-th filter. *)
Definition channel_stack_at (stack : Z) (fs : list grpc_channel_filter)
    (m : machine) : Prop :=
  words m !! (channel_stack_count, stack) = Some (Z.of_nat (length fs)) /\
  forall j f, fs !! j = Some f ->
    filter_refs m !! (channel_elem_filter,
                      grpc_channel_stack_element stack (Z.of_nat j)) = Some f.

Definition call_stack_at (stack : Z) (fs : list grpc_channel_filter)
    (m : machine) : Prop :=
  words m !! (call_stack_count, stack) = Some (Z.of_nat (length fs)) /\
  forall j f, fs !! j = Some f ->
    filter_refs m !! (call_elem_filter,
                      grpc_call_stack_element stack (Z.of_nat j)) = Some f.

(** The calls made by the other three lifecycle functions. *)
Definition channel_destroy_calls (stack : Z)
    (fs : list grpc_channel_filter) : list hook_call :=
  imap (fun j f =>
          hook_destroy_channel_elem f
            (grpc_channel_stack_element stack (Z.of_nat j)))
       fs.

Definition call_init_calls
    (call_stack transport_server_data initial_op : Z)
    (fs : list grpc_channel_filter) : list hook_call :=
  imap (fun j f =>
          hook_init_call_elem f
            (grpc_call_stack_element call_stack (Z.of_nat j))
            transport_server_data initial_op)
       fs.

Definition call_destroy_calls (stack : Z)
    (fs : list grpc_channel_filter) : list hook_call :=
  imap (fun j f =>
          hook_destroy_call_elem f
            (grpc_call_stack_element stack (Z.of_nat j)))
       fs.

(** Memory apart from the record of calls. *)
Definition same_memory (m m' : machine) : Prop :=
  words m' = words m /\ filter_refs m' = filter_refs m.

(** The channel-data pointers [data] are those of the elements of the
    channel stack at [stack]. *)
Definition channel_data_at (stack : Z) (data : list Z) (m : machine)
  : Prop :=
  forall j d, data !! j = Some d ->
    words m !! (channel_elem_channel_data,
                grpc_channel_stack_element stack (Z.of_nat j)) = Some d.

(** The fields of channel stacks are the same in [m'] as in [m]. *)
Definition channel_fields_kept (m m' : machine) : Prop :=
  (forall p, filter_refs m' !! (channel_elem_filter, p) =
             filter_refs m !! (channel_elem_filter, p)) /\
  (forall p, words m' !! (channel_stack_count, p) =
             words m !! (channel_stack_count, p)) /\
  (forall p, words m' !! (channel_stack_call_stack_size, p) =
             words m !! (channel_stack_call_stack_size, p)) /\
  (forall p, words m' !! (channel_elem_channel_data, p) =
             words m !! (channel_elem_channel_data, p)).

(** Where the data cursor of [grpc_call_stack_init] starts. *)
Definition call_data_start (call_stack count : Z) : Z :=
  wadd (CALL_ELEMS_FROM_STACK call_stack)
       (ROUND_UP_TO_ALIGNMENT_SIZE (wmul count sizeof_grpc_call_element)).

(** The channel-data pointers [grpc_channel_stack_init] assigns. *)
Definition channel_data_ptrs (stack : Z) (fs : list grpc_channel_filter)
  : list Z :=
  imap (fun j _ =>
          channel_data_end (take j fs)
            (channel_data_start stack (Z.of_nat (length fs))))
       fs.

Definition sum_Z (l : list Z) : Z := foldr Z.add 0 l.

(** The filter and the element a call is made on. *)
Definition hook_subject (c : hook_call) : grpc_channel_filter * Z :=
  match c with
  | hook_init_channel_elem f elem _ _ _ _ => (f, elem)
  | hook_destroy_channel_elem f elem => (f, elem)
  | hook_init_call_elem f elem _ _ => (f, elem)
  | hook_destroy_call_elem f elem => (f, elem)
  | hook_start_transport_op f elem _ => (f, elem)
  | hook_channel_op f elem _ _ => (f, elem)
  end.

(** The operation [grpc_call_element_send_cancel] builds. *)
Definition cancel_op : grpc_transport_op :=
  {| cancel_with_status := GRPC_STATUS_CANCELLED;
     transport_op_rest := repeat 0 transport_op_other_words |}.

(** The data regions of the declared [sizes], laid out from [cursor],
    stay inside the address space: every size rounds up without
    wrapping and the cursor never passes the top. *)
Fixpoint data_fits (sizes : list Z) (cursor : Z) : bool :=
  match sizes with
  | [] => cursor <? modulus
  | x :: rest =>
      (0 <=? x) && (x + GPR_MAX_ALIGNMENT - 1 <? modulus) &&
      data_fits rest (cursor + ROUND_UP_TO_ALIGNMENT_SIZE x)
  end.

(** A channel stack of the filters [fs] at [stack] lies inside the
    address space. *)
Definition channel_stack_fits (stack : Z) (fs : list grpc_channel_filter)
  : bool :=
  let n := Z.of_nat (length fs) in
  (0 <=? stack) && (0 <? sizeof_grpc_channel_element) &&
  (n * sizeof_grpc_channel_element + GPR_MAX_ALIGNMENT - 1 <? modulus) &&
  data_fits (map sizeof_channel_data fs)
    (stack + ROUND_UP_TO_ALIGNMENT_SIZE sizeof_grpc_channel_stack +
     ROUND_UP_TO_ALIGNMENT_SIZE (n * sizeof_grpc_channel_element)).

End Vocabulary.

(** ** A concrete platform and the three-filter scenario

    An LP64 platform: 64-bit [size_t], 16-byte maximum alignment, a
    channel-stack header of two words, channel elements of two
    pointers, a call-stack header of one word and call elements of
    three pointers. *)
Definition lp64 : Platform :=
  {| size_t_bits := 64;
     GPR_MAX_ALIGNMENT := 16;
     sizeof_grpc_channel_stack := 16;
     sizeof_grpc_channel_element := 16;
     sizeof_grpc_call_stack := 8;
     sizeof_grpc_call_element := 24;
     GRPC_STATUS_CANCELLED := 1;
     transport_op_other_words := 13 |}.

(** A filter whose handlers consume every operation. *)
Definition consuming_filter (channel_data call_data : Z)
  : grpc_channel_filter :=
  {| start_transport_op := fun _ _ => [];
     channel_op := fun _ _ _ => [];
     sizeof_call_data := call_data;
     sizeof_channel_data := channel_data |}.

(** A filter whose handlers pass every operation on unchanged. *)
Definition forwarding_filter (channel_data call_data : Z)
  : grpc_channel_filter :=
  {| start_transport_op := fun elem op => [forward_call_op elem op];
     channel_op := fun elem _ op => [forward_channel_op elem op];
     sizeof_call_data := call_data;
     sizeof_channel_data := channel_data |}.

(** Channel-data sizes 8, 0, 16 and call-data sizes 4, 4, 0. *)
Definition consuming_filters : list grpc_channel_filter :=
  [consuming_filter 8 4; consuming_filter 0 4; consuming_filter 16 0].

Definition forwarding_filters : list grpc_channel_filter :=
  [forwarding_filter 8 4; forwarding_filter 0 4; consuming_filter 16 0].

(** The same platform with another alignment constant. *)
Definition lp64_aligned (alignment : Z) : Platform :=
  {| size_t_bits := 64;
     GPR_MAX_ALIGNMENT := alignment;
     sizeof_grpc_channel_stack := 16;
     sizeof_grpc_channel_element := 16;
     sizeof_grpc_call_stack := 8;
     sizeof_grpc_call_element := 24;
     GRPC_STATUS_CANCELLED := 1;
     transport_op_other_words := 13 |}.

(** The scenario: a channel stack of three filters built at address
    4096, then a call stack built on it at address 8192. *)
Definition scenario_channel (fs : list grpc_channel_filter) : machine :=
  snd (@grpc_channel_stack_init lp64 fs 3 0 0 4096 empty_machine).

Definition scenario_call (fs : list grpc_channel_filter) : machine :=
  snd (@grpc_call_stack_init lp64 4096 0 0 8192 (scenario_channel fs)).

(** [c] is a call of some [start_transport_op] on the element [elem]. *)
Definition start_transport_op_at (elem : Z) (c : hook_call) : bool :=
  match c with
  | hook_start_transport_op _ e _ => e =? elem
  | _ => false
  end.

(** ** Vocabulary of the further properties *)

Section FurtherVocabulary.
Context `{P : Platform}.

(** The machine after the calls [cs] have been made, in order. *)
Definition record_calls (cs : list hook_call) (m : machine) : machine :=
  {| words := words m;
     filter_refs := filter_refs m;
     hook_calls := hook_calls m ++ cs |}.

(** A filter whose [start_transport_op] passes every operation on,
    unchanged, from its own element; and one that passes none on. *)
Definition forwards_call_ops (f : grpc_channel_filter) : Prop :=
  forall elem op, start_transport_op f elem op = [forward_call_op elem op].

Definition consumes_call_ops (f : grpc_channel_filter) : Prop :=
  forall elem op, start_transport_op f elem op = [].

(** Calls of [start_transport_op] with [op] on the filters [fs], which
    sit at the indices [first], [first + 1], ... of a call stack. *)
Definition transport_calls (call_stack : Z) (op : grpc_transport_op)
    (first : nat) (fs : list grpc_channel_filter) : list hook_call :=
  imap (fun j f =>
          hook_start_transport_op f
            (grpc_call_stack_element call_stack (Z.of_nat (first + j))) op)
       fs.

(** The same for [channel_op]. *)
Definition forwards_channel_ops (f : grpc_channel_filter) : Prop :=
  forall elem from_elem op,
    channel_op f elem from_elem op = [forward_channel_op elem op].

Definition consumes_channel_ops (f : grpc_channel_filter) : Prop :=
  forall elem from_elem op, channel_op f elem from_elem op = [].

(** Calls of [channel_op] with [op] on the filters [fs], reached one
    after the other from the element at index [i]: the [k]-th sits
    [k + 1] steps of [dir op] away and is called from the element one
    step before it. *)
Definition channel_op_calls (stack : Z) (op : grpc_channel_op)
    (i : Z) (fs : list grpc_channel_filter) : list hook_call :=
  imap (fun k f =>
          hook_channel_op f
            (grpc_channel_stack_element stack
               (i + (Z.of_nat k + 1) * dir op))
            (grpc_channel_stack_element stack (i + Z.of_nat k * dir op))
            op)
       fs.

(** The aligned channel-data and call-data sizes of filters. *)
Definition aligned_channel_sizes (fs : list grpc_channel_filter) : list Z :=
  map (fun f => ROUND_UP_TO_ALIGNMENT_SIZE (sizeof_channel_data f)) fs.

Definition aligned_call_sizes (fs : list grpc_channel_filter) : list Z :=
  map (fun f => ROUND_UP_TO_ALIGNMENT_SIZE (sizeof_call_data f)) fs.

End FurtherVocabulary.

(** * Properties *)

(** ** Word arithmetic *)

Section WordFacts.
Context `{P : Platform}.

Lemma modulus_pos : 0 < modulus.
Proof. unfold modulus. apply Z.pow_pos_nonneg; lia. Qed.

Lemma wrap_range x : 0 <= wrap x < modulus.
Proof. unfold wrap. apply Z.mod_pos_bound, modulus_pos. Qed.

Lemma wrap_small x : 0 <= x < modulus -> wrap x = x.
Proof. unfold wrap. apply Z.mod_small. Qed.

Lemma wrap_wrap x : wrap (wrap x) = wrap x.
Proof. unfold wrap. apply Z.mod_mod. pose proof modulus_pos. lia. Qed.

Lemma wrap_add_l a b : wrap (wrap a + b) = wrap (a + b).
Proof. unfold wrap. apply Zplus_mod_idemp_l. Qed.

Lemma wrap_add_r a b : wrap (a + wrap b) = wrap (a + b).
Proof. unfold wrap. apply Zplus_mod_idemp_r. Qed.

Lemma wrap_sub_l a b : wrap (wrap a - b) = wrap (a - b).
Proof. unfold wrap. apply Zminus_mod_idemp_l. Qed.

End WordFacts.

(** ** Alignment arithmetic *)

Section Alignment.
Context `{P : Platform}.

Lemma power_of_two_pos a : power_of_two a -> 0 < a.
Proof. intros (k & Hk & ->). apply Z.pow_pos_nonneg; lia. Qed.

Lemma land_pred_power_of_two k : 0 <= k -> Z.land (2 ^ k) (2 ^ k - 1) = 0.
Proof.
  intros Hk. replace (2 ^ k - 1) with (Z.ones k)
    by (rewrite Z.ones_equiv; lia).
  rewrite Z.land_ones by lia. apply Z.mod_same.
  pose proof (Z.pow_pos_nonneg 2 k). lia.
Qed.

Lemma land_pred_not_power_of_two a :
  0 < a -> ~ power_of_two a -> Z.land a (a - 1) <> 0.
Proof.
  intros Ha Hnp Hz.
  destruct (Z.log2_spec a Ha) as [Hlo Hhi].
  assert (Hk : 0 <= Z.log2 a) by apply Z.log2_nonneg.
  assert (Hne : a <> 2 ^ Z.log2 a) 
    by (intros E; apply Hnp; exists (Z.log2 a); split; [lia | exact E]).
  assert (Hlog : Z.log2 (a - 1) = Z.log2 a).
  { apply Z.log2_unique; lia. }
  assert (Hbit : Z.testbit (Z.land a (a - 1)) (Z.log2 a) = true).
  { rewrite Z.land_spec, Z.bit_log2 by lia.
    rewrite <- Hlog. rewrite Z.bit_log2; [reflexivity|].
    pose proof (Z.pow_pos_nonneg 2 (Z.log2 a)). lia. }
  rewrite Hz, Z.bits_0 in Hbit. discriminate.
Qed.

(** The assertion of [grpc_channel_stack_size] accepts exactly zero and
    the powers of two. *)
Lemma alignment_check_spec :
  alignment_is_power_of_two = true <->
  GPR_MAX_ALIGNMENT = 0 \/ power_of_two GPR_MAX_ALIGNMENT.
Proof.
  unfold alignment_is_power_of_two. rewrite Z.eqb_eq. split.
  - intros Hz.
    destruct (Z.lt_trichotomy GPR_MAX_ALIGNMENT 0) as [Hneg | [-> | Hpos]].
    + exfalso.
      assert (Z.land GPR_MAX_ALIGNMENT (GPR_MAX_ALIGNMENT - 1) < 0)
        by (apply Z.land_neg; lia).
      lia.
    + now left.
    + right.
      destruct (Z.eq_dec GPR_MAX_ALIGNMENT (2 ^ Z.log2 GPR_MAX_ALIGNMENT))
        as [E | Hn].
      * exists (Z.log2 GPR_MAX_ALIGNMENT). split; [apply Z.log2_nonneg | exact E].
      * exfalso. apply (land_pred_not_power_of_two _ Hpos); [|exact Hz].
        intros (k & Hk & E). apply Hn. rewrite E at 2.
        now rewrite Z.log2_pow2.
  - intros [-> | (k & Hk & ->)]; [reflexivity|].
    now apply land_pred_power_of_two.
Qed.

(** With a power-of-two alignment the macro clears the low bits of the
    wrapped sum. *)
Lemma round_up_shape k x :
  0 <= k -> GPR_MAX_ALIGNMENT = 2 ^ k ->
  ROUND_UP_TO_ALIGNMENT_SIZE x =
  2 ^ k * (wrap (x + 2 ^ k - 1) / 2 ^ k).
Proof.
  intros Hk HA. unfold ROUND_UP_TO_ALIGNMENT_SIZE. rewrite HA.
  set (y := wrap (x + 2 ^ k - 1)).
  replace (2 ^ k - 1) with (Z.ones k) by (rewrite Z.ones_equiv; lia).
  unfold wrap at 1, modulus.
  rewrite <- Z.land_ones by lia.
  rewrite (Z.land_comm (Z.lnot _)), Z.land_assoc.
  rewrite Z.land_ones by lia.
  fold modulus. fold (wrap y). unfold y at 1. rewrite wrap_wrap. fold y.
  rewrite <- Z.ldiff_land, Z.ldiff_ones_r by lia.
  rewrite Z.shiftl_mul_pow2, Z.shiftr_div_pow2 by lia. lia.
Qed.

Lemma round_up_divide k x :
  0 <= k -> GPR_MAX_ALIGNMENT = 2 ^ k ->
  (GPR_MAX_ALIGNMENT | ROUND_UP_TO_ALIGNMENT_SIZE x).
Proof.
  intros Hk HA. rewrite (round_up_shape k x Hk HA), HA.
  apply Z.divide_factor_l.
Qed.

Lemma round_up_range x : 0 <= ROUND_UP_TO_ALIGNMENT_SIZE x < modulus.
Proof.
  unfold ROUND_UP_TO_ALIGNMENT_SIZE.
  set (y := x + GPR_MAX_ALIGNMENT - 1).
  set (mask := wrap (Z.lnot (GPR_MAX_ALIGNMENT - 1))).
  assert (E : Z.land (wrap y) mask = wrap (Z.land (wrap y) mask)).
  { unfold wrap, modulus. rewrite <- !Z.land_ones by lia.
    apply Z.bits_inj'. intros n _. rewrite !Z.land_spec.
    destruct (Z.testbit y n), (Z.testbit (Z.ones _) n), (Z.testbit mask n);
      reflexivity. }
  rewrite E. apply wrap_range.
Qed.

(** Without wrap-around the macro rounds up: it yields the least
    multiple of the alignment that is not below its argument. *)
Lemma round_up_least k x :
  0 <= k -> GPR_MAX_ALIGNMENT = 2 ^ k ->
  0 <= x -> x + GPR_MAX_ALIGNMENT - 1 < modulus ->
  least_multiple_above GPR_MAX_ALIGNMENT x (ROUND_UP_TO_ALIGNMENT_SIZE x).
Proof.
  intros Hk HA Hx Hfit.
  assert (Hpos : 0 < 2 ^ k) by (apply Z.pow_pos_nonneg; lia).
  rewrite (round_up_shape k x Hk HA). rewrite HA in *.
  rewrite wrap_small by lia.
  set (a := 2 ^ k) in *.
  pose proof (Z.div_mod (x + a - 1) a ltac:(lia)) as Hdm.
  pose proof (Z.mod_pos_bound (x + a - 1) a Hpos) as Hmod.
  repeat split.
  - apply Z.divide_factor_l.
  - lia.
  - intros r' [q ->] Hr'.
    assert (Hq : (x + a - 1) / a < q + 1)
      by (apply Z.div_lt_upper_bound; lia).
    rewrite (Z.mul_comm q a). apply Z.mul_le_mono_nonneg_l; lia.
Qed.

(** The bounds that go with it. *)
Lemma round_up_bounds k x :
  0 <= k -> GPR_MAX_ALIGNMENT = 2 ^ k ->
  0 <= x -> x + GPR_MAX_ALIGNMENT - 1 < modulus ->
  x <= ROUND_UP_TO_ALIGNMENT_SIZE x < x + GPR_MAX_ALIGNMENT.
Proof.
  intros Hk HA Hx Hfit.
  assert (Hpos : 0 < 2 ^ k) by (apply Z.pow_pos_nonneg; lia).
  rewrite (round_up_shape k x Hk HA). rewrite HA in *.
  rewrite wrap_small by lia.
  set (a := 2 ^ k) in *.
  pose proof (Z.div_mod (x + a - 1) a ltac:(lia)) as Hdm.
  pose proof (Z.mod_pos_bound (x + a - 1) a Hpos) as Hmod.
  lia.
Qed.

Lemma round_up_zero k :
  0 <= k -> GPR_MAX_ALIGNMENT = 2 ^ k -> ROUND_UP_TO_ALIGNMENT_SIZE 0 = 0.
Proof.
  intros Hk HA.
  assert (Hpos : 0 < 2 ^ k) by (apply Z.pow_pos_nonneg; lia).
  rewrite (round_up_shape k 0 Hk HA).
  assert (Hsmall : wrap (0 + 2 ^ k - 1) / 2 ^ k = 0); [|rewrite Hsmall; lia].
  apply Z.div_small. unfold wrap.
  pose proof (Z.mod_pos_bound (0 + 2 ^ k - 1) modulus modulus_pos).
  split; [lia|].
  destruct (Z.lt_ge_cases (0 + 2 ^ k - 1) modulus).
  - rewrite Z.mod_small by lia. lia.
  - lia.
Qed.

(** An alignment that divides the modulus survives wrap-around. *)
Lemma alignment_divides_modulus k :
  0 <= k <= Z.of_nat size_t_bits -> (2 ^ k | modulus).
Proof.
  intros Hk. unfold modulus. exists (2 ^ (Z.of_nat size_t_bits - k)).
  rewrite <- Z.pow_add_r by lia. f_equal. lia.
Qed.

Lemma wrap_divide a x : (a | modulus) -> (a | x) -> (a | wrap x).
Proof.
  intros Hm Hx. unfold wrap.
  rewrite Z.mod_eq by (pose proof modulus_pos; lia).
  apply Z.divide_sub_r; [assumption|].
  now apply Z.divide_mul_l.
Qed.

Lemma wadd_divide a x y :
  (a | modulus) -> (a | x) -> (a | y) -> (a | wadd x y).
Proof. intros. apply wrap_divide; [|apply Z.divide_add_r]; assumption. Qed.

End Alignment.

(** ** Running computations *)

Lemma bind_ok {A B} (c : M A) (k : A -> M B) m a m' :
  c m = (Ok a, m') -> bind c k m = k a m'.
Proof. unfold bind. now intros ->. Qed.

Lemma filter_at_ok (filters : list grpc_channel_filter) i f m :
  filters !! Z.to_nat i = Some f -> filter_at filters i m = (Ok f, m).
Proof. unfold filter_at. now intros ->. Qed.

Lemma load_filter_ok fld p f m :
  filter_refs m !! (fld, p) = Some f -> load_filter fld p m = (Ok f, m).
Proof. unfold load_filter. now intros ->. Qed.

Lemma load_word_ok fld p v m :
  words m !! (fld, p) = Some v -> load_word fld p m = (Ok v, m).
Proof. unfold load_word. now intros ->. Qed.

(** The invariant rule for counted loops: an invariant that holds on
    entry and is carried by every iteration holds on exit, and the loop
    returns. *)
Lemma for_loop_invariant {L} (I : Z -> L -> machine -> Prop)
    (body : Z -> L -> M L) n i0 l m :
  I i0 l m ->
  (forall i l m, i0 <= i < i0 + Z.of_nat n -> I i l m ->
     exists l' m', body i l m = (Ok l', m') /\ I (i + 1) l' m') ->
  exists l' m',
    for_loop n i0 body l m = (Ok l', m') /\ I (i0 + Z.of_nat n) l' m'.
Proof.
  revert i0 l m. induction n as [|n IH]; intros i0 l m Hinit Hstep.
  - exists l, m. simpl. rewrite Z.add_0_r. now split.
  - destruct (Hstep i0 l m ltac:(lia) Hinit) as (l1 & m1 & Hbody & Hinv).
    destruct (IH (i0 + 1) l1 m1 Hinv) as (l' & m' & Hrun & Hfin).
    { intros i l2 m2 Hi. apply Hstep. lia. }
    exists l', m'. split.
    + simpl. now rewrite (bind_ok _ _ _ _ _ Hbody).
    + now replace (i0 + Z.of_nat (S n)) with (i0 + 1 + Z.of_nat n) by lia.
Qed.

(** ** Sizing *)

Section Sizing.
Context `{P : Platform}.

Lemma channel_data_end_snoc fs f start :
  channel_data_end (fs ++ [f]) start =
  wadd (channel_data_end fs start)
       (ROUND_UP_TO_ALIGNMENT_SIZE (sizeof_channel_data f)).
Proof. unfold channel_data_end. now rewrite fold_left_app. Qed.

Lemma call_data_end_snoc fs f start :
  call_data_end (fs ++ [f]) start =
  wadd (call_data_end fs start)
       (ROUND_UP_TO_ALIGNMENT_SIZE (sizeof_call_data f)).
Proof. unfold call_data_end. now rewrite fold_left_app. Qed.

Lemma filters_lookup (filters : list grpc_channel_filter) count i :
  (Z.to_nat count <= length filters)%nat -> 0 <= i < count ->
  exists f, filters !! Z.to_nat i = Some f.
Proof.
  intros Hlen Hi. apply lookup_lt_is_Some_2. lia.
Qed.

Lemma take_succ_Z (filters : list grpc_channel_filter) i f :
  0 <= i -> filters !! Z.to_nat i = Some f ->
  take (Z.to_nat (i + 1)) filters = take (Z.to_nat i) filters ++ [f].
Proof.
  intros Hi Hf. replace (Z.to_nat (i + 1)) with (S (Z.to_nat i)) by lia.
  now apply take_S_r.
Qed.

(** What [grpc_channel_stack_size] returns. *)
Lemma grpc_channel_stack_size_run filters filter_count m :
  0 <= filter_count -> (Z.to_nat filter_count <= length filters)%nat ->
  grpc_channel_stack_size filters filter_count m =
  (if alignment_is_power_of_two
   then Ok (channel_data_end (take (Z.to_nat filter_count) filters)
              (wadd (ROUND_UP_TO_ALIGNMENT_SIZE sizeof_grpc_channel_stack)
                    (ROUND_UP_TO_ALIGNMENT_SIZE
                       (wmul filter_count sizeof_grpc_channel_element))))
   else Abort, m).
Proof.
  intros Hc Hlen. unfold grpc_channel_stack_size.
  destruct alignment_is_power_of_two; [|reflexivity].
  unfold GPR_ASSERT. rewrite (bind_ok _ _ m tt m) by reflexivity.
  set (size0 := wadd _ _).
  destruct (for_loop_invariant
    (fun i size m' =>
       m' = m /\
       size = channel_data_end (take (Z.to_nat i) filters) size0)
    (fun i size =>
       f <- filter_at filters i ;;
       ret (wadd size (ROUND_UP_TO_ALIGNMENT_SIZE (sizeof_channel_data f))))%comp
    (Z.to_nat filter_count) 0 size0 m) as (l' & m' & Hrun & -> & ->).
  - now split.
  - intros i size m1 Hi [-> ->].
    destruct (filters_lookup filters filter_count i Hlen ltac:(lia))
      as [f Hf].
    eexists _, m. split.
    + rewrite (bind_ok _ _ _ _ _ (filter_at_ok _ _ _ _ Hf)). reflexivity.
    + split; [reflexivity|].
      rewrite (take_succ_Z filters i f) by (lia || assumption).
      now rewrite channel_data_end_snoc.
  - rewrite Hrun.
    now replace (Z.to_nat (0 + Z.of_nat (Z.to_nat filter_count)))
      with (Z.to_nat filter_count) by lia.
Qed.

End Sizing.

(** ** Element addresses *)

Section Elements.
Context `{P : Platform}.

Lemma elem_ptr_step base size i d :
  elem_ptr (elem_ptr base size i) size d = elem_ptr base size (i + d).
Proof.
  unfold elem_ptr. rewrite wrap_add_l. f_equal. lia.
Qed.

(** Element slots are pairwise distinct as long as the table does not
    wrap around the address space. *)
Lemma elem_ptr_inj base size n i j :
  0 < size -> n * size <= modulus ->
  0 <= i < n -> 0 <= j < n ->
  elem_ptr base size i = elem_ptr base size j -> i = j.
Proof.
  intros Hsz Hn Hi Hj Heq. unfold elem_ptr, wrap in Heq.
  pose proof modulus_pos as HM.
  assert (Hd : ((i - j) * size) mod modulus = 0).
  { replace ((i - j) * size)
      with ((base + i * size) - (base + j * size)) by lia.
    rewrite Zminus_mod, Heq, Z.sub_diag. apply Z.mod_0_l. lia. }
  apply Z.mod_divide in Hd; [|lia]. destruct Hd as [q Hq].
  assert (Hbound : - modulus < (i - j) * size < modulus) by nia.
  assert (q = 0) by nia. subst q. nia.
Qed.

End Elements.

(** ** Channel stack construction *)

Section ChannelInit.
Context `{P : Platform}.

Lemma grpc_channel_stack_init_elems_run
    filters filter_count args metadata_context stack m :
  0 <= filter_count -> (Z.to_nat filter_count <= length filters)%nat ->
  exists m',
    grpc_channel_stack_init_elems filters filter_count args
      metadata_context stack m =
    (Ok (channel_data_end (take (Z.to_nat filter_count) filters)
           (channel_data_start stack filter_count),
         call_data_end (take (Z.to_nat filter_count) filters)
           (call_size_start filter_count)), m') /\
    hook_calls m' =
      hook_calls m ++
      channel_init_calls stack filter_count args metadata_context
        (take (Z.to_nat filter_count) filters) /\
    words m' !! (channel_stack_count, stack) = Some filter_count /\
    (0 < sizeof_grpc_channel_element ->
     filter_count * sizeof_grpc_channel_element <= modulus ->
     forall j f, (j < Z.to_nat filter_count)%nat -> filters !! j = Some f ->
       filter_refs m' !! (channel_elem_filter,
                          grpc_channel_stack_element stack (Z.of_nat j))
         = Some f /\
       words m' !! (channel_elem_channel_data,
                    grpc_channel_stack_element stack (Z.of_nat j))
         = Some (channel_data_end (take j filters)
                   (channel_data_start stack filter_count))).
Proof.
  intros Hc Hlen. unfold grpc_channel_stack_init_elems.
  unfold store_word at 1.
  rewrite (bind_ok _ _ m tt (set_word channel_stack_count stack filter_count m))
    by reflexivity.
  fold (channel_data_start stack filter_count).
  fold (call_size_start filter_count).
  set (ud0 := channel_data_start stack filter_count).
  set (cs0 := call_size_start filter_count).
  set (ms := set_word channel_stack_count stack filter_count m).
  match goal with |- context [for_loop _ _ ?b _] => set (body := b) end.
  destruct (for_loop_invariant
    (fun i (l : Z * Z) m1 =>
       l = (channel_data_end (take (Z.to_nat i) filters) ud0,
            call_data_end (take (Z.to_nat i) filters) cs0) /\
       hook_calls m1 =
         hook_calls m ++
         channel_init_calls stack filter_count args metadata_context
           (take (Z.to_nat i) filters) /\
       words m1 !! (channel_stack_count, stack) = Some filter_count /\
       (0 < sizeof_grpc_channel_element ->
        filter_count * sizeof_grpc_channel_element <= modulus ->
        forall j f, (j < Z.to_nat i)%nat -> filters !! j = Some f ->
          filter_refs m1 !! (channel_elem_filter,
                             grpc_channel_stack_element stack (Z.of_nat j))
            = Some f /\
          words m1 !! (channel_elem_channel_data,
                       grpc_channel_stack_element stack (Z.of_nat j))
            = Some (channel_data_end (take j filters) ud0)))
    body (Z.to_nat filter_count) 0 (ud0, cs0) ms)
    as (l' & m' & Hrun & Hl & Hcalls & Hcount & Htable).
  - (* the invariant holds on entry *)
    repeat split.
    + simpl. now rewrite app_nil_r.
    + simpl. apply lookup_insert_eq.
    + lia.
    + lia.
  - (* every iteration carries it *)
    intros i [ud cs] m1 Hi (Hl & Hcalls & Hcount & Htable).
    injection Hl as -> ->.
    destruct (filters_lookup filters filter_count i Hlen ltac:(lia))
      as [f Hf].
    set (elem := elem_ptr (CHANNEL_ELEMS_FROM_STACK stack)
                   sizeof_grpc_channel_element i).
    eexists _, (record_call
                  (hook_init_channel_elem f elem args metadata_context
                     (i =? 0) (i =? wsub filter_count 1))
                  (set_word channel_elem_channel_data elem
                     (channel_data_end (take (Z.to_nat i) filters) ud0)
                     (set_filter channel_elem_filter elem f m1))).
    split.
    { unfold body. fold elem.
      rewrite (bind_ok _ _ _ _ _ (filter_at_ok _ _ _ _ Hf)).
      unfold bind, store_filter, store_word, load_filter, invoke, ret.
      simpl. rewrite lookup_insert_eq. reflexivity. }
    assert (Htake := take_succ_Z filters i f ltac:(lia) Hf).
    assert (Hlt : length (take (Z.to_nat i) filters) = Z.to_nat i)
      by (rewrite length_take; lia).
    split; [|split; [|split]].
    + now rewrite Htake, channel_data_end_snoc, call_data_end_snoc.
    + simpl. rewrite Hcalls, Htake. unfold channel_init_calls.
      rewrite imap_app, <- app_assoc. simpl. rewrite Hlt, Nat.add_0_r.
      rewrite Z2Nat.id by lia. reflexivity.
    + simpl. rewrite lookup_insert_ne by congruence. exact Hcount.
    + intros Hsz Hfit j f' Hj Hf'. simpl.
      destruct (decide (j = Z.to_nat i)) as [-> | Hne].
      * rewrite Z2Nat.id by lia. unfold grpc_channel_stack_element.
        fold elem. rewrite !lookup_insert_eq.
        rewrite Hf in Hf'. injection Hf' as <-. now split.
      * assert (Hj' : (j < Z.to_nat i)%nat) by lia.
        destruct (Htable Hsz Hfit j f' Hj' Hf') as [Hfr Hw].
        assert (Hdiff : elem <>
                        grpc_channel_stack_element stack (Z.of_nat j)).
        { unfold elem, grpc_channel_stack_element. intros E.
          apply (elem_ptr_inj _ _ filter_count) in E; lia. }
        rewrite !lookup_insert_ne by congruence. now split.
  - (* on exit *)
    exists m'. rewrite Z.add_0_l, Z2Nat.id in * by lia.
    split; [now rewrite Hrun, Hl|].
    split; [exact Hcalls|]. split; [exact Hcount | exact Htable].
Qed.

End ChannelInit.

(** ** The round-trip sizing law *)

Section RoundTrip.
Context `{P : Platform}.

Lemma channel_data_end_range fs c :
  0 <= c < modulus -> 0 <= channel_data_end fs c < modulus.
Proof.
  revert c. induction fs as [|f fs IH]; intros c Hc; [exact Hc|].
  simpl. apply IH, wrap_range.
Qed.

Lemma call_data_end_range fs c :
  0 <= c < modulus -> 0 <= call_data_end fs c < modulus.
Proof.
  revert c. induction fs as [|f fs IH]; intros c Hc; [exact Hc|].
  simpl. apply IH, wrap_range.
Qed.

(** Laying the data out from [s + c] ends [s] bytes after laying it
    out from [c], modulo the word size. *)
Lemma channel_data_end_shift fs s c :
  wrap (channel_data_end fs (wrap (s + c))) =
  wrap (s + channel_data_end fs c).
Proof.
  revert c. induction fs as [|f fs IH]; intros c.
  - apply wrap_wrap.
  - change (channel_data_end (f :: fs) ?x)
      with (channel_data_end fs
              (wadd x (ROUND_UP_TO_ALIGNMENT_SIZE (sizeof_channel_data f)))).
    replace (wadd (wrap (s + c))
               (ROUND_UP_TO_ALIGNMENT_SIZE (sizeof_channel_data f)))
      with (wrap (s + wadd c (ROUND_UP_TO_ALIGNMENT_SIZE (sizeof_channel_data f)))).
    + apply IH.
    + unfold wadd. rewrite wrap_add_l, wrap_add_r. f_equal. lia.
Qed.

Lemma call_data_end_shift fs s c :
  wrap (call_data_end fs (wrap (s + c))) = wrap (s + call_data_end fs c).
Proof.
  revert c. induction fs as [|f fs IH]; intros c.
  - apply wrap_wrap.
  - change (call_data_end (f :: fs) ?x)
      with (call_data_end fs
              (wadd x (ROUND_UP_TO_ALIGNMENT_SIZE (sizeof_call_data f)))).
    replace (wadd (wrap (s + c))
               (ROUND_UP_TO_ALIGNMENT_SIZE (sizeof_call_data f)))
      with (wrap (s + wadd c (ROUND_UP_TO_ALIGNMENT_SIZE (sizeof_call_data f)))).
    + apply IH.
    + unfold wadd. rewrite wrap_add_l, wrap_add_r. f_equal. lia.
Qed.

Lemma channel_data_start_eq stack n :
  channel_data_start stack n =
  wrap (stack +
        wadd (ROUND_UP_TO_ALIGNMENT_SIZE sizeof_grpc_channel_stack)
             (ROUND_UP_TO_ALIGNMENT_SIZE
                (wmul n sizeof_grpc_channel_element))).
Proof.
  unfold channel_data_start, CHANNEL_ELEMS_FROM_STACK, wadd.
  rewrite wrap_add_l, wrap_add_r. f_equal. lia.
Qed.

Lemma cursor_offset fs stack n :
  wsub (channel_data_end fs (channel_data_start stack n)) stack =
  channel_data_end fs
    (wadd (ROUND_UP_TO_ALIGNMENT_SIZE sizeof_grpc_channel_stack)
          (ROUND_UP_TO_ALIGNMENT_SIZE (wmul n sizeof_grpc_channel_element))).
Proof.
  rewrite channel_data_start_eq. set (c := wadd _ _).
  unfold wsub. rewrite <- wrap_sub_l, channel_data_end_shift, wrap_sub_l.
  replace (stack + channel_data_end fs c - stack)
    with (channel_data_end fs c) by lia.
  apply wrap_small, channel_data_end_range, wrap_range.
Qed.

(** C1.  Round-trip sizing law.  For every filter array holding at least
    [filter_count] filters, the loop of [grpc_channel_stack_init]
    returns, and the distance from the stack base to the [user_data]
    cursor it leaves is exactly what [grpc_channel_stack_size] returns
    for the same filters (when its own alignment assertion lets it
    return at all); so the condition of the final assertion of
    [grpc_channel_stack_init] evaluates to true. *)
Theorem sizing_round_trip
    filters filter_count args metadata_context stack m :
  0 <= filter_count -> (Z.to_nat filter_count <= length filters)%nat ->
  exists user_data call_size m',
    grpc_channel_stack_init_elems filters filter_count args
      metadata_context stack m = (Ok (user_data, call_size), m') /\
    grpc_channel_stack_size filters filter_count m' =
      (if alignment_is_power_of_two
       then Ok (wsub user_data stack) else Abort, m') /\
    forall size m'',
      grpc_channel_stack_size filters filter_count m' = (Ok size, m'') ->
      (wsub user_data stack =? size) = true.
Proof.
  intros Hc Hlen.
  destruct (grpc_channel_stack_init_elems_run filters filter_count args
              metadata_context stack m Hc Hlen) as (m' & Hrun & _).
  assert (Hsize := grpc_channel_stack_size_run filters filter_count m' Hc Hlen).
  rewrite <- cursor_offset with (stack := stack) in Hsize.
  fold (channel_data_start stack filter_count) in Hsize.
  eexists _, _, m'. split; [exact Hrun|]. split; [exact Hsize|].
  intros size m'' Hok. rewrite Hsize in Hok.
  destruct alignment_is_power_of_two; [|discriminate].
  injection Hok as <- _. apply Z.eqb_refl.
Qed.

End RoundTrip.

(** ** The alignment law *)

(** Partial correctness of counted loops: whatever a loop returns
    satisfies an invariant of its locals that every iteration keeps. *)
Lemma for_loop_returns {L} (I : L -> Prop) (body : Z -> L -> M L)
    n i l m l' m' :
  I l ->
  (forall i l m l' m', I l -> body i l m = (Ok l', m') -> I l') ->
  for_loop n i body l m = (Ok l', m') -> I l'.
Proof.
  intros Hinit Hstep. revert i l m Hinit.
  induction n as [|n IH]; intros i l m Hinit Hrun; simpl in Hrun.
  - injection Hrun as <- _. exact Hinit.
  - unfold bind in Hrun.
    destruct (body i l m) as [[l1| | |] m1] eqn:Hbody; try discriminate.
    eapply IH; [|exact Hrun]. eapply Hstep; eassumption.
Qed.

Section AlignmentLaw.
Context `{P : Platform}.

Lemma grpc_channel_stack_size_divide k filters n m size m' :
  0 <= k <= Z.of_nat size_t_bits -> GPR_MAX_ALIGNMENT = 2 ^ k ->
  grpc_channel_stack_size filters n m = (Ok size, m') ->
  (GPR_MAX_ALIGNMENT | size).
Proof.
  intros Hk HA. unfold grpc_channel_stack_size, bind.
  destruct (GPR_ASSERT alignment_is_power_of_two m) as [[[]| | |] m1];
    try discriminate.
  assert (HM : (GPR_MAX_ALIGNMENT | modulus))
    by (rewrite HA; now apply alignment_divides_modulus).
  apply for_loop_returns with (I := fun s => (GPR_MAX_ALIGNMENT | s)).
  - apply wadd_divide; [exact HM | |]; apply (round_up_divide k); lia.
  - intros i l0 m0 l1 m2 Hl Hbody. unfold bind, filter_at in Hbody.
    destruct (filters !! Z.to_nat i) as [f|]; [|discriminate].
    injection Hbody as <- _.
    apply wadd_divide; [exact HM | exact Hl |].
    apply (round_up_divide k); lia.
Qed.

(** C3 (amended).  Alignment law.  When [GPR_MAX_ALIGNMENT] is a power
    of two that fits a [size_t], [ROUND_UP_TO_ALIGNMENT_SIZE x] is the
    least multiple of the alignment that is not below [x] for every [x]
    whose sum with the alignment minus one does not wrap; the aligned
    header size, the aligned element-table size, every filter's aligned
    channel-data size and every value [grpc_channel_stack_size] returns
    are multiples of the alignment.  When [GPR_MAX_ALIGNMENT] is
    positive and not a power of two, [grpc_channel_stack_size] fails on
    its assertion, whatever its arguments. *)
Theorem alignment_law :
  (forall k,
     0 <= k <= Z.of_nat size_t_bits -> GPR_MAX_ALIGNMENT = 2 ^ k ->
     (forall x, 0 <= x -> x + GPR_MAX_ALIGNMENT - 1 < modulus ->
        least_multiple_above GPR_MAX_ALIGNMENT x
          (ROUND_UP_TO_ALIGNMENT_SIZE x)) /\
     (GPR_MAX_ALIGNMENT |
        ROUND_UP_TO_ALIGNMENT_SIZE sizeof_grpc_channel_stack) /\
     (forall n,
        (GPR_MAX_ALIGNMENT |
           ROUND_UP_TO_ALIGNMENT_SIZE
             (wmul n sizeof_grpc_channel_element))) /\
     (forall f : grpc_channel_filter,
        (GPR_MAX_ALIGNMENT |
           ROUND_UP_TO_ALIGNMENT_SIZE (sizeof_channel_data f))) /\
     (forall filters n m size m',
        grpc_channel_stack_size filters n m = (Ok size, m') ->
        (GPR_MAX_ALIGNMENT | size))) /\
  (0 < GPR_MAX_ALIGNMENT -> ~ power_of_two GPR_MAX_ALIGNMENT ->
   forall filters n m,
     grpc_channel_stack_size filters n m = (Abort, m)).
Proof.
  split.
  - intros k Hk HA. repeat split.
    + apply (round_up_least k x); lia || assumption.
    + apply (round_up_least k x); lia || assumption.
    + apply (round_up_least k x); lia || assumption.
    + apply (round_up_divide k); lia.
    + intros n. apply (round_up_divide k); lia.
    + intros f. apply (round_up_divide k); lia.
    + intros filters n m size m'.
      now apply (grpc_channel_stack_size_divide k).
  - intros Hpos Hnp filters n m. unfold grpc_channel_stack_size.
    assert (Hcheck : alignment_is_power_of_two = false).
    { destruct alignment_is_power_of_two eqn:E; [|reflexivity].
      apply alignment_check_spec in E. destruct E; [lia | contradiction]. }
    rewrite Hcheck. reflexivity.
Qed.

End AlignmentLaw.

(** ** Owner recovery *)

Section OwnerRecovery.
Context `{P : Platform}.

Lemma channel_owner_offset s i :
  grpc_channel_stack_from_top_element (grpc_channel_stack_element s i) =
  wrap (s + i * sizeof_grpc_channel_element).
Proof.
  unfold grpc_channel_stack_from_top_element, grpc_channel_stack_element,
    CHANNEL_ELEMS_FROM_STACK, elem_ptr, wsub, wadd.
  rewrite wrap_add_l, wrap_sub_l. f_equal. lia.
Qed.

Lemma call_owner_offset s i :
  grpc_call_stack_from_top_element (grpc_call_stack_element s i) =
  wrap (s + i * sizeof_grpc_call_element).
Proof.
  unfold grpc_call_stack_from_top_element, grpc_call_stack_element,
    CALL_ELEMS_FROM_STACK, elem_ptr, wsub, wadd.
  rewrite wrap_add_l, wrap_sub_l. f_equal. lia.
Qed.

Lemma wrap_offset_neq s d :
  0 <= s < modulus -> 0 < d < modulus -> wrap (s + d) <> s.
Proof.
  intros Hs Hd E. unfold wrap in E. pose proof modulus_pos.
  destruct (Z.lt_ge_cases (s + d) modulus).
  - rewrite Z.mod_small in E by lia. lia.
  - replace (s + d) with (s + d - modulus + 1 * modulus) in E by lia.
    rewrite Z.mod_add, Z.mod_small in E by lia. lia.
Qed.

(** C2 (amended).  Owner recovery inverts the accessor at the top
    element: for every stack header [s], recovery applied to the element
    at index 0 yields [s], for channel and for call stacks.  Applied to
    the element at index [i] it yields the address [i] element sizes
    past the header, which is not the header for any index
    [0 < i < n] of a table of [n] elements that does not wrap around
    the address space. *)
Theorem owner_recovery_top s :
  0 <= s < modulus ->
  grpc_channel_stack_from_top_element (grpc_channel_stack_element s 0) = s /\
  grpc_call_stack_from_top_element (grpc_call_stack_element s 0) = s /\
  (forall i,
     grpc_channel_stack_from_top_element (grpc_channel_stack_element s i) =
       wrap (s + i * sizeof_grpc_channel_element) /\
     grpc_call_stack_from_top_element (grpc_call_stack_element s i) =
       wrap (s + i * sizeof_grpc_call_element)) /\
  (forall n i,
     0 < i < n ->
     (0 < sizeof_grpc_channel_element ->
      n * sizeof_grpc_channel_element <= modulus ->
      grpc_channel_stack_from_top_element (grpc_channel_stack_element s i)
        <> s) /\
     (0 < sizeof_grpc_call_element ->
      n * sizeof_grpc_call_element <= modulus ->
      grpc_call_stack_from_top_element (grpc_call_stack_element s i)
        <> s)).
Proof.
  intros Hs. repeat split.
  - rewrite channel_owner_offset, Z.mul_0_l, Z.add_0_r.
    now apply wrap_small.
  - rewrite call_owner_offset, Z.mul_0_l, Z.add_0_r. now apply wrap_small.
  - apply channel_owner_offset.
  - apply call_owner_offset.
  - intros Hsz Hn. rewrite channel_owner_offset.
    apply wrap_offset_neq; [exact Hs | nia].
  - intros Hsz Hn. rewrite call_owner_offset.
    apply wrap_offset_neq; [exact Hs | nia].
Qed.

End OwnerRecovery.

(** ** Status delivery *)

(** C9.  [grpc_call_element_recv_status] aborts for every element,
    status and message: the outcome is [Abort], never a normal return,
    and the machine it leaves is the machine it was given, so no filter
    was called and no field of any stack was written. *)
Theorem recv_status_aborts `{P : Platform} cur_elem status message m :
  grpc_call_element_recv_status cur_elem status message m = (Abort, m) /\
  (forall r m',
     grpc_call_element_recv_status cur_elem status message m = (r, m') ->
     r = Abort /\ hook_calls m' = hook_calls m /\
     words m' = words m /\ filter_refs m' = filter_refs m).
Proof.
  split; [reflexivity|].
  intros r m' H. injection H as <- <-. now repeat split.
Qed.

(** ** Stacks in memory *)

Section Stacks.
Context `{P : Platform}.

Lemma channel_stack_at_same_memory stack fs m m' :
  same_memory m m' -> channel_stack_at stack fs m ->
  channel_stack_at stack fs m'.
Proof. intros [Hw Hf]. unfold channel_stack_at. now rewrite Hw, Hf. Qed.

Lemma take_lookup_Z (fs : list grpc_channel_filter) i f :
  0 <= i -> fs !! Z.to_nat i = Some f ->
  take (Z.to_nat (i + 1)) fs = take (Z.to_nat i) fs ++ [f] /\
  length (take (Z.to_nat i) fs) = Z.to_nat i.
Proof.
  intros Hi Hf. split; [now apply take_succ_Z|].
  apply lookup_lt_Some in Hf. rewrite length_take. lia.
Qed.

(** Destroying a channel stack calls [destroy_channel_elem] of each of
    its filters, in index order, and changes nothing else. *)
Lemma grpc_channel_stack_destroy_run stack fs m :
  channel_stack_at stack fs m ->
  exists m',
    grpc_channel_stack_destroy stack m = (Ok tt, m') /\
    hook_calls m' = hook_calls m ++ channel_destroy_calls stack fs /\
    same_memory m m'.
Proof.
  intros [Hcount Htable]. unfold grpc_channel_stack_destroy.
  rewrite (bind_ok _ _ _ _ _ (load_word_ok _ _ _ _ Hcount)).
  rewrite Nat2Z.id.
  match goal with |- context [for_loop _ _ ?b _] => set (body := b) end.
  destruct (for_loop_invariant
    (fun i (_ : unit) m1 =>
       hook_calls m1 =
         hook_calls m ++ channel_destroy_calls stack (take (Z.to_nat i) fs) /\
       same_memory m m1)
    body (length fs) 0 tt m) as ([] & m' & Hrun & Hcalls & Hmem).
  - split; [|now split]. simpl. now rewrite app_nil_r.
  - intros i [] m1 Hi [Hcalls Hmem].
    destruct (lookup_lt_is_Some_2 fs (Z.to_nat i) ltac:(lia)) as [f Hf].
    destruct (take_lookup_Z fs i f ltac:(lia) Hf) as [Htake Hlen].
    assert (Hf' := Htable _ _ Hf). rewrite Z2Nat.id in Hf' by lia.
    destruct Hmem as [Hw Hfr].
    exists tt, (record_call
                  (hook_destroy_channel_elem f
                     (grpc_channel_stack_element stack i)) m1).
    split; [|split; [|now split]].
    + unfold body. fold (grpc_channel_stack_element stack i).
      rewrite <- Hfr in Hf'.
      rewrite (bind_ok _ _ _ _ _ (load_filter_ok _ _ f m1 Hf')).
      reflexivity.
    + simpl. rewrite Hcalls, Htake. unfold channel_destroy_calls.
      rewrite imap_app, <- app_assoc. simpl.
      rewrite Hlen, Nat.add_0_r, Z2Nat.id by lia. reflexivity.
  - exists m'. rewrite Z.add_0_l, Nat2Z.id, firstn_all in Hcalls.
    auto.
Qed.

Lemma grpc_call_stack_destroy_run stack fs m :
  call_stack_at stack fs m ->
  exists m',
    grpc_call_stack_destroy stack m = (Ok tt, m') /\
    hook_calls m' = hook_calls m ++ call_destroy_calls stack fs /\
    same_memory m m'.
Proof.
  intros [Hcount Htable]. unfold grpc_call_stack_destroy.
  rewrite (bind_ok _ _ _ _ _ (load_word_ok _ _ _ _ Hcount)).
  rewrite Nat2Z.id.
  match goal with |- context [for_loop _ _ ?b _] => set (body := b) end.
  destruct (for_loop_invariant
    (fun i (_ : unit) m1 =>
       hook_calls m1 =
         hook_calls m ++ call_destroy_calls stack (take (Z.to_nat i) fs) /\
       same_memory m m1)
    body (length fs) 0 tt m) as ([] & m' & Hrun & Hcalls & Hmem).
  - split; [|now split]. simpl. now rewrite app_nil_r.
  - intros i [] m1 Hi [Hcalls Hmem].
    destruct (lookup_lt_is_Some_2 fs (Z.to_nat i) ltac:(lia)) as [f Hf].
    destruct (take_lookup_Z fs i f ltac:(lia) Hf) as [Htake Hlen].
    assert (Hf' := Htable _ _ Hf). rewrite Z2Nat.id in Hf' by lia.
    destruct Hmem as [Hw Hfr].
    exists tt, (record_call
                  (hook_destroy_call_elem f
                     (grpc_call_stack_element stack i)) m1).
    split; [|split; [|now split]].
    + unfold body. fold (grpc_call_stack_element stack i).
      rewrite <- Hfr in Hf'.
      rewrite (bind_ok _ _ _ _ _ (load_filter_ok _ _ f m1 Hf')).
      reflexivity.
    + simpl. rewrite Hcalls, Htake. unfold call_destroy_calls.
      rewrite imap_app, <- app_assoc. simpl.
      rewrite Hlen, Nat.add_0_r, Z2Nat.id by lia. reflexivity.
  - exists m'. rewrite Z.add_0_l, Nat2Z.id, firstn_all in Hcalls.
    auto.
Qed.

End Stacks.

(** ** Call stack construction *)

Section CallInit.
Context `{P : Platform}.

Lemma channel_stack_at_kept stack fs m m' :
  channel_fields_kept m m' -> channel_stack_at stack fs m ->
  channel_stack_at stack fs m'.
Proof.
  intros (Hf & Hc & _ & _) [Hcount Htable]. split.
  - now rewrite Hc.
  - intros j f Hj. rewrite Hf. now apply Htable.
Qed.

Lemma grpc_call_stack_init_elems_run
    stack fs data transport_server_data initial_op call_stack m :
  channel_stack_at stack fs m -> channel_data_at stack data m ->
  length data = length fs ->
  let n := Z.of_nat (length fs) in
  exists m',
    grpc_call_stack_init_elems stack transport_server_data initial_op
      call_stack m =
    (Ok (call_data_end fs (call_data_start call_stack n)), m') /\
    hook_calls m' =
      hook_calls m ++
      call_init_calls call_stack transport_server_data initial_op fs /\
    channel_fields_kept m m' /\
    words m' !! (call_stack_count, call_stack) = Some n /\
    (0 < sizeof_grpc_call_element ->
     n * sizeof_grpc_call_element <= modulus ->
     forall j f d, fs !! j = Some f -> data !! j = Some d ->
       filter_refs m' !! (call_elem_filter,
                          grpc_call_stack_element call_stack (Z.of_nat j))
         = Some f /\
       words m' !! (call_elem_channel_data,
                    grpc_call_stack_element call_stack (Z.of_nat j))
         = Some d /\
       words m' !! (call_elem_call_data,
                    grpc_call_stack_element call_stack (Z.of_nat j))
         = Some (call_data_end (take j fs) (call_data_start call_stack n))).
Proof.
  intros [Hcount Htable] Hdata Hlen n.
  unfold grpc_call_stack_init_elems.
  rewrite (bind_ok _ _ _ _ _ (load_word_ok _ _ _ _ Hcount)).
  fold n. unfold store_word at 1.
  rewrite (bind_ok _ _ m tt (set_word call_stack_count call_stack n m))
    by reflexivity.
  fold (call_data_start call_stack n).
  set (ud0 := call_data_start call_stack n).
  set (ms := set_word call_stack_count call_stack n m).
  match goal with |- context [for_loop _ _ ?b _] => set (body := b) end.
  destruct (for_loop_invariant
    (fun i (l : Z) m1 =>
       l = call_data_end (take (Z.to_nat i) fs) ud0 /\
       hook_calls m1 =
         hook_calls m ++
         call_init_calls call_stack transport_server_data initial_op
           (take (Z.to_nat i) fs) /\
       channel_fields_kept m m1 /\
       words m1 !! (call_stack_count, call_stack) = Some n /\
       (0 < sizeof_grpc_call_element ->
        n * sizeof_grpc_call_element <= modulus ->
        forall j f d, (j < Z.to_nat i)%nat ->
          fs !! j = Some f -> data !! j = Some d ->
          filter_refs m1 !! (call_elem_filter,
                             grpc_call_stack_element call_stack (Z.of_nat j))
            = Some f /\
          words m1 !! (call_elem_channel_data,
                       grpc_call_stack_element call_stack (Z.of_nat j))
            = Some d /\
          words m1 !! (call_elem_call_data,
                       grpc_call_stack_element call_stack (Z.of_nat j))
            = Some (call_data_end (take j fs) ud0)))
    body (Z.to_nat n) 0 ud0 ms)
    as (l' & m' & Hrun & Hl & Hcalls & Hkept & Hkcount & Hktable).
  - (* the invariant holds on entry *)
    split; [reflexivity|]. split; [simpl; now rewrite app_nil_r|].
    split; [|split].
    + unfold ms. repeat split; intros p; simpl;
        try reflexivity; now rewrite lookup_insert_ne by congruence.
    + simpl. apply lookup_insert_eq.
    + intros _ _ j f d Hj. simpl in Hj. lia.
  - (* every iteration carries it *)
    intros i ud m1 Hi (-> & Hcalls & Hkept & Hkcount & Hktable).
    unfold n in Hi.
    destruct (lookup_lt_is_Some_2 fs (Z.to_nat i) ltac:(lia)) as [f Hf].
    destruct (lookup_lt_is_Some_2 data (Z.to_nat i) ltac:(lia)) as [d Hd].
    destruct (take_lookup_Z fs i f ltac:(lia) Hf) as [Htake Hlt].
    set (celem := elem_ptr (CHANNEL_ELEMS_FROM_STACK stack)
                    sizeof_grpc_channel_element i).
    set (kelem := elem_ptr (CALL_ELEMS_FROM_STACK call_stack)
                    sizeof_grpc_call_element i).
    set (ud := call_data_end (take (Z.to_nat i) fs) ud0).
    destruct Hkept as (Hkf & Hkc & Hks & Hkd).
    assert (Hcf : filter_refs m1 !! (channel_elem_filter, celem) = Some f).
    { rewrite Hkf. specialize (Htable _ _ Hf).
      now rewrite Z2Nat.id in Htable by lia. }
    assert (Hcd : words m1 !! (channel_elem_channel_data, celem) = Some d).
    { rewrite Hkd. specialize (Hdata _ _ Hd).
      now rewrite Z2Nat.id in Hdata by lia. }
    eexists _, (record_call
                  (hook_init_call_elem f kelem transport_server_data
                     initial_op)
                  (set_word call_elem_call_data kelem ud
                     (set_word call_elem_channel_data kelem d
                        (set_filter call_elem_filter kelem f m1)))).
    split.
    { unfold body. fold celem. fold kelem.
      rewrite (bind_ok _ _ _ _ _ (load_filter_ok _ _ _ _ Hcf)).
      unfold bind at 1, store_filter at 1.
      rewrite (bind_ok _ _ _ d (set_filter call_elem_filter kelem f m1))
        by (apply load_word_ok; exact Hcd).
      unfold bind, store_word, load_filter, invoke, ret. simpl.
      rewrite lookup_insert_eq. simpl. rewrite lookup_insert_eq.
      reflexivity. }
    split; [|split; [|split; [|split]]].
    + unfold ud. now rewrite Htake, call_data_end_snoc.
    + simpl. rewrite Hcalls, Htake. unfold call_init_calls.
      rewrite imap_app, <- app_assoc. simpl.
      rewrite Hlt, Nat.add_0_r, Z2Nat.id by lia. reflexivity.
    + repeat split; intros p; simpl;
        rewrite ?lookup_insert_ne by congruence; auto.
    + simpl. now rewrite !lookup_insert_ne by congruence.
    + intros Hsz Hfit j f' d' Hj Hf' Hd'. simpl.
      destruct (decide (j = Z.to_nat i)) as [-> | Hne].
      * rewrite Z2Nat.id by lia. unfold grpc_call_stack_element.
        fold kelem. rewrite Hf in Hf'. rewrite Hd in Hd'.
        injection Hf' as <-. injection Hd' as <-.
        rewrite lookup_insert_eq.
        rewrite (lookup_insert_ne _ (call_elem_call_data, kelem))
          by congruence.
        rewrite !lookup_insert_eq. auto.
      * assert (Hj' : (j < Z.to_nat i)%nat) by lia.
        destruct (Hktable Hsz Hfit j f' d' Hj' Hf' Hd') as (H1 & H2 & H3).
        assert (Hdiff : kelem <>
                        grpc_call_stack_element call_stack (Z.of_nat j)).
        { unfold kelem, grpc_call_stack_element. intros E.
          apply (elem_ptr_inj _ _ n) in E; lia. }
        rewrite !lookup_insert_ne by congruence. auto.
  - (* on exit *)
    exists m'. rewrite Z.add_0_l, Z2Nat.id in * by lia.
    unfold n in *. rewrite Nat2Z.id, firstn_all in *.
    split; [now rewrite Hrun, Hl|].
    split; [exact Hcalls|]. split; [exact Hkept|]. split; [exact Hkcount|].
    intros Hsz Hfit j f d Hf Hd.
    apply Hktable; auto. now apply lookup_lt_Some in Hf.
Qed.

End CallInit.

(** ** What a successful [grpc_channel_stack_init] leaves *)

Section InitResult.
Context `{P : Platform}.

Lemma grpc_channel_stack_size_pure filters n m r m' :
  grpc_channel_stack_size filters n m = (r, m') -> m' = m.
Proof.
  unfold grpc_channel_stack_size, bind, GPR_ASSERT.
  destruct alignment_is_power_of_two; simpl; [|now intros [= _ <-]].
  generalize (wadd (ROUND_UP_TO_ALIGNMENT_SIZE sizeof_grpc_channel_stack)
                (ROUND_UP_TO_ALIGNMENT_SIZE
                   (wmul n sizeof_grpc_channel_element))).
  generalize 0 at 1.
  induction (Z.to_nat n) as [|k IH]; intros i size; simpl.
  - now intros [= _ <-].
  - unfold bind, filter_at.
    destruct (filters !! Z.to_nat i) as [f|]; simpl; [apply IH|].
    now intros [= _ <-].
Qed.

Lemma grpc_channel_stack_init_inv
    filters filter_count args metadata_context stack m m1 :
  0 <= filter_count -> (Z.to_nat filter_count <= length filters)%nat ->
  grpc_channel_stack_init filters filter_count args metadata_context
    stack m = (Ok tt, m1) ->
  let fs := take (Z.to_nat filter_count) filters in
  let user_data := channel_data_end fs (channel_data_start stack filter_count) in
  let call_size := call_data_end fs (call_size_start filter_count) in
  exists m',
    grpc_channel_stack_init_elems filters filter_count args
      metadata_context stack m = (Ok (user_data, call_size), m') /\
    m1 = set_word channel_stack_call_stack_size stack call_size m' /\
    (stack <? user_data) = true /\
    alignment_is_power_of_two = true.
Proof.
  intros Hc Hlen Hinit fs user_data call_size.
  destruct (grpc_channel_stack_init_elems_run filters filter_count args
              metadata_context stack m Hc Hlen) as (m' & Hrun & _).
  exists m'. split; [exact Hrun|].
  unfold grpc_channel_stack_init in Hinit.
  rewrite (bind_ok _ _ _ _ _ Hrun) in Hinit.
  fold fs in Hinit. fold user_data in Hinit. fold call_size in Hinit.
  unfold bind in Hinit.
  destruct (stack <? user_data); simpl in Hinit; [|discriminate].
  rewrite (grpc_channel_stack_size_run filters filter_count m' Hc Hlen)
    in Hinit.
  destruct alignment_is_power_of_two; [|discriminate].
  destruct (wsub user_data stack =? _); simpl in Hinit; [|discriminate].
  injection Hinit as <-. auto.
Qed.

Lemma grpc_channel_stack_init_establishes
    filters filter_count args metadata_context stack m m1 :
  0 <= filter_count -> (Z.to_nat filter_count <= length filters)%nat ->
  0 < sizeof_grpc_channel_element ->
  filter_count * sizeof_grpc_channel_element <= modulus ->
  grpc_channel_stack_init filters filter_count args metadata_context
    stack m = (Ok tt, m1) ->
  let fs := take (Z.to_nat filter_count) filters in
  hook_calls m1 =
    hook_calls m ++
    channel_init_calls stack filter_count args metadata_context fs /\
  words m1 !! (channel_stack_call_stack_size, stack) =
    Some (call_data_end fs (call_size_start filter_count)) /\
  channel_stack_at stack fs m1 /\
  channel_data_at stack (channel_data_ptrs stack fs) m1.
Proof.
  intros Hc Hlen Hsz Hfit Hinit fs.
  destruct (grpc_channel_stack_init_inv _ _ _ _ _ _ _ Hc Hlen Hinit)
    as (m' & Hrun & -> & _ & _).
  destruct (grpc_channel_stack_init_elems_run filters filter_count args
              metadata_context stack m Hc Hlen)
    as (m'' & Hrun' & Hcalls & Hcount & Htable).
  rewrite Hrun in Hrun'. injection Hrun' as <-.
  specialize (Htable Hsz Hfit).
  assert (Hfs : length fs = Z.to_nat filter_count)
    by (unfold fs; rewrite length_take; lia).
  split; [exact Hcalls|]. split; [simpl; apply lookup_insert_eq|].
  split; [split|].
  - simpl. rewrite lookup_insert_ne by congruence.
    rewrite Hcount, Hfs. f_equal. lia.
  - intros j f Hj. simpl. unfold fs in Hj.
    apply lookup_take_Some in Hj as [Hj Hlt]. now apply Htable.
  - intros j d Hj. unfold channel_data_ptrs in Hj.
    rewrite list_lookup_imap in Hj.
    destruct (fs !! j) as [f|] eqn:Hf; [|discriminate].
    simpl in Hj. injection Hj as <-. unfold fs in Hf.
    apply lookup_take_Some in Hf as [Hf Hlt].
    simpl. rewrite lookup_insert_ne by congruence.
    destruct (Htable j f Hlt Hf) as [_ Hw]. rewrite Hw.
    rewrite Hfs, Z2Nat.id by lia. unfold fs.
    rewrite take_take. do 3 f_equal. lia.
Qed.

End InitResult.

(** ** Call-stack sizing *)

Section CallSizing.
Context `{P : Platform}.

Lemma call_data_end_sum fs c :
  0 <= c < modulus ->
  call_data_end fs c =
  wrap (c + sum_Z (map (fun f =>
                          ROUND_UP_TO_ALIGNMENT_SIZE (sizeof_call_data f))
                       fs)).
Proof.
  revert c. induction fs as [|f fs IH]; intros c Hc.
  - simpl. rewrite Z.add_0_r. symmetry. now apply wrap_small.
  - change (call_data_end (f :: fs) c)
      with (call_data_end fs
              (wadd c (ROUND_UP_TO_ALIGNMENT_SIZE (sizeof_call_data f)))).
    rewrite IH by apply wrap_range. simpl. unfold wadd.
    rewrite wrap_add_l. f_equal. lia.
Qed.

Lemma call_data_start_eq call_stack n :
  call_data_start call_stack n = wrap (call_stack + call_size_start n).
Proof.
  unfold call_data_start, call_size_start, CALL_ELEMS_FROM_STACK, wadd.
  rewrite wrap_add_l, wrap_add_r. f_equal. lia.
Qed.

Lemma call_cursor_end fs call_stack n :
  call_data_end fs (call_data_start call_stack n) =
  wadd call_stack (call_data_end fs (call_size_start n)).
Proof.
  rewrite call_data_start_eq. unfold wadd.
  rewrite <- call_data_end_shift.
  symmetry. apply wrap_small, call_data_end_range, wrap_range.
Qed.

(** C4.  Call-stack sizing.  After a successful
    [grpc_channel_stack_init], the [call_stack_size] field of the
    header holds, in [size_t] arithmetic, the aligned call-stack header
    size plus the aligned size of the call-element table plus the sum
    of the aligned [sizeof_call_data] of the filters; and
    [grpc_call_stack_init] on that channel stack returns from its loop
    with the [user_data] cursor at the call-stack base address plus
    that [call_stack_size]. *)
Theorem call_stack_sizing
    filters filter_count args metadata_context stack m0 m1 :
  0 <= filter_count -> (Z.to_nat filter_count <= length filters)%nat ->
  0 < sizeof_grpc_channel_element ->
  filter_count * sizeof_grpc_channel_element <= modulus ->
  grpc_channel_stack_init filters filter_count args metadata_context
    stack m0 = (Ok tt, m1) ->
  let fs := take (Z.to_nat filter_count) filters in
  let call_stack_size :=
    wrap (ROUND_UP_TO_ALIGNMENT_SIZE sizeof_grpc_call_stack +
          ROUND_UP_TO_ALIGNMENT_SIZE
            (wmul filter_count sizeof_grpc_call_element) +
          sum_Z (map (fun f =>
                        ROUND_UP_TO_ALIGNMENT_SIZE (sizeof_call_data f))
                     fs)) in
  words m1 !! (channel_stack_call_stack_size, stack) = Some call_stack_size /\
  forall transport_server_data initial_op call_stack,
    exists m2,
      grpc_call_stack_init_elems stack transport_server_data initial_op
        call_stack m1 = (Ok (wadd call_stack call_stack_size), m2).
Proof.
  intros Hc Hlen Hsz Hfit Hinit fs call_stack_size.
  destruct (grpc_channel_stack_init_establishes _ _ _ _ _ _ _
              Hc Hlen Hsz Hfit Hinit) as (_ & Hcss & Hstack & Hdata).
  fold fs in Hcss, Hstack, Hdata.
  assert (Hfs : Z.of_nat (length fs) = filter_count)
    by (unfold fs; rewrite length_take; lia).
  assert (Heq : call_data_end fs (call_size_start filter_count) =
                call_stack_size).
  { rewrite call_data_end_sum by apply wrap_range.
    unfold call_stack_size, call_size_start, wadd.
    rewrite wrap_add_l. reflexivity. }
  split; [now rewrite Hcss, Heq|].
  intros transport_server_data initial_op call_stack.
  destruct (grpc_call_stack_init_elems_run stack fs
              (channel_data_ptrs stack fs) transport_server_data
              initial_op call_stack m1 Hstack Hdata)
    as (m2 & Hrun & _).
  { unfold channel_data_ptrs. apply length_imap. }
  exists m2. rewrite Hrun, Hfs, call_cursor_end, Heq. reflexivity.
Qed.

End CallSizing.

(** ** Hook order *)

Section HookOrder.
Context `{P : Platform}.

Lemma grpc_call_stack_init_run
    stack fs data transport_server_data initial_op call_stack m :
  channel_stack_at stack fs m -> channel_data_at stack data m ->
  length data = length fs ->
  0 < sizeof_grpc_call_element ->
  Z.of_nat (length fs) * sizeof_grpc_call_element <= modulus ->
  exists m',
    grpc_call_stack_init stack transport_server_data initial_op
      call_stack m = (Ok tt, m') /\
    hook_calls m' =
      hook_calls m ++
      call_init_calls call_stack transport_server_data initial_op fs /\
    channel_stack_at stack fs m' /\
    call_stack_at call_stack fs m'.
Proof.
  intros Hstack Hdata Hlen Hsz Hfit.
  destruct (grpc_call_stack_init_elems_run stack fs data
              transport_server_data initial_op call_stack m
              Hstack Hdata Hlen)
    as (m' & Hrun & Hcalls & Hkept & Hcount & Htable).
  exists m'. unfold grpc_call_stack_init.
  rewrite (bind_ok _ _ _ _ _ Hrun).
  split; [reflexivity|]. split; [exact Hcalls|].
  split; [now apply (channel_stack_at_kept stack fs m)|].
  split; [exact Hcount|].
  intros j f Hf.
  destruct (lookup_lt_is_Some_2 data j) as [d Hd].
  { rewrite Hlen. now apply lookup_lt_Some in Hf. }
  now destruct (Htable Hsz Hfit j f d Hf Hd).
Qed.

(** C7.  Hook order.  For a channel stack built by a successful
    [grpc_channel_stack_init] and a call stack built on it by
    [grpc_call_stack_init], [grpc_call_stack_destroy] calls
    [destroy_call_elem] and [grpc_channel_stack_destroy] calls
    [destroy_channel_elem] once for each index [0 .. n-1], in ascending
    order, on the filter and element of that index; these are the
    filters and elements, in the order, on which the two init functions
    called [init_channel_elem] and [init_call_elem]. *)
Theorem hook_order
    filters filter_count args metadata_context stack
    transport_server_data initial_op call_stack m0 m1 :
  0 <= filter_count -> (Z.to_nat filter_count <= length filters)%nat ->
  0 < sizeof_grpc_channel_element ->
  filter_count * sizeof_grpc_channel_element <= modulus ->
  0 < sizeof_grpc_call_element ->
  filter_count * sizeof_grpc_call_element <= modulus ->
  grpc_channel_stack_init filters filter_count args metadata_context
    stack m0 = (Ok tt, m1) ->
  let fs := take (Z.to_nat filter_count) filters in
  exists m2 m3 m4,
    hook_calls m1 =
      hook_calls m0 ++
      channel_init_calls stack filter_count args metadata_context fs /\
    grpc_call_stack_init stack transport_server_data initial_op
      call_stack m1 = (Ok tt, m2) /\
    hook_calls m2 =
      hook_calls m1 ++
      call_init_calls call_stack transport_server_data initial_op fs /\
    grpc_call_stack_destroy call_stack m2 = (Ok tt, m3) /\
    hook_calls m3 = hook_calls m2 ++ call_destroy_calls call_stack fs /\
    grpc_channel_stack_destroy stack m3 = (Ok tt, m4) /\
    hook_calls m4 = hook_calls m3 ++ channel_destroy_calls stack fs /\
    (forall j,
       channel_destroy_calls stack fs !! j =
         (fun f => hook_destroy_channel_elem f
                     (grpc_channel_stack_element stack (Z.of_nat j)))
         <$> fs !! j) /\
    (forall j,
       call_destroy_calls call_stack fs !! j =
         (fun f => hook_destroy_call_elem f
                     (grpc_call_stack_element call_stack (Z.of_nat j)))
         <$> fs !! j) /\
    hook_subject <$> channel_destroy_calls stack fs =
      hook_subject <$>
        channel_init_calls stack filter_count args metadata_context fs /\
    hook_subject <$> call_destroy_calls call_stack fs =
      hook_subject <$>
        call_init_calls call_stack transport_server_data initial_op fs.
Proof.
  intros Hc Hlen Hsz Hfit Hksz Hkfit Hinit fs.
  destruct (grpc_channel_stack_init_establishes _ _ _ _ _ _ _
              Hc Hlen Hsz Hfit Hinit) as (Hcalls1 & _ & Hstack & Hdata).
  fold fs in Hcalls1, Hstack, Hdata.
  assert (Hfs : Z.of_nat (length fs) = filter_count)
    by (unfold fs; rewrite length_take; lia).
  destruct (grpc_call_stack_init_run stack fs (channel_data_ptrs stack fs)
              transport_server_data initial_op call_stack m1 Hstack Hdata)
    as (m2 & Hrun2 & Hcalls2 & Hstack2 & Hkstack2).
  { unfold channel_data_ptrs. apply length_imap. }
  { exact Hksz. }
  { now rewrite Hfs. }
  destruct (grpc_call_stack_destroy_run call_stack fs m2 Hkstack2)
    as (m3 & Hrun3 & Hcalls3 & Hmem3).
  destruct (grpc_channel_stack_destroy_run stack fs m3
              (channel_stack_at_same_memory _ _ _ _ Hmem3 Hstack2))
    as (m4 & Hrun4 & Hcalls4 & _).
  exists m2, m3, m4.
  repeat (split; [assumption|]).
  split; [|split; [|split]].
  - intros j. unfold channel_destroy_calls. apply list_lookup_imap.
  - intros j. unfold call_destroy_calls. apply list_lookup_imap.
  - unfold channel_destroy_calls, channel_init_calls.
    apply list_eq. intros j.
    rewrite !list_lookup_fmap, !list_lookup_imap.
    now destruct (fs !! j).
  - unfold call_destroy_calls, call_init_calls.
    apply list_eq. intros j.
    rewrite !list_lookup_fmap, !list_lookup_imap.
    now destruct (fs !! j).
Qed.

End HookOrder.

(** ** Propagation *)

Lemma bind_ret_tt (c : M unit) m : bind c (fun _ => ret tt) m = c m.
Proof. unfold bind, ret. now destruct (c m) as [[[]| | |] m']. Qed.

Lemma run_forwards_one step fw m : run_forwards step [fw] m = step fw m.
Proof. simpl. apply bind_ret_tt. Qed.

Section Propagation.
Context `{P : Platform}.

Lemma grpc_call_next_op_run fuel elem op f m :
  filter_refs m !! (call_elem_filter,
                    elem_ptr elem sizeof_grpc_call_element 1) = Some f ->
  let next_elem := elem_ptr elem sizeof_grpc_call_element 1 in
  grpc_call_next_op fuel elem op m =
  run_handler fuel (start_transport_op f next_elem op)
    (record_call (hook_start_transport_op f next_elem op) m).
Proof.
  intros Hf next_elem. unfold grpc_call_next_op, call_next_op_body.
  fold next_elem. now rewrite (bind_ok _ _ _ _ _ (load_filter_ok _ _ _ _ Hf)).
Qed.

Lemma grpc_channel_next_op_run fuel elem op f m :
  filter_refs m !! (channel_elem_filter,
                    elem_ptr elem sizeof_grpc_channel_element (dir op))
    = Some f ->
  let next_elem := elem_ptr elem sizeof_grpc_channel_element (dir op) in
  grpc_channel_next_op fuel elem op m =
  run_handler fuel (channel_op f next_elem elem op)
    (record_call (hook_channel_op f next_elem elem op) m).
Proof.
  intros Hf next_elem. unfold grpc_channel_next_op, channel_next_op_body.
  fold next_elem. now rewrite (bind_ok _ _ _ _ _ (load_filter_ok _ _ _ _ Hf)).
Qed.

(** C5.  Propagation direction.  In a channel stack and a call stack of
    the filters [fs]: [grpc_channel_next_op] from the element at index
    [i] with [dir = +1] records a call of [channel_op] of the filter at
    index [i + 1], on that element, and runs that handler; with
    [dir = -1] it does so for index [i - 1]; in both cases the element
    at index [i] is passed as [from_elem].  [grpc_call_next_op] from the
    element at index [i] records a call of [start_transport_op] of the
    filter at index [i + 1] and runs that handler; it takes no
    direction. *)
Theorem propagation_direction stack call_stack fs fuel m :
  channel_stack_at stack fs m -> call_stack_at call_stack fs m ->
  (forall i f op,
     0 <= i -> fs !! Z.to_nat (i + 1) = Some f -> dir op = 1 ->
     let cur := grpc_channel_stack_element stack i in
     let next := grpc_channel_stack_element stack (i + 1) in
     grpc_channel_next_op fuel cur op m =
     run_handler fuel (channel_op f next cur op)
       (record_call (hook_channel_op f next cur op) m)) /\
  (forall i f op,
     1 <= i -> fs !! Z.to_nat (i - 1) = Some f -> dir op = -1 ->
     let cur := grpc_channel_stack_element stack i in
     let next := grpc_channel_stack_element stack (i - 1) in
     grpc_channel_next_op fuel cur op m =
     run_handler fuel (channel_op f next cur op)
       (record_call (hook_channel_op f next cur op) m)) /\
  (forall i f op,
     0 <= i -> fs !! Z.to_nat (i + 1) = Some f ->
     let cur := grpc_call_stack_element call_stack i in
     let next := grpc_call_stack_element call_stack (i + 1) in
     grpc_call_next_op fuel cur op m =
     run_handler fuel (start_transport_op f next op)
       (record_call (hook_start_transport_op f next op) m)).
Proof.
  intros [_ Hchan] [_ Hcall]. repeat split.
  - intros i f op Hi Hf Hdir cur next.
    apply Hchan in Hf. rewrite Z2Nat.id in Hf by lia.
    assert (Hnext : elem_ptr cur sizeof_grpc_channel_element (dir op) = next).
    { rewrite Hdir. apply elem_ptr_step. }
    rewrite (grpc_channel_next_op_run fuel cur op f m); rewrite Hnext;
      [reflexivity | exact Hf].
  - intros i f op Hi Hf Hdir cur next.
    apply Hchan in Hf. rewrite Z2Nat.id in Hf by lia.
    assert (Hnext : elem_ptr cur sizeof_grpc_channel_element (dir op) = next).
    { rewrite Hdir. apply elem_ptr_step. }
    rewrite (grpc_channel_next_op_run fuel cur op f m); rewrite Hnext;
      [reflexivity | exact Hf].
  - intros i f op Hi Hf cur next.
    apply Hcall in Hf. rewrite Z2Nat.id in Hf by lia.
    assert (Hnext : elem_ptr cur sizeof_grpc_call_element 1 = next)
      by apply elem_ptr_step.
    rewrite (grpc_call_next_op_run fuel cur op f m); rewrite Hnext;
      [reflexivity | exact Hf].
Qed.

(** C6 (amended).  Cancellation helper.  From the call element at index
    [i], [grpc_call_element_send_cancel] builds an operation all of
    whose words are zero except [cancel_with_status], which is
    [GRPC_STATUS_CANCELLED], records a call of [start_transport_op] of
    the filter at index [i + 1] on that element with this operation,
    and runs that handler.  If that handler makes no propagation call,
    nothing else is called; the operation goes on to the handler at
    index [i + 2] when the handler at index [i + 1] forwards it with
    [grpc_call_next_op] from its own element. *)
Theorem send_cancel_propagates call_stack fs fuel i f m :
  call_stack_at call_stack fs m ->
  0 <= i -> fs !! Z.to_nat (i + 1) = Some f ->
  let cur := grpc_call_stack_element call_stack i in
  let next := grpc_call_stack_element call_stack (i + 1) in
  let m' := record_call (hook_start_transport_op f next cancel_op) m in
  Forall (fun w => w = 0) (transport_op_rest cancel_op) /\
  cancel_with_status cancel_op = GRPC_STATUS_CANCELLED /\
  grpc_call_element_send_cancel fuel cur m =
    run_handler fuel (start_transport_op f next cancel_op) m' /\
  (start_transport_op f next cancel_op = [] ->
   grpc_call_element_send_cancel fuel cur m = (Ok tt, m')) /\
  (forall g fuel',
     start_transport_op f next cancel_op = [forward_call_op next cancel_op] ->
     fs !! Z.to_nat (i + 2) = Some g -> fuel = S fuel' ->
     let after := grpc_call_stack_element call_stack (i + 2) in
     grpc_call_element_send_cancel fuel cur m =
     run_handler fuel' (start_transport_op g after cancel_op)
       (record_call (hook_start_transport_op g after cancel_op) m')).
Proof.
  intros Hstack Hi Hf cur next m'.
  assert (Hsend : grpc_call_element_send_cancel fuel cur m =
                  run_handler fuel (start_transport_op f next cancel_op) m').
  { unfold grpc_call_element_send_cancel. simpl. fold cancel_op.
    destruct Hstack as [_ Hcall]. apply Hcall in Hf.
    rewrite Z2Nat.id in Hf by lia.
    assert (Hnext : elem_ptr cur sizeof_grpc_call_element 1 = next)
      by apply elem_ptr_step.
    rewrite (grpc_call_next_op_run fuel cur cancel_op f m); rewrite Hnext;
      [reflexivity | exact Hf]. }
  split.
  { simpl. induction transport_op_other_words; simpl; constructor; auto. }
  split; [reflexivity|]. split; [exact Hsend|]. split.
  - intros Hnil. now rewrite Hsend, Hnil.
  - intros g fuel' Hfw Hg -> after.
    rewrite Hsend, Hfw. unfold run_handler at 1.
    rewrite run_forwards_one. simpl. fold (run_handler fuel').
    fold (grpc_call_next_op fuel' next cancel_op).
    destruct Hstack as [_ Hcall]. apply Hcall in Hg.
    rewrite Z2Nat.id in Hg by lia.
    assert (Hafter : elem_ptr next sizeof_grpc_call_element 1 = after).
    { unfold next, after, grpc_call_stack_element.
      rewrite elem_ptr_step. f_equal. lia. }
    rewrite (grpc_call_next_op_run fuel' next cancel_op g m');
      rewrite Hafter; [reflexivity | exact Hg].
Qed.

End Propagation.

(** ** The empty stack *)

Section EmptyStack.
Context `{P : Platform}.

Lemma wmul_0_l x : wmul 0 x = 0.
Proof. unfold wmul, wrap. rewrite Z.mul_0_l. apply Z.mod_0_l.
       pose proof modulus_pos. lia. Qed.

Lemma wadd_0_r x : 0 <= x < modulus -> wadd x 0 = x.
Proof. intros Hx. unfold wadd. rewrite Z.add_0_r. now apply wrap_small. Qed.

(** C10.  The empty filter list.  On a platform whose alignment is a
    power of two and whose channel-stack header has a positive size
    that rounds up without wrapping, and for a stack address whose
    aligned header lies inside the address space: with
    [filter_count = 0], [grpc_channel_stack_size] returns the aligned
    header size, which is positive; [grpc_channel_stack_init] calls no
    filter, stores [count = 0] and [call_stack_size] = aligned
    call-stack header size plus the aligned size of an empty element
    table, and returns, the conditions of both of its assertions being
    true. *)
Theorem empty_stack k filters args metadata_context stack m :
  0 <= k -> GPR_MAX_ALIGNMENT = 2 ^ k ->
  0 < sizeof_grpc_channel_stack ->
  sizeof_grpc_channel_stack + GPR_MAX_ALIGNMENT - 1 < modulus ->
  0 <= stack ->
  stack + ROUND_UP_TO_ALIGNMENT_SIZE sizeof_grpc_channel_stack < modulus ->
  let header := ROUND_UP_TO_ALIGNMENT_SIZE sizeof_grpc_channel_stack in
  let call_size :=
    wadd (ROUND_UP_TO_ALIGNMENT_SIZE sizeof_grpc_call_stack)
         (ROUND_UP_TO_ALIGNMENT_SIZE (wmul 0 sizeof_grpc_call_element)) in
  let user_data := stack + header in
  let m' := set_word channel_stack_call_stack_size stack call_size
              (set_word channel_stack_count stack 0 m) in
  grpc_channel_stack_size filters 0 m = (Ok header, m) /\
  0 < header /\
  grpc_channel_stack_init_elems filters 0 args metadata_context stack m =
    (Ok (user_data, call_size), set_word channel_stack_count stack 0 m) /\
  (stack <? user_data) = true /\
  (wsub user_data stack =? header) = true /\
  grpc_channel_stack_init filters 0 args metadata_context stack m =
    (Ok tt, m') /\
  hook_calls m' = hook_calls m /\
  words m' !! (channel_stack_count, stack) = Some 0 /\
  words m' !! (channel_stack_call_stack_size, stack) = Some call_size /\
  call_size = ROUND_UP_TO_ALIGNMENT_SIZE sizeof_grpc_call_stack.
Proof.
  intros Hk HA Hhdr Hfit Hstack Hend header call_size user_data m'.
  pose proof (round_up_range sizeof_grpc_channel_stack) as Hrange.
  assert (Hhdr0 : 0 <= sizeof_grpc_channel_stack) by lia.
  pose proof (round_up_bounds k sizeof_grpc_channel_stack Hk HA
                Hhdr0 Hfit) as Hbounds.
  fold header in Hrange, Hbounds, Hend.
  assert (Hcheck : alignment_is_power_of_two = true).
  { apply alignment_check_spec. right. now exists k. }
  assert (Hzero : ROUND_UP_TO_ALIGNMENT_SIZE 0 = 0)
    by now apply (round_up_zero k).
  assert (Hsize : grpc_channel_stack_size filters 0 m = (Ok header, m)).
  { unfold grpc_channel_stack_size. rewrite Hcheck. simpl.
    unfold bind, ret. simpl. rewrite wmul_0_l, Hzero.
    now rewrite wadd_0_r. }
  assert (Helems :
    grpc_channel_stack_init_elems filters 0 args metadata_context stack m =
    (Ok (user_data, call_size), set_word channel_stack_count stack 0 m)).
  { unfold grpc_channel_stack_init_elems, bind, store_word. simpl.
    unfold ret, CHANNEL_ELEMS_FROM_STACK.
    rewrite wmul_0_l, Hzero. fold header.
    rewrite wadd_0_r by apply wrap_range.
    unfold wadd. rewrite wrap_small by lia. reflexivity. }
  assert (Hgt : (stack <? user_data) = true)
    by (apply Z.ltb_lt; unfold user_data; lia).
  assert (Heq : (wsub user_data stack =? header) = true).
  { apply Z.eqb_eq. unfold wsub, user_data.
    replace (stack + header - stack) with header by lia.
    now apply wrap_small. }
  repeat split; try assumption.
  - lia.
  - unfold grpc_channel_stack_init.
    rewrite (bind_ok _ _ _ _ _ Helems). unfold bind. rewrite Hgt. simpl.
    assert (Hs : grpc_channel_stack_size filters 0
                   (set_word channel_stack_count stack 0 m) =
                 (Ok header, set_word channel_stack_count stack 0 m)).
    { unfold grpc_channel_stack_size. rewrite Hcheck. simpl.
      unfold bind, ret. simpl. rewrite wmul_0_l, Hzero.
      now rewrite wadd_0_r. }
    rewrite Hs, Heq. reflexivity.
  - simpl. rewrite lookup_insert_ne by congruence. apply lookup_insert_eq.
  - simpl. apply lookup_insert_eq.
  - unfold call_size. rewrite wmul_0_l, Hzero.
    apply wadd_0_r, round_up_range.
Qed.

End EmptyStack.

(** ** The element accessor and the data regions *)

Section Layout.
Context `{P : Platform}.

Lemma data_fits_bound sizes c : data_fits sizes c = true -> c < modulus.
Proof.
  revert c. induction sizes as [|x rest IH]; intros c H; simpl in H.
  - now apply Z.ltb_lt.
  - apply andb_prop in H as [_ H]. apply IH in H.
    pose proof (round_up_range x). lia.
Qed.

(** Inside the address space the cursor moves without wrapping, never
    backwards, and past the whole region of every filter it leaves
    behind. *)
Lemma data_regions_ordered k fs c :
  0 <= k -> GPR_MAX_ALIGNMENT = 2 ^ k -> 0 <= c ->
  data_fits (map sizeof_channel_data fs) c = true ->
  (forall j, c <= channel_data_end (take j fs) c) /\
  (forall i j fi, (i < j)%nat -> fs !! i = Some fi ->
     channel_data_end (take i fs) c + sizeof_channel_data fi <=
     channel_data_end (take j fs) c).
Proof.
  intros Hk HA. revert c.
  induction fs as [|f fs IH]; intros c Hc Hfit.
  - split; [intros j; rewrite take_nil; simpl; lia|].
    intros i j fi _ Hfi. discriminate.
  - simpl in Hfit.
    apply andb_prop in Hfit as [Hx Hrest].
    apply andb_prop in Hx as [Hx0 Hx1].
    apply Z.leb_le in Hx0. apply Z.ltb_lt in Hx1.
    pose proof (round_up_bounds k _ Hk HA Hx0 Hx1) as Hb.
    pose proof (data_fits_bound _ _ Hrest) as Hlt.
    set (c' := c + ROUND_UP_TO_ALIGNMENT_SIZE (sizeof_channel_data f)) in *.
    assert (Hstep : forall l,
              channel_data_end (f :: l) c = channel_data_end l c').
    { intros l. unfold channel_data_end. simpl. f_equal.
      unfold wadd. apply wrap_small. lia. }
    destruct (IH c' ltac:(lia) Hrest) as [Hmono Hord].
    split.
    + intros [|j]; [simpl; lia|].
      rewrite firstn_cons, Hstep. specialize (Hmono j). lia.
    + intros [|i] [|j] fi Hij Hfi; try lia.
      * simpl in Hfi. injection Hfi as <-.
        rewrite firstn_cons, Hstep. specialize (Hmono j).
        change (channel_data_end (take 0 (f :: fs)) c) with c. lia.
      * rewrite !firstn_cons, !Hstep. apply Hord; [lia | exact Hfi].
Qed.

End Layout.

Section AccessorLaw.
Context `{P : Platform}.

Lemma channel_data_ptrs_lookup stack (fs : list grpc_channel_filter) j f :
  fs !! j = Some f ->
  channel_data_ptrs stack fs !! j =
  Some (channel_data_end (take j fs)
          (channel_data_start stack (Z.of_nat (length fs)))).
Proof.
  intros Hf. unfold channel_data_ptrs. rewrite list_lookup_imap, Hf.
  reflexivity.
Qed.


(** X17.  When construction succeeds.  Inside the address space, on a
    platform with a power-of-two alignment and a header of positive
    size, [grpc_channel_stack_init] passes both of its assertions and
    returns, whatever the filters. *)
Lemma grpc_channel_stack_init_returns k fs args metadata_context stack m :
  0 <= k -> GPR_MAX_ALIGNMENT = 2 ^ k ->
  0 < sizeof_grpc_channel_stack ->
  sizeof_grpc_channel_stack + GPR_MAX_ALIGNMENT - 1 < modulus ->
  channel_stack_fits stack fs = true ->
  exists m1,
    grpc_channel_stack_init fs (Z.of_nat (length fs)) args metadata_context
      stack m = (Ok tt, m1).
Proof.
  intros Hk HA Hhdr0 Hhdr1 Hfits.
  set (n := Z.of_nat (length fs)).
  unfold channel_stack_fits in Hfits. fold n in Hfits.
  apply andb_prop in Hfits as [Hfits Hdata].
  apply andb_prop in Hfits as [Hfits Hn].
  apply andb_prop in Hfits as [Hs0 Hsz].
  apply Z.leb_le in Hs0. apply Z.ltb_lt in Hsz. apply Z.ltb_lt in Hn.
  assert (Hh0 : 0 <= sizeof_grpc_channel_stack) by lia.
  pose proof (round_up_bounds k _ Hk HA Hh0 Hhdr1) as Hhdr.
  assert (Hnn : 0 <= n) by (unfold n; lia).
  assert (Hn0 : 0 <= n * sizeof_grpc_channel_element)
    by (apply Z.mul_nonneg_nonneg; [exact Hnn | apply Z.lt_le_incl, Hsz]).
  pose proof (round_up_bounds k _ Hk HA Hn0 Hn) as Htab.
  pose proof (data_fits_bound _ _ Hdata) as Htop.
  set (c := stack + ROUND_UP_TO_ALIGNMENT_SIZE sizeof_grpc_channel_stack +
            ROUND_UP_TO_ALIGNMENT_SIZE (n * sizeof_grpc_channel_element))
    in *.
  assert (Hstart : channel_data_start stack n = c).
  { unfold channel_data_start, CHANNEL_ELEMS_FROM_STACK, wadd, wmul.
    rewrite (wrap_small (n * _)) by lia.
    rewrite (wrap_small (stack + _)) by lia.
    apply wrap_small. unfold c. lia. }
  destruct (data_regions_ordered k fs c Hk HA ltac:(unfold c; lia) Hdata)
    as [Hmono _].
  specialize (Hmono (length fs)). rewrite firstn_all in Hmono.
  assert (Hlen : (Z.to_nat n <= length fs)%nat) by (unfold n; lia).
  destruct (grpc_channel_stack_init_elems_run fs n args metadata_context
              stack m Hnn Hlen) as (m' & Hrun & _).
  replace (take (Z.to_nat n) fs) with fs in Hrun
    by (unfold n; now rewrite Nat2Z.id, firstn_all).
  rewrite Hstart in Hrun.
  eexists. unfold grpc_channel_stack_init.
  rewrite (bind_ok _ _ _ _ _ Hrun). unfold bind.
  assert (Hgt : (stack <? channel_data_end fs c) = true)
    by (apply Z.ltb_lt; unfold c in Hmono |- *; lia).
  rewrite Hgt. simpl.
  rewrite (grpc_channel_stack_size_run fs n m' Hnn Hlen).
  assert (Hcheck : alignment_is_power_of_two = true)
    by (apply alignment_check_spec; right; now exists k).
  rewrite Hcheck.
  replace (take (Z.to_nat n) fs) with fs
    by (unfold n; now rewrite Nat2Z.id, firstn_all).
  rewrite <- (cursor_offset fs stack n), Hstart, Z.eqb_refl. reflexivity.
Qed.

End AccessorLaw.

(** ** The three-filter scenario on LP64 *)

Section Scenario.
#[local] Existing Instance lp64.

(** The stacks of the scenario are built without failure. *)
Lemma scenario_channel_built :
  grpc_channel_stack_init consuming_filters 3 0 0 4096 empty_machine =
  (Ok tt, scenario_channel consuming_filters).
Proof. vm_compute. reflexivity. Qed.

Lemma scenario_call_built :
  grpc_call_stack_init 4096 0 0 8192 (scenario_channel consuming_filters) =
  (Ok tt, scenario_call consuming_filters).
Proof. vm_compute. reflexivity. Qed.

(** The scenario instance of [sizing_round_trip]. *)
Lemma sizing_round_trip_scenario :
  0 <= 3 /\ (Z.to_nat 3 <= length consuming_filters)%nat /\
  exists user_data call_size m',
    grpc_channel_stack_init_elems consuming_filters 3 0 0 4096
      empty_machine = (Ok (user_data, call_size), m') /\
    grpc_channel_stack_size consuming_filters 3 m' =
      (if alignment_is_power_of_two
       then Ok (wsub user_data 4096) else Abort, m') /\
    forall size m'',
      grpc_channel_stack_size consuming_filters 3 m' = (Ok size, m'') ->
      (wsub user_data 4096 =? size) = true.
Proof.
  assert (H1 : 0 <= 3) by lia.
  assert (H2 : (Z.to_nat 3 <= length consuming_filters)%nat)
    by (simpl; lia).
  exact (conj H1 (conj H2
           (sizing_round_trip consuming_filters 3 0 0 4096 empty_machine
              H1 H2))).
Defined.

(** The cursor of the scenario ends 96 bytes after the stack base, and
    96 is what the layout calculator returns. *)
Example scenario_size :
  grpc_channel_stack_init_elems consuming_filters 3 0 0 4096 empty_machine
    = (Ok (4096 + 96, 128),
       snd (grpc_channel_stack_init_elems consuming_filters 3 0 0 4096
              empty_machine)) /\
  grpc_channel_stack_size consuming_filters 3 empty_machine =
    (Ok 96, empty_machine).
Proof. split; vm_compute; reflexivity. Qed.

(** The scenario instance of [owner_recovery_top]. *)
Lemma owner_recovery_top_scenario :
  0 <= 4096 < modulus /\
  grpc_channel_stack_from_top_element (grpc_channel_stack_element 4096 0)
    = 4096 /\
  grpc_call_stack_from_top_element (grpc_call_stack_element 4096 0)
    = 4096 /\
  (forall i,
     grpc_channel_stack_from_top_element (grpc_channel_stack_element 4096 i)
       = wrap (4096 + i * sizeof_grpc_channel_element) /\
     grpc_call_stack_from_top_element (grpc_call_stack_element 4096 i)
       = wrap (4096 + i * sizeof_grpc_call_element)) /\
  (forall n i,
     0 < i < n ->
     (0 < sizeof_grpc_channel_element ->
      n * sizeof_grpc_channel_element <= modulus ->
      grpc_channel_stack_from_top_element
        (grpc_channel_stack_element 4096 i) <> 4096) /\
     (0 < sizeof_grpc_call_element ->
      n * sizeof_grpc_call_element <= modulus ->
      grpc_call_stack_from_top_element (grpc_call_stack_element 4096 i)
        <> 4096)).
Proof.
  assert (H : 0 <= 4096 < modulus) 
    by (vm_compute; split; [discriminate | reflexivity]).
  exact (conj H (owner_recovery_top 4096 H)).
Defined.

(** Owner recovery from the element at index 1 of the three-element
    channel stack at 4096 yields 4112, not the header. *)
Lemma owner_recovery_off_top :
  words (scenario_channel consuming_filters) !! (channel_stack_count, 4096)
    = Some 3 /\
  0 <= 1 < 3 /\
  grpc_channel_stack_from_top_element (grpc_channel_stack_element 4096 1)
    = 4112 /\
  grpc_channel_stack_from_top_element (grpc_channel_stack_element 4096 1)
    <> 4096.
Proof.
  split; [vm_compute; reflexivity|]. split; [lia|].
  split; [vm_compute; reflexivity|]. vm_compute. discriminate.
Qed.

(** At the largest [size_t] the sum inside the macro wraps: the result
    is 0, which is below the argument. *)
Lemma round_up_wraps :
  power_of_two GPR_MAX_ALIGNMENT /\
  0 <= 2 ^ 64 - 1 < modulus /\
  ROUND_UP_TO_ALIGNMENT_SIZE (2 ^ 64 - 1) = 0 /\
  ~ least_multiple_above GPR_MAX_ALIGNMENT (2 ^ 64 - 1)
      (ROUND_UP_TO_ALIGNMENT_SIZE (2 ^ 64 - 1)).
Proof.
  split; [exists 4; split; [lia | reflexivity]|].
  split; [vm_compute; split; [discriminate | reflexivity]|].
  split; [vm_compute; reflexivity|].
  intros (_ & Hle & _). vm_compute in Hle. now apply Hle.
Qed.

Lemma twelve_not_power_of_two : ~ power_of_two 12.
Proof.
  intros (k & Hk & E).
  destruct (Z.lt_ge_cases k 4) as [Hlt | Hge].
  - assert (Hc : k = 0 \/ k = 1 \/ k = 2 \/ k = 3) by lia.
    destruct Hc as [-> | [-> | [-> | ->]]]; vm_compute in E; discriminate.
  - pose proof (Z.pow_le_mono_r 2 4 k ltac:(lia) Hge) as Hp.
    change (2 ^ 4) with 16 in Hp. lia.
Qed.

(** Instances of [alignment_law]: alignment 16 on LP64, and the same
    platform with alignment 12. *)
Lemma alignment_law_scenario :
  (0 <= 4 <= Z.of_nat size_t_bits /\ GPR_MAX_ALIGNMENT = 2 ^ 4) /\
  least_multiple_above GPR_MAX_ALIGNMENT 13 (ROUND_UP_TO_ALIGNMENT_SIZE 13) /\
  (forall size m',
     grpc_channel_stack_size consuming_filters 3 empty_machine = (Ok size, m')
     -> (GPR_MAX_ALIGNMENT | size)) /\
  (0 < 12 /\ ~ power_of_two 12) /\
  @grpc_channel_stack_size (lp64_aligned 12) consuming_filters 3
    empty_machine = (Abort, empty_machine).
Proof.
  assert (Hk : 0 <= 4 <= Z.of_nat size_t_bits) by (simpl; lia).
  assert (HA : GPR_MAX_ALIGNMENT = 2 ^ 4) by reflexivity.
  assert (H12 : 0 < 12) by lia.
  destruct (@alignment_law lp64) as [Hpow _].
  destruct (Hpow 4 Hk HA) as (Hleast & _ & _ & _ & Hsize).
  destruct (@alignment_law (lp64_aligned 12)) as [_ Hbad].
  split; [exact (conj Hk HA)|].
  split; [apply Hleast; [lia | vm_compute; reflexivity]|].
  split; [intros size m'; apply Hsize|].
  split; [exact (conj H12 twelve_not_power_of_two)|].
  exact (Hbad H12 twelve_not_power_of_two consuming_filters 3 empty_machine).
Defined.

(** The assertion of [grpc_channel_stack_size] lets the alignment 0
    through, although 0 is not a power of two; every size is then 0. *)
Example zero_alignment_accepted :
  @alignment_is_power_of_two (lp64_aligned 0) = true /\
  ~ power_of_two 0 /\
  @grpc_channel_stack_size (lp64_aligned 0) consuming_filters 3
    empty_machine = (Ok 0, empty_machine).
Proof.
  split; [reflexivity|]. split; [|vm_compute; reflexivity].
  intros H. apply power_of_two_pos in H. lia.
Qed.

(** The scenario instance of [call_stack_sizing]. *)
Lemma call_stack_sizing_scenario :
  0 <= 3 /\ (Z.to_nat 3 <= length consuming_filters)%nat /\
  0 < sizeof_grpc_channel_element /\
  3 * sizeof_grpc_channel_element <= modulus /\
  grpc_channel_stack_init consuming_filters 3 0 0 4096 empty_machine =
    (Ok tt, scenario_channel consuming_filters) /\
  let fs := take (Z.to_nat 3) consuming_filters in
  let call_stack_size :=
    wrap (ROUND_UP_TO_ALIGNMENT_SIZE sizeof_grpc_call_stack +
          ROUND_UP_TO_ALIGNMENT_SIZE (wmul 3 sizeof_grpc_call_element) +
          sum_Z (map (fun f =>
                        ROUND_UP_TO_ALIGNMENT_SIZE (sizeof_call_data f))
                     fs)) in
  words (scenario_channel consuming_filters)
    !! (channel_stack_call_stack_size, 4096) = Some call_stack_size /\
  forall transport_server_data initial_op call_stack,
    exists m2,
      grpc_call_stack_init_elems 4096 transport_server_data initial_op
        call_stack (scenario_channel consuming_filters) =
      (Ok (wadd call_stack call_stack_size), m2).
Proof.
  assert (H1 : 0 <= 3) by lia.
  assert (H2 : (Z.to_nat 3 <= length consuming_filters)%nat)
    by (simpl; lia).
  assert (H3 : 0 < sizeof_grpc_channel_element) by reflexivity.
  assert (H4 : 3 * sizeof_grpc_channel_element <= modulus)
    by (vm_compute; discriminate).
  assert (H5 : grpc_channel_stack_init consuming_filters 3 0 0 4096
                 empty_machine =
               (Ok tt, scenario_channel consuming_filters))
    by (vm_compute; reflexivity).
  exact (conj H1 (conj H2 (conj H3 (conj H4 (conj H5
           (call_stack_sizing consuming_filters 3 0 0 4096 empty_machine
              (scenario_channel consuming_filters) H1 H2 H3 H4 H5)))))).
Defined.

(** In the scenario the call stack needs 128 bytes. *)
Example scenario_call_stack_size :
  words (scenario_channel consuming_filters)
    !! (channel_stack_call_stack_size, 4096) = Some 128 /\
  fst (grpc_call_stack_init_elems 4096 0 0 8192
         (scenario_channel consuming_filters)) = Ok (8192 + 128).
Proof. split; vm_compute; reflexivity. Qed.

(** The scenario instance of [propagation_direction]. *)
Lemma propagation_direction_scenario :
  let fs := consuming_filters in
  let m := scenario_call consuming_filters in
  channel_stack_at 4096 fs m /\ call_stack_at 8192 fs m /\
  (forall i f op,
     0 <= i -> fs !! Z.to_nat (i + 1) = Some f -> dir op = 1 ->
     let cur := grpc_channel_stack_element 4096 i in
     let next := grpc_channel_stack_element 4096 (i + 1) in
     grpc_channel_next_op 8 cur op m =
     run_handler 8 (channel_op f next cur op)
       (record_call (hook_channel_op f next cur op) m)) /\
  (forall i f op,
     1 <= i -> fs !! Z.to_nat (i - 1) = Some f -> dir op = -1 ->
     let cur := grpc_channel_stack_element 4096 i in
     let next := grpc_channel_stack_element 4096 (i - 1) in
     grpc_channel_next_op 8 cur op m =
     run_handler 8 (channel_op f next cur op)
       (record_call (hook_channel_op f next cur op) m)) /\
  (forall i f op,
     0 <= i -> fs !! Z.to_nat (i + 1) = Some f ->
     let cur := grpc_call_stack_element 8192 i in
     let next := grpc_call_stack_element 8192 (i + 1) in
     grpc_call_next_op 8 cur op m =
     run_handler 8 (start_transport_op f next op)
       (record_call (hook_start_transport_op f next op) m)).
Proof.
  assert (H1 : channel_stack_at 4096 consuming_filters
                 (scenario_call consuming_filters)).
  { split; [vm_compute; reflexivity|].
    intros [|[|[|j]]] f Hj; simpl in Hj; try discriminate;
      injection Hj as <-; vm_compute; reflexivity. }
  assert (H2 : call_stack_at 8192 consuming_filters
                 (scenario_call consuming_filters)).
  { split; [vm_compute; reflexivity|].
    intros [|[|[|j]]] f Hj; simpl in Hj; try discriminate;
      injection Hj as <-; vm_compute; reflexivity. }
  exact (conj H1 (conj H2
           (propagation_direction 4096 8192 consuming_filters 8
              (scenario_call consuming_filters) H1 H2))).
Defined.

(** A channel operation travelling down from element 0 and one
    travelling up from element 2 both arrive at element 1, each with
    its sender as origin. *)
Example scenario_channel_ops :
  let m := scenario_call consuming_filters in
  let down := {| dir := 1; channel_op_rest := [] |} in
  let up := {| dir := -1; channel_op_rest := [] |} in
  grpc_channel_next_op 8 (grpc_channel_stack_element 4096 0) down m =
    (Ok tt,
     record_call
       (hook_channel_op (consuming_filter 0 4)
          (grpc_channel_stack_element 4096 1)
          (grpc_channel_stack_element 4096 0) down) m) /\
  grpc_channel_next_op 8 (grpc_channel_stack_element 4096 2) up m =
    (Ok tt,
     record_call
       (hook_channel_op (consuming_filter 0 4)
          (grpc_channel_stack_element 4096 1)
          (grpc_channel_stack_element 4096 2) up) m).
Proof. split; vm_compute; reflexivity. Qed.

(** The scenario instance of [send_cancel_propagates]. *)
Lemma send_cancel_propagates_scenario :
  let fs := consuming_filters in
  let f := consuming_filter 0 4 in
  let m := scenario_call consuming_filters in
  call_stack_at 8192 fs m /\ 0 <= 0 /\ fs !! Z.to_nat (0 + 1) = Some f /\
  let cur := grpc_call_stack_element 8192 0 in
  let next := grpc_call_stack_element 8192 (0 + 1) in
  let m' := record_call (hook_start_transport_op f next cancel_op) m in
  Forall (fun w => w = 0) (transport_op_rest cancel_op) /\
  cancel_with_status cancel_op = GRPC_STATUS_CANCELLED /\
  grpc_call_element_send_cancel 8 cur m =
    run_handler 8 (start_transport_op f next cancel_op) m' /\
  (start_transport_op f next cancel_op = [] ->
   grpc_call_element_send_cancel 8 cur m = (Ok tt, m')) /\
  (forall g fuel',
     start_transport_op f next cancel_op = [forward_call_op next cancel_op] ->
     fs !! Z.to_nat (0 + 2) = Some g -> 8%nat = S fuel' ->
     let after := grpc_call_stack_element 8192 (0 + 2) in
     grpc_call_element_send_cancel 8 cur m =
     run_handler fuel' (start_transport_op g after cancel_op)
       (record_call (hook_start_transport_op g after cancel_op) m')).
Proof.
  assert (H1 : call_stack_at 8192 consuming_filters
                 (scenario_call consuming_filters)).
  { split; [vm_compute; reflexivity|].
    intros [|[|[|j]]] f Hj; simpl in Hj; try discriminate;
      injection Hj as <-; vm_compute; reflexivity. }
  assert (H2 : 0 <= 0) by lia.
  assert (H3 : consuming_filters !! Z.to_nat (0 + 1) =
               Some (consuming_filter 0 4)) by reflexivity.
  exact (conj H1 (conj H2 (conj H3
           (send_cancel_propagates 8192 consuming_filters 8 0
              (consuming_filter 0 4) (scenario_call consuming_filters)
              H1 H2 H3)))).
Defined.

(** A cancellation sent from element 0 of the three-filter call stack,
    whose filters do not forward, calls the handler of element 1 and
    nothing else: no [start_transport_op] is called on element 2. *)
Lemma cancel_stops_at_next_element :
  let m := scenario_call consuming_filters in
  let r :=
    grpc_call_element_send_cancel 8 (grpc_call_stack_element 8192 0) m in
  fst r = Ok tt /\
  hook_calls (snd r) =
    hook_calls m ++
    [hook_start_transport_op (consuming_filter 0 4)
       (grpc_call_stack_element 8192 1) cancel_op] /\
  existsb (start_transport_op_at (grpc_call_stack_element 8192 2))
    (hook_calls (snd r)) = false.
Proof. repeat split; vm_compute; reflexivity. Qed.

(** With filters 0 and 1 forwarding, the same cancellation is handed on
    by element 1 and arrives at element 2, still cancelled. *)
Example cancel_forwarded_reaches_tail :
  let m := scenario_call forwarding_filters in
  let r :=
    grpc_call_element_send_cancel 8 (grpc_call_stack_element 8192 0) m in
  fst r = Ok tt /\
  hook_calls (snd r) =
    hook_calls m ++
    [hook_start_transport_op (forwarding_filter 0 4)
       (grpc_call_stack_element 8192 1) cancel_op;
     hook_start_transport_op (consuming_filter 16 0)
       (grpc_call_stack_element 8192 2) cancel_op] /\
  cancel_with_status cancel_op = 1.
Proof. repeat split; vm_compute; reflexivity. Qed.

(** The scenario instance of [hook_order]. *)
Lemma hook_order_scenario :
  0 <= 3 /\ (Z.to_nat 3 <= length consuming_filters)%nat /\
  0 < sizeof_grpc_channel_element /\
  3 * sizeof_grpc_channel_element <= modulus /\
  0 < sizeof_grpc_call_element /\
  3 * sizeof_grpc_call_element <= modulus /\
  grpc_channel_stack_init consuming_filters 3 0 0 4096 empty_machine =
    (Ok tt, scenario_channel consuming_filters) /\
  let m0 := empty_machine in
  let m1 := scenario_channel consuming_filters in
  let fs := take (Z.to_nat 3) consuming_filters in
  exists m2 m3 m4,
    hook_calls m1 = hook_calls m0 ++ channel_init_calls 4096 3 0 0 fs /\
    grpc_call_stack_init 4096 0 0 8192 m1 = (Ok tt, m2) /\
    hook_calls m2 = hook_calls m1 ++ call_init_calls 8192 0 0 fs /\
    grpc_call_stack_destroy 8192 m2 = (Ok tt, m3) /\
    hook_calls m3 = hook_calls m2 ++ call_destroy_calls 8192 fs /\
    grpc_channel_stack_destroy 4096 m3 = (Ok tt, m4) /\
    hook_calls m4 = hook_calls m3 ++ channel_destroy_calls 4096 fs /\
    (forall j,
       channel_destroy_calls 4096 fs !! j =
         (fun f => hook_destroy_channel_elem f
                     (grpc_channel_stack_element 4096 (Z.of_nat j)))
         <$> fs !! j) /\
    (forall j,
       call_destroy_calls 8192 fs !! j =
         (fun f => hook_destroy_call_elem f
                     (grpc_call_stack_element 8192 (Z.of_nat j)))
         <$> fs !! j) /\
    hook_subject <$> channel_destroy_calls 4096 fs =
      hook_subject <$> channel_init_calls 4096 3 0 0 fs /\
    hook_subject <$> call_destroy_calls 8192 fs =
      hook_subject <$> call_init_calls 8192 0 0 fs.
Proof.
  assert (H1 : 0 <= 3) by lia.
  assert (H2 : (Z.to_nat 3 <= length consuming_filters)%nat)
    by (simpl; lia).
  assert (H3 : 0 < sizeof_grpc_channel_element) by reflexivity.
  assert (H4 : 3 * sizeof_grpc_channel_element <= modulus)
    by (vm_compute; discriminate).
  assert (H5 : 0 < sizeof_grpc_call_element) by reflexivity.
  assert (H6 : 3 * sizeof_grpc_call_element <= modulus)
    by (vm_compute; discriminate).
  assert (H7 : grpc_channel_stack_init consuming_filters 3 0 0 4096
                 empty_machine =
               (Ok tt, scenario_channel consuming_filters))
    by (vm_compute; reflexivity).
  exact (conj H1 (conj H2 (conj H3 (conj H4 (conj H5 (conj H6 (conj H7
           (hook_order consuming_filters 3 0 0 4096 0 0 8192 empty_machine
              (scenario_channel consuming_filters)
              H1 H2 H3 H4 H5 H6 H7)))))))).
Defined.

(** The whole life of the scenario: each init and destroy hook fires
    once per filter, in the order 0, 1, 2. *)
Example scenario_lifecycle :
  let e := grpc_channel_stack_element 4096 in
  let k := grpc_call_stack_element 8192 in
  let f0 := consuming_filter 8 4 in
  let f1 := consuming_filter 0 4 in
  let f2 := consuming_filter 16 0 in
  let m3 := snd (grpc_call_stack_destroy 8192
                   (scenario_call consuming_filters)) in
  let m4 := snd (grpc_channel_stack_destroy 4096 m3) in
  hook_calls m4 =
    [hook_init_channel_elem f0 (e 0) 0 0 true false;
     hook_init_channel_elem f1 (e 1) 0 0 false false;
     hook_init_channel_elem f2 (e 2) 0 0 false true;
     hook_init_call_elem f0 (k 0) 0 0;
     hook_init_call_elem f1 (k 1) 0 0;
     hook_init_call_elem f2 (k 2) 0 0;
     hook_destroy_call_elem f0 (k 0);
     hook_destroy_call_elem f1 (k 1);
     hook_destroy_call_elem f2 (k 2);
     hook_destroy_channel_elem f0 (e 0);
     hook_destroy_channel_elem f1 (e 1);
     hook_destroy_channel_elem f2 (e 2)].
Proof. vm_compute. reflexivity. Qed.



(** The layout of the scenario: elements at 4112, 4128 and 4144, data
    regions starting at 4160, 4176 and 4176, the second one empty. *)
Example scenario_layout :
  map (grpc_channel_stack_element 4096) [0; 1; 2] = [4112; 4128; 4144] /\
  map (fun j =>
         words (scenario_channel consuming_filters)
           !! (channel_elem_channel_data, grpc_channel_stack_element 4096 j))
      [0; 1; 2] = [Some 4160; Some 4176; Some 4176].
Proof. split; vm_compute; reflexivity. Qed.

(** The instance of [empty_stack] at address 4096. *)
Lemma empty_stack_scenario :
  0 <= 4 /\ GPR_MAX_ALIGNMENT = 2 ^ 4 /\
  0 < sizeof_grpc_channel_stack /\
  sizeof_grpc_channel_stack + GPR_MAX_ALIGNMENT - 1 < modulus /\
  0 <= 4096 /\
  4096 + ROUND_UP_TO_ALIGNMENT_SIZE sizeof_grpc_channel_stack < modulus /\
  let filters := [] : list grpc_channel_filter in
  let m := empty_machine in
  let header := ROUND_UP_TO_ALIGNMENT_SIZE sizeof_grpc_channel_stack in
  let call_size :=
    wadd (ROUND_UP_TO_ALIGNMENT_SIZE sizeof_grpc_call_stack)
         (ROUND_UP_TO_ALIGNMENT_SIZE (wmul 0 sizeof_grpc_call_element)) in
  let user_data := 4096 + header in
  let m' := set_word channel_stack_call_stack_size 4096 call_size
              (set_word channel_stack_count 4096 0 m) in
  grpc_channel_stack_size filters 0 m = (Ok header, m) /\
  0 < header /\
  grpc_channel_stack_init_elems filters 0 0 0 4096 m =
    (Ok (user_data, call_size), set_word channel_stack_count 4096 0 m) /\
  (4096 <? user_data) = true /\
  (wsub user_data 4096 =? header) = true /\
  grpc_channel_stack_init filters 0 0 0 4096 m = (Ok tt, m') /\
  hook_calls m' = hook_calls m /\
  words m' !! (channel_stack_count, 4096) = Some 0 /\
  words m' !! (channel_stack_call_stack_size, 4096) = Some call_size /\
  call_size = ROUND_UP_TO_ALIGNMENT_SIZE sizeof_grpc_call_stack.
Proof.
  assert (H1 : 0 <= 4) by lia.
  assert (H2 : GPR_MAX_ALIGNMENT = 2 ^ 4) by reflexivity.
  assert (H3 : 0 < sizeof_grpc_channel_stack) by reflexivity.
  assert (H4 : sizeof_grpc_channel_stack + GPR_MAX_ALIGNMENT - 1 < modulus)
    by (vm_compute; reflexivity).
  assert (H5 : 0 <= 4096) by lia.
  assert (H6 : 4096 + ROUND_UP_TO_ALIGNMENT_SIZE sizeof_grpc_channel_stack
               < modulus) by (vm_compute; reflexivity).
  exact (conj H1 (conj H2 (conj H3 (conj H4 (conj H5 (conj H6
           (empty_stack 4 [] 0 0 4096 empty_machine
              H1 H2 H3 H4 H5 H6))))))).
Defined.

(** The empty stack on LP64: 16 bytes, and 16 bytes per call. *)
Example scenario_empty :
  grpc_channel_stack_size [] 0 empty_machine = (Ok 16, empty_machine) /\
  grpc_channel_stack_init [] 0 0 0 4096 empty_machine =
    (Ok tt,
     set_word channel_stack_call_stack_size 4096 16
       (set_word channel_stack_count 4096 0 empty_machine)).
Proof. split; vm_compute; reflexivity. Qed.

End Scenario.

(** * Further properties *)

(** ** The layout calculator *)

Section SizeCalculator.
Context `{P : Platform}.

Lemma channel_data_end_sum fs c :
  0 <= c < modulus ->
  channel_data_end fs c = wrap (c + sum_Z (aligned_channel_sizes fs)).
Proof.
  revert c. induction fs as [|f fs IH]; intros c Hc.
  - simpl. rewrite Z.add_0_r. symmetry. now apply wrap_small.
  - change (channel_data_end (f :: fs) c)
      with (channel_data_end fs
              (wadd c (ROUND_UP_TO_ALIGNMENT_SIZE (sizeof_channel_data f)))).
    rewrite IH by apply wrap_range. simpl. unfold wadd.
    rewrite wrap_add_l. f_equal. lia.
Qed.

Lemma sum_Z_app l1 l2 : sum_Z (l1 ++ l2) = sum_Z l1 + sum_Z l2.
Proof. induction l1 as [|x l1 IH]; simpl; [reflexivity|]. rewrite IH. lia. Qed.

Lemma sum_Z_permutation l1 l2 : l1 ≡ₚ l2 -> sum_Z l1 = sum_Z l2.
Proof.
  induction 1 as [|x l1 l2 _ IH|x y l|l1 l2 l3 _ IH1 _ IH2]; simpl; lia.
Qed.

(** X1.  The layout calculator in closed form.  For a filter array
    holding at least [filter_count] filters, [grpc_channel_stack_size]
    aborts when its alignment check fails and otherwise returns, in
    [size_t] arithmetic, the aligned header size plus the aligned size
    of the element table plus the sum of the aligned channel-data
    sizes; and whatever its arguments and its outcome, it leaves the
    machine as it found it: it writes no field and calls no filter. *)
Theorem grpc_channel_stack_size_closed_form filters filter_count m :
  0 <= filter_count -> (Z.to_nat filter_count <= length filters)%nat ->
  grpc_channel_stack_size filters filter_count m =
    (if alignment_is_power_of_two
     then Ok (wrap (ROUND_UP_TO_ALIGNMENT_SIZE sizeof_grpc_channel_stack +
                    ROUND_UP_TO_ALIGNMENT_SIZE
                      (wmul filter_count sizeof_grpc_channel_element) +
                    sum_Z (aligned_channel_sizes
                             (take (Z.to_nat filter_count) filters))))
     else Abort, m) /\
  forall filters' count' m0 r m',
    grpc_channel_stack_size filters' count' m0 = (r, m') -> m' = m0.
Proof.
  intros Hc Hlen. split.
  - rewrite (grpc_channel_stack_size_run filters filter_count m Hc Hlen).
    destruct alignment_is_power_of_two; [|reflexivity].
    rewrite channel_data_end_sum by apply wrap_range.
    unfold wadd. now rewrite wrap_add_l.
  - intros filters' count' m0 r m'. apply grpc_channel_stack_size_pure.
Qed.

(** X2.  The size does not depend on the order of the filters: two
    arrangements of the same filters need the same number of bytes (or
    both make the alignment check fail). *)
Theorem grpc_channel_stack_size_permutation
    (fs fs' : list grpc_channel_filter) m :
  fs ≡ₚ fs' ->
  grpc_channel_stack_size fs (Z.of_nat (length fs)) m =
  grpc_channel_stack_size fs' (Z.of_nat (length fs')) m.
Proof.
  intros Hperm.
  rewrite !grpc_channel_stack_size_run by lia.
  destruct alignment_is_power_of_two; [|reflexivity].
  rewrite !Nat2Z.id, !firstn_all.
  rewrite <- (Permutation_length Hperm).
  rewrite !channel_data_end_sum by apply wrap_range.
  assert (Hsum : sum_Z (aligned_channel_sizes fs) =
                 sum_Z (aligned_channel_sizes fs')).
  { apply sum_Z_permutation. unfold aligned_channel_sizes.
    now apply fmap_Permutation. }
  now rewrite Hsum.
Qed.

(** Inside the address space the cursor is the exact sum, and rounding
    adds less than one alignment unit per region. *)
Lemma channel_data_end_exact k fs c :
  0 <= k -> GPR_MAX_ALIGNMENT = 2 ^ k -> 0 <= c ->
  data_fits (map sizeof_channel_data fs) c = true ->
  channel_data_end fs c = c + sum_Z (aligned_channel_sizes fs) /\
  sum_Z (map sizeof_channel_data fs) <= sum_Z (aligned_channel_sizes fs) /\
  sum_Z (aligned_channel_sizes fs) <=
    sum_Z (map sizeof_channel_data fs) +
    Z.of_nat (length fs) * (GPR_MAX_ALIGNMENT - 1).
Proof.
  intros Hk HA. revert c.
  induction fs as [|f fs IH]; intros c Hc Hfit.
  - simpl. lia.
  - simpl in Hfit.
    apply andb_prop in Hfit as [Hx Hrest].
    apply andb_prop in Hx as [Hx0 Hx1].
    apply Z.leb_le in Hx0. apply Z.ltb_lt in Hx1.
    pose proof (round_up_bounds k _ Hk HA Hx0 Hx1) as Hb.
    pose proof (data_fits_bound _ _ Hrest) as Hlt.
    assert (Hc' : 0 <= c + ROUND_UP_TO_ALIGNMENT_SIZE (sizeof_channel_data f))
      by lia.
    destruct (IH _ Hc' Hrest) as (He & Hlo & Hhi).
    change (channel_data_end (f :: fs) c)
      with (channel_data_end fs
              (wadd c (ROUND_UP_TO_ALIGNMENT_SIZE (sizeof_channel_data f)))).
    unfold wadd. rewrite wrap_small by lia. rewrite He.
    cbn [aligned_channel_sizes map sum_Z foldr length].
    fold (aligned_channel_sizes fs).
    fold (sum_Z (aligned_channel_sizes fs)).
    fold (sum_Z (map sizeof_channel_data fs)).
    rewrite Nat2Z.inj_succ. lia.
Qed.

(** X3.  The size covers what was declared.  On a platform with a
    power-of-two alignment, for filters whose stack fits the address
    space, [grpc_channel_stack_size] returns at least the header size
    plus the element-table size plus the sum of the declared
    channel-data sizes, and the padding it adds is less than one
    alignment unit for the header, for the table and for each filter. *)
Theorem grpc_channel_stack_size_covers k (fs : list grpc_channel_filter) m :
  0 <= k -> GPR_MAX_ALIGNMENT = 2 ^ k ->
  0 <= sizeof_grpc_channel_stack ->
  sizeof_grpc_channel_stack + GPR_MAX_ALIGNMENT - 1 < modulus ->
  channel_stack_fits 0 fs = true ->
  let n := Z.of_nat (length fs) in
  let declared :=
    sizeof_grpc_channel_stack + n * sizeof_grpc_channel_element +
    sum_Z (map sizeof_channel_data fs) in
  exists size,
    grpc_channel_stack_size fs n m = (Ok size, m) /\
    declared <= size <= declared + (n + 2) * (GPR_MAX_ALIGNMENT - 1).
Proof.
  intros Hk HA Hh0 Hh1 Hfits n declared.
  unfold channel_stack_fits in Hfits. fold n in Hfits.
  apply andb_prop in Hfits as [Hfits Hdata].
  apply andb_prop in Hfits as [Hfits Hn].
  apply andb_prop in Hfits as [_ Hsz].
  apply Z.ltb_lt in Hsz. apply Z.ltb_lt in Hn.
  pose proof (round_up_bounds k _ Hk HA Hh0 Hh1) as Hhdr.
  assert (Hnn : 0 <= n) by (unfold n; lia).
  assert (Hn0 : 0 <= n * sizeof_grpc_channel_element)
    by (apply Z.mul_nonneg_nonneg; [exact Hnn | apply Z.lt_le_incl, Hsz]).
  pose proof (round_up_bounds k _ Hk HA Hn0 Hn) as Htab.
  pose proof (data_fits_bound _ _ Hdata) as Htop.
  rewrite Z.add_0_l in Hdata, Htop.
  assert (Hc0 : 0 <= ROUND_UP_TO_ALIGNMENT_SIZE sizeof_grpc_channel_stack +
                     ROUND_UP_TO_ALIGNMENT_SIZE
                       (n * sizeof_grpc_channel_element)) by lia.
  destruct (channel_data_end_exact k fs _ Hk HA Hc0 Hdata)
    as (He & Hlo & Hhi).
  assert (Hcheck : alignment_is_power_of_two = true)
    by (apply alignment_check_spec; right; now exists k).
  rewrite grpc_channel_stack_size_run by (unfold n; lia).
  rewrite Hcheck. unfold n at 1 2. rewrite Nat2Z.id, firstn_all. fold n.
  unfold wmul. rewrite (wrap_small (n * _)) by lia.
  unfold wadd. rewrite wrap_small by lia.
  eexists. split; [reflexivity|]. rewrite He. unfold declared. lia.
Qed.

End SizeCalculator.

(** ** The tail accessor *)

Section LastElement.
Context `{P : Platform}.

(** X4.  The tail accessor.  For a channel stack of [n >= 1] filters in
    memory, [grpc_channel_stack_last_element] returns the address of
    the element at index [n - 1], which refers to the last filter, and
    changes nothing.  For an empty stack it does not fail: [count - 1]
    wraps and the address it returns is the one the accessor gives for
    index [-1], one element size below the element table. *)
Theorem grpc_channel_stack_last_element_spec stack fs m :
  channel_stack_at stack fs m ->
  Z.of_nat (length fs) < modulus ->
  (forall f, last fs = Some f ->
     let tail := grpc_channel_stack_element stack
                   (Z.of_nat (length fs) - 1) in
     grpc_channel_stack_last_element stack m = (Ok tail, m) /\
     filter_refs m !! (channel_elem_filter, tail) = Some f) /\
  (fs = [] ->
     grpc_channel_stack_last_element stack m =
       (Ok (grpc_channel_stack_element stack (-1)), m) /\
     grpc_channel_stack_element stack (-1) =
       wsub (CHANNEL_ELEMS_FROM_STACK stack) sizeof_grpc_channel_element).
Proof.
  intros [Hcount Htable] Hn.
  assert (Hrun : grpc_channel_stack_last_element stack m =
                 (Ok (grpc_channel_stack_element stack
                        (wsub (Z.of_nat (length fs)) 1)), m)).
  { unfold grpc_channel_stack_last_element.
    now rewrite (bind_ok _ _ _ _ _ (load_word_ok _ _ _ _ Hcount)). }
  pose proof modulus_pos as HM. split.
  - intros f Hlast.
    assert (Hpos : (0 < length fs)%nat).
    { destruct fs; [discriminate | simpl; lia]. }
    cbv zeta. split.
    + rewrite Hrun. unfold wsub. rewrite wrap_small by lia. reflexivity.
    + rewrite last_lookup in Hlast. apply Htable in Hlast.
      replace (Z.of_nat (length fs) - 1)
        with (Z.of_nat (Init.Nat.pred (length fs))) by lia.
      exact Hlast.
  - intros E. rewrite E in Hrun. change (Z.of_nat (length [])) with 0 in Hrun.
    assert (Hidx : grpc_channel_stack_element stack (wsub 0 1) =
                   grpc_channel_stack_element stack (-1)).
    { unfold grpc_channel_stack_element, elem_ptr, wsub, wrap.
      replace (CHANNEL_ELEMS_FROM_STACK stack +
               (0 - 1) mod modulus * sizeof_grpc_channel_element)
        with (CHANNEL_ELEMS_FROM_STACK stack +
              -1 * sizeof_grpc_channel_element +
              sizeof_grpc_channel_element * modulus).
      - apply Z.mod_add. lia.
      - rewrite <- (Z.mod_add (0 - 1) 1 modulus) by lia.
        rewrite Z.mod_small by lia. lia. }
    split.
    + now rewrite Hrun, Hidx.
    + unfold grpc_channel_stack_element, elem_ptr, wsub. f_equal; lia.
Qed.

End LastElement.

(** ** What channel-stack construction writes, calls and rejects *)

Section ChannelInitMore.
Context `{P : Platform}.

Lemma channel_data_start_range stack n :
  0 <= channel_data_start stack n < modulus.
Proof. unfold channel_data_start, wadd. apply wrap_range. Qed.

Lemma channel_data_start_sum stack n :
  channel_data_start stack n =
  wrap (stack + ROUND_UP_TO_ALIGNMENT_SIZE sizeof_grpc_channel_stack +
        ROUND_UP_TO_ALIGNMENT_SIZE (wmul n sizeof_grpc_channel_element)).
Proof.
  unfold channel_data_start, CHANNEL_ELEMS_FROM_STACK, wadd.
  now rewrite wrap_add_l.
Qed.

(** X5.  The element table after construction.  After a successful
    [grpc_channel_stack_init] on an element table that does not wrap,
    the header holds the filter count, the element at index [j] refers
    to [filters[j]], and its [channel_data] pointer is, in pointer
    arithmetic, the stack address plus the aligned header size plus the
    aligned table size plus the aligned channel-data sizes of the
    filters before it. *)
Theorem grpc_channel_stack_init_populates
    filters filter_count args metadata_context stack m m1 :
  0 <= filter_count -> (Z.to_nat filter_count <= length filters)%nat ->
  0 < sizeof_grpc_channel_element ->
  filter_count * sizeof_grpc_channel_element <= modulus ->
  grpc_channel_stack_init filters filter_count args metadata_context
    stack m = (Ok tt, m1) ->
  let fs := take (Z.to_nat filter_count) filters in
  words m1 !! (channel_stack_count, stack) = Some filter_count /\
  forall j f, fs !! j = Some f ->
    let elem := grpc_channel_stack_element stack (Z.of_nat j) in
    filter_refs m1 !! (channel_elem_filter, elem) = Some f /\
    words m1 !! (channel_elem_channel_data, elem) =
      Some (wrap (stack +
                  ROUND_UP_TO_ALIGNMENT_SIZE sizeof_grpc_channel_stack +
                  ROUND_UP_TO_ALIGNMENT_SIZE
                    (wmul filter_count sizeof_grpc_channel_element) +
                  sum_Z (aligned_channel_sizes (take j fs)))).
Proof.
  intros Hc Hlen Hsz Hfit Hinit fs.
  destruct (grpc_channel_stack_init_establishes _ _ _ _ _ _ _
              Hc Hlen Hsz Hfit Hinit) as (_ & _ & [Hcount Htable] & Hdata).
  fold fs in Hcount, Htable, Hdata.
  assert (Hfs : Z.of_nat (length fs) = filter_count)
    by (unfold fs; rewrite length_take; lia).
  rewrite Hfs in Hcount. split; [exact Hcount|].
  intros j f Hf elem. split; [now apply Htable|].
  unfold elem. rewrite (Hdata j _ (channel_data_ptrs_lookup stack fs j f Hf)).
  rewrite Hfs, channel_data_end_sum by apply channel_data_start_range.
  rewrite channel_data_start_sum, wrap_add_l. reflexivity.
Qed.

Lemma channel_data_end_divide k fs c :
  0 <= k <= Z.of_nat size_t_bits -> GPR_MAX_ALIGNMENT = 2 ^ k ->
  (GPR_MAX_ALIGNMENT | c) -> (GPR_MAX_ALIGNMENT | channel_data_end fs c).
Proof.
  intros Hk HA. revert c. induction fs as [|f fs IH]; intros c Hc.
  - exact Hc.
  - simpl. apply IH. apply wadd_divide; [| exact Hc |].
    + rewrite HA. now apply alignment_divides_modulus.
    + apply (round_up_divide k); lia.
Qed.

(** X6.  Channel data is aligned.  With a power-of-two alignment and a
    stack address that is a multiple of it, the element table starts at
    a multiple of the alignment and, after a successful
    [grpc_channel_stack_init], so does the channel data of every
    filter. *)
Theorem channel_data_aligned
    k filters filter_count args metadata_context stack m m1 :
  0 <= k <= Z.of_nat size_t_bits -> GPR_MAX_ALIGNMENT = 2 ^ k ->
  (GPR_MAX_ALIGNMENT | stack) ->
  0 <= filter_count -> (Z.to_nat filter_count <= length filters)%nat ->
  0 < sizeof_grpc_channel_element ->
  filter_count * sizeof_grpc_channel_element <= modulus ->
  grpc_channel_stack_init filters filter_count args metadata_context
    stack m = (Ok tt, m1) ->
  (GPR_MAX_ALIGNMENT | CHANNEL_ELEMS_FROM_STACK stack) /\
  forall j d,
    (j < Z.to_nat filter_count)%nat ->
    words m1 !! (channel_elem_channel_data,
                 grpc_channel_stack_element stack (Z.of_nat j)) = Some d ->
    (GPR_MAX_ALIGNMENT | d).
Proof.
  intros Hk HA Hstack Hc Hlen Hsz Hfit Hinit.
  assert (HM : (GPR_MAX_ALIGNMENT | modulus))
    by (rewrite HA; now apply alignment_divides_modulus).
  assert (Helems : (GPR_MAX_ALIGNMENT | CHANNEL_ELEMS_FROM_STACK stack)).
  { unfold CHANNEL_ELEMS_FROM_STACK.
    apply wadd_divide; [exact HM | exact Hstack |].
    apply (round_up_divide k); lia. }
  split; [exact Helems|].
  intros j d Hj Hd.
  destruct (grpc_channel_stack_init_establishes _ _ _ _ _ _ _
              Hc Hlen Hsz Hfit Hinit) as (_ & _ & _ & Hdata).
  set (fs := take (Z.to_nat filter_count) filters) in *.
  assert (Hfs : length fs = Z.to_nat filter_count)
    by (unfold fs; rewrite length_take; lia).
  destruct (lookup_lt_is_Some_2 fs j ltac:(lia)) as [f Hf].
  rewrite (Hdata j _ (channel_data_ptrs_lookup stack fs j f Hf)) in Hd.
  injection Hd as <-.
  apply (channel_data_end_divide k); [exact Hk | exact HA |].
  unfold channel_data_start.
  apply wadd_divide; [exact HM | exact Helems |].
  apply (round_up_divide k); lia.
Qed.

(** X7.  Boundary flags.  For a non-wrapping filter count,
    [grpc_channel_stack_init] calls [init_channel_elem] of the filter
    at index [j] with [is_first] true exactly for [j = 0] and
    [is_last] true exactly for [j = count - 1]; a single filter gets
    both. *)
Theorem init_boundary_flags
    (fs : list grpc_channel_filter) args metadata_context stack m :
  Z.of_nat (length fs) < modulus ->
  exists locals m',
    grpc_channel_stack_init_elems fs (Z.of_nat (length fs)) args
      metadata_context stack m = (Ok locals, m') /\
    forall j f, fs !! j = Some f ->
      hook_calls m' !! (length (hook_calls m) + j)%nat =
      Some (hook_init_channel_elem f
              (grpc_channel_stack_element stack (Z.of_nat j))
              args metadata_context
              (bool_decide (j = 0%nat))
              (bool_decide (S j = length fs))).
Proof.
  intros Hn.
  destruct (grpc_channel_stack_init_elems_run fs (Z.of_nat (length fs))
              args metadata_context stack m ltac:(lia) ltac:(lia))
    as (m' & Hrun & Hcalls & _).
  rewrite Nat2Z.id, firstn_all in Hrun, Hcalls.
  eexists _, m'. split; [exact Hrun|].
  intros j f Hf. rewrite Hcalls.
  rewrite lookup_app_r by lia.
  replace (length (hook_calls m) + j - length (hook_calls m))%nat
    with j by lia.
  unfold channel_init_calls. rewrite list_lookup_imap, Hf. simpl.
  assert (Hj : (j < length fs)%nat) by now apply lookup_lt_Some in Hf.
  assert (Hlast : wsub (Z.of_nat (length fs)) 1 = Z.of_nat (length fs) - 1)
    by (unfold wsub; apply wrap_small; lia).
  rewrite Hlast. do 2 f_equal.
  - destruct (Z.eqb_spec (Z.of_nat j) 0), (decide (j = 0%nat));
      rewrite ?bool_decide_eq_true_2, ?bool_decide_eq_false_2 by assumption;
      try reflexivity; lia.
  - destruct (Z.eqb_spec (Z.of_nat j) (Z.of_nat (length fs) - 1)),
             (decide (S j = length fs));
      rewrite ?bool_decide_eq_true_2, ?bool_decide_eq_false_2 by assumption;
      try reflexivity; lia.
Qed.

(** X8.  How construction fails.  For a filter array holding at least
    [filter_count] filters, [grpc_channel_stack_init] first runs its
    whole loop, calling [init_channel_elem] of every filter; it then
    returns, having stored [call_stack_size], exactly when the cursor
    lies above the stack base and the alignment check passes, and
    aborts otherwise, leaving the machine as the loop left it.  The
    comparison of the cursor with the computed size never fails by
    itself. *)
Theorem grpc_channel_stack_init_outcome
    filters filter_count args metadata_context stack m :
  0 <= filter_count -> (Z.to_nat filter_count <= length filters)%nat ->
  exists user_data call_size m',
    grpc_channel_stack_init_elems filters filter_count args
      metadata_context stack m = (Ok (user_data, call_size), m') /\
    hook_calls m' =
      hook_calls m ++
      channel_init_calls stack filter_count args metadata_context
        (take (Z.to_nat filter_count) filters) /\
    grpc_channel_stack_init filters filter_count args metadata_context
      stack m =
      if (stack <? user_data) && alignment_is_power_of_two
      then (Ok tt,
            set_word channel_stack_call_stack_size stack call_size m')
      else (Abort, m').
Proof.
  intros Hc Hlen.
  destruct (grpc_channel_stack_init_elems_run filters filter_count args
              metadata_context stack m Hc Hlen)
    as (m' & Hrun & Hcalls & _).
  eexists _, _, m'. split; [exact Hrun|]. split; [exact Hcalls|].
  unfold grpc_channel_stack_init. rewrite (bind_ok _ _ _ _ _ Hrun).
  unfold bind. destruct (stack <? _); simpl; [|reflexivity].
  rewrite (grpc_channel_stack_size_run filters filter_count m' Hc Hlen).
  destruct alignment_is_power_of_two; [|reflexivity].
  rewrite <- (cursor_offset _ stack filter_count), Z.eqb_refl. reflexivity.
Qed.

End ChannelInitMore.

(** ** Call stacks built on a channel stack *)

Section CallInitMore.
Context `{P : Platform}.

Lemma call_data_start_range call_stack n :
  0 <= call_data_start call_stack n < modulus.
Proof. unfold call_data_start, wadd. apply wrap_range. Qed.

Lemma call_data_start_sum call_stack n :
  call_data_start call_stack n =
  wrap (call_stack + ROUND_UP_TO_ALIGNMENT_SIZE sizeof_grpc_call_stack +
        ROUND_UP_TO_ALIGNMENT_SIZE (wmul n sizeof_grpc_call_element)).
Proof.
  unfold call_data_start, CALL_ELEMS_FROM_STACK, wadd.
  now rewrite wrap_add_l.
Qed.

(** X9.  A call stack mirrors its channel stack.  On a channel stack of
    the filters [fs] whose elements hold the channel-data pointers
    [data], and with a call-element table that does not wrap,
    [grpc_call_stack_init] returns; afterwards the call stack has the
    count of the channel stack, the call element at index [j] refers
    to the filter of the channel element at index [j] and holds that
    element's channel-data pointer itself, and its [call_data] pointer
    is the call-stack address plus the aligned header size plus the
    aligned table size plus the aligned call-data sizes of the filters
    before it. *)
Theorem grpc_call_stack_init_mirrors
    stack fs data transport_server_data initial_op call_stack m :
  channel_stack_at stack fs m -> channel_data_at stack data m ->
  length data = length fs ->
  0 < sizeof_grpc_call_element ->
  Z.of_nat (length fs) * sizeof_grpc_call_element <= modulus ->
  exists m',
    grpc_call_stack_init stack transport_server_data initial_op
      call_stack m = (Ok tt, m') /\
    words m' !! (call_stack_count, call_stack) =
      words m' !! (channel_stack_count, stack) /\
    forall j, (j < length fs)%nat ->
      let channel_elem := grpc_channel_stack_element stack (Z.of_nat j) in
      let call_elem := grpc_call_stack_element call_stack (Z.of_nat j) in
      filter_refs m' !! (call_elem_filter, call_elem) = fs !! j /\
      filter_refs m' !! (channel_elem_filter, channel_elem) = fs !! j /\
      words m' !! (call_elem_channel_data, call_elem) = data !! j /\
      words m' !! (channel_elem_channel_data, channel_elem) = data !! j /\
      words m' !! (call_elem_call_data, call_elem) =
        Some (wrap (call_stack +
                    ROUND_UP_TO_ALIGNMENT_SIZE sizeof_grpc_call_stack +
                    ROUND_UP_TO_ALIGNMENT_SIZE
                      (wmul (Z.of_nat (length fs))
                            sizeof_grpc_call_element) +
                    sum_Z (aligned_call_sizes (take j fs)))).
Proof.
  intros Hstack Hdata Hlen Hsz Hfit.
  destruct (grpc_call_stack_init_elems_run stack fs data
              transport_server_data initial_op call_stack m
              Hstack Hdata Hlen)
    as (m' & Hrun & _ & Hkept & Hcount & Htable).
  exists m'. unfold grpc_call_stack_init.
  rewrite (bind_ok _ _ _ _ _ Hrun). split; [reflexivity|].
  destruct Hkept as (Hkf & Hkc & _ & Hkd).
  destruct Hstack as [Hchcount Hchtable].
  split; [now rewrite Hcount, Hkc, Hchcount|].
  intros j Hj. cbv zeta.
  destruct (lookup_lt_is_Some_2 fs j Hj) as [f Hf].
  destruct (lookup_lt_is_Some_2 data j ltac:(lia)) as [d Hd].
  destruct (Htable Hsz Hfit j f d Hf Hd) as (H1 & H2 & H3).
  rewrite H1, H2, H3, Hkf, Hkd, Hf, Hd.
  rewrite (Hchtable j f Hf), (Hdata j d Hd).
  repeat split.
  rewrite call_data_end_sum by apply call_data_start_range.
  rewrite call_data_start_sum, wrap_add_l. reflexivity.
Qed.

(** X10.  Call stacks leave the channel stack alone.  On any channel
    stack in memory, [grpc_call_stack_init] returns after calling
    [init_call_elem] of every filter in index order, and stores into no
    field of a channel stack or channel element (the memory keeps the
    fields of call stacks apart from those of channel stacks, so the
    two are taken not to overlap): the channel stack is still there,
    with the same channel-data pointers, so a further call stack can be
    built on it. *)
Theorem grpc_call_stack_init_keeps_channel
    stack fs data transport_server_data initial_op call_stack m :
  channel_stack_at stack fs m -> channel_data_at stack data m ->
  length data = length fs ->
  exists m',
    grpc_call_stack_init stack transport_server_data initial_op
      call_stack m = (Ok tt, m') /\
    hook_calls m' =
      hook_calls m ++
      call_init_calls call_stack transport_server_data initial_op fs /\
    channel_fields_kept m m' /\
    channel_stack_at stack fs m' /\ channel_data_at stack data m'.
Proof.
  intros Hstack Hdata Hlen.
  destruct (grpc_call_stack_init_elems_run stack fs data
              transport_server_data initial_op call_stack m
              Hstack Hdata Hlen)
    as (m' & Hrun & Hcalls & Hkept & _).
  exists m'. unfold grpc_call_stack_init.
  rewrite (bind_ok _ _ _ _ _ Hrun).
  split; [reflexivity|]. split; [exact Hcalls|]. split; [exact Hkept|].
  split; [now apply (channel_stack_at_kept stack fs m)|].
  destruct Hkept as (_ & _ & _ & Hkd).
  intros j d Hd. rewrite Hkd. now apply Hdata.
Qed.

Lemma call_data_end_divide k fs c :
  0 <= k <= Z.of_nat size_t_bits -> GPR_MAX_ALIGNMENT = 2 ^ k ->
  (GPR_MAX_ALIGNMENT | c) -> (GPR_MAX_ALIGNMENT | call_data_end fs c).
Proof.
  intros Hk HA. revert c. induction fs as [|f fs IH]; intros c Hc.
  - exact Hc.
  - simpl. apply IH. apply wadd_divide; [| exact Hc |].
    + rewrite HA. now apply alignment_divides_modulus.
    + apply (round_up_divide k); lia.
Qed.

(** X11.  Call data is aligned.  With a power-of-two alignment and a
    call-stack address that is a multiple of it, the call-element
    table starts at a multiple of the alignment and, after
    [grpc_call_stack_init], so does the call data of every filter. *)
Theorem call_data_aligned
    k stack fs data transport_server_data initial_op call_stack m r m' :
  0 <= k <= Z.of_nat size_t_bits -> GPR_MAX_ALIGNMENT = 2 ^ k ->
  (GPR_MAX_ALIGNMENT | call_stack) ->
  channel_stack_at stack fs m -> channel_data_at stack data m ->
  length data = length fs ->
  0 < sizeof_grpc_call_element ->
  Z.of_nat (length fs) * sizeof_grpc_call_element <= modulus ->
  grpc_call_stack_init stack transport_server_data initial_op
    call_stack m = (r, m') ->
  (GPR_MAX_ALIGNMENT | CALL_ELEMS_FROM_STACK call_stack) /\
  forall j d,
    (j < length fs)%nat ->
    words m' !! (call_elem_call_data,
                 grpc_call_stack_element call_stack (Z.of_nat j)) = Some d ->
    (GPR_MAX_ALIGNMENT | d).
Proof.
  intros Hk HA Hbase Hstack Hdata Hlen Hsz Hfit Hinit.
  assert (HM : (GPR_MAX_ALIGNMENT | modulus))
    by (rewrite HA; now apply alignment_divides_modulus).
  assert (Helems : (GPR_MAX_ALIGNMENT | CALL_ELEMS_FROM_STACK call_stack)).
  { unfold CALL_ELEMS_FROM_STACK.
    apply wadd_divide; [exact HM | exact Hbase |].
    apply (round_up_divide k); lia. }
  split; [exact Helems|].
  destruct (grpc_call_stack_init_elems_run stack fs data
              transport_server_data initial_op call_stack m
              Hstack Hdata Hlen)
    as (m2 & Hrun & _ & _ & _ & Htable).
  unfold grpc_call_stack_init in Hinit.
  rewrite (bind_ok _ _ _ _ _ Hrun) in Hinit.
  injection Hinit as _ <-.
  intros j d Hj Hd.
  destruct (lookup_lt_is_Some_2 fs j Hj) as [f Hf].
  destruct (lookup_lt_is_Some_2 data j ltac:(lia)) as [d0 Hd0].
  destruct (Htable Hsz Hfit j f d0 Hf Hd0) as (_ & _ & H3).
  rewrite H3 in Hd. injection Hd as <-.
  apply (call_data_end_divide k); [exact Hk | exact HA |].
  unfold call_data_start.
  apply wadd_divide; [exact HM | exact Helems |].
  apply (round_up_divide k); lia.
Qed.

End CallInitMore.

(** ** Destruction *)

Section DestroyMore.
Context `{P : Platform}.

Lemma call_stack_at_same_memory stack fs m m' :
  same_memory m m' -> call_stack_at stack fs m -> call_stack_at stack fs m'.
Proof. intros [Hw Hf]. unfold call_stack_at. now rewrite Hw, Hf. Qed.

(** X12.  Destruction clears nothing.  [grpc_channel_stack_destroy] and
    [grpc_call_stack_destroy] only call the destroy hooks: the count
    and the element table stay as they were, so destroying the same
    stack again returns as well and calls every destroy hook a second
    time, in the same order. *)
Theorem destroy_clears_nothing stack call_stack fs m :
  channel_stack_at stack fs m -> call_stack_at call_stack fs m ->
  (exists m1 m2,
     grpc_channel_stack_destroy stack m = (Ok tt, m1) /\
     same_memory m m1 /\
     grpc_channel_stack_destroy stack m1 = (Ok tt, m2) /\
     hook_calls m2 =
       hook_calls m ++ channel_destroy_calls stack fs ++
       channel_destroy_calls stack fs) /\
  (exists m1 m2,
     grpc_call_stack_destroy call_stack m = (Ok tt, m1) /\
     same_memory m m1 /\
     grpc_call_stack_destroy call_stack m1 = (Ok tt, m2) /\
     hook_calls m2 =
       hook_calls m ++ call_destroy_calls call_stack fs ++
       call_destroy_calls call_stack fs).
Proof.
  intros Hchan Hcall. split.
  - destruct (grpc_channel_stack_destroy_run stack fs m Hchan)
      as (m1 & Hrun1 & Hcalls1 & Hsame1).
    destruct (grpc_channel_stack_destroy_run stack fs m1
                (channel_stack_at_same_memory _ _ _ _ Hsame1 Hchan))
      as (m2 & Hrun2 & Hcalls2 & _).
    exists m1, m2. repeat split; try assumption; try apply Hsame1.
    now rewrite Hcalls2, Hcalls1, app_assoc.
  - destruct (grpc_call_stack_destroy_run call_stack fs m Hcall)
      as (m1 & Hrun1 & Hcalls1 & Hsame1).
    destruct (grpc_call_stack_destroy_run call_stack fs m1
                (call_stack_at_same_memory _ _ _ _ Hsame1 Hcall))
      as (m2 & Hrun2 & Hcalls2 & _).
    exists m1, m2. repeat split; try assumption; try apply Hsame1.
    now rewrite Hcalls2, Hcalls1, app_assoc.
Qed.

End DestroyMore.

(** ** Operations travelling through a stack *)

Section Traversal.
Context `{P : Platform}.

Lemma record_calls_cons c cs m :
  record_calls cs (record_call c m) = record_calls (c :: cs) m.
Proof. unfold record_calls, record_call. simpl. now rewrite <- app_assoc. Qed.

Lemma run_handler_forward_call fuel elem op m :
  run_handler (S fuel) [forward_call_op elem op] m =
  grpc_call_next_op fuel elem op m.
Proof. unfold run_handler. now rewrite run_forwards_one. Qed.

Lemma run_handler_forward_channel fuel elem op m :
  run_handler (S fuel) [forward_channel_op elem op] m =
  grpc_channel_next_op fuel elem op m.
Proof. unfold run_handler. now rewrite run_forwards_one. Qed.

Lemma call_op_traversal_from call_stack path :
  forall last fuel op m i,
    (forall k f, (path ++ [last]) !! k = Some f ->
       filter_refs m !! (call_elem_filter,
                         grpc_call_stack_element call_stack
                           (Z.of_nat (S i + k))) = Some f) ->
    Forall forwards_call_ops path -> consumes_call_ops last ->
    (length path <= fuel)%nat ->
    grpc_call_next_op fuel
      (grpc_call_stack_element call_stack (Z.of_nat i)) op m =
    (Ok tt,
     record_calls (transport_calls call_stack op (S i) (path ++ [last])) m).
Proof.
  induction path as [|f path IH]; intros last fuel op m i Hmem Hfw Hlast Hfuel.
  - pose proof (Hmem 0%nat last eq_refl) as Hf.
    replace (Z.of_nat (S i + 0)) with (Z.of_nat i + 1) in Hf by lia.
    unfold grpc_call_stack_element in Hf.
    rewrite <- (elem_ptr_step _ _ (Z.of_nat i) 1) in Hf.
    unfold grpc_call_stack_element.
    rewrite (grpc_call_next_op_run fuel _ op last m Hf), Hlast.
    unfold run_handler. simpl. unfold ret. f_equal.
    unfold record_call, record_calls, transport_calls,
      grpc_call_stack_element.
    simpl. rewrite elem_ptr_step.
    replace (Z.of_nat (S (i + 0))) with (Z.of_nat i + 1) by lia.
    reflexivity.
  - destruct fuel as [|fuel]; [simpl in Hfuel; lia|].
    pose proof (Hmem 0%nat f eq_refl) as Hf.
    replace (Z.of_nat (S i + 0)) with (Z.of_nat i + 1) in Hf by lia.
    unfold grpc_call_stack_element in Hf.
    rewrite <- (elem_ptr_step _ _ (Z.of_nat i) 1) in Hf.
    apply Forall_cons in Hfw as [Hff Hfw].
    unfold grpc_call_stack_element at 1.
    rewrite (grpc_call_next_op_run (S fuel) _ op f m Hf), Hff.
    rewrite run_handler_forward_call, elem_ptr_step.
    replace (Z.of_nat i + 1) with (Z.of_nat (S i)) by lia.
    fold (grpc_call_stack_element call_stack (Z.of_nat (S i))).
    rewrite (IH last fuel op _ (S i)); [| | exact Hfw | exact Hlast |].
    + rewrite record_calls_cons. do 2 f_equal.
      unfold transport_calls. simpl. f_equal.
      * now rewrite Nat.add_0_r.
      * apply imap_ext. intros k g _. simpl. do 3 f_equal. lia.
    + intros k g Hk. simpl.
      replace (Z.of_nat (S (S (i + k)))) with (Z.of_nat (S i + S k)) by lia.
      apply Hmem. exact Hk.
    + simpl in Hfuel. lia.
Qed.

(** X13.  A transport operation travels down to the first consumer.
    In a call stack of the filters [fs], let the filters after index
    [i] be [path] followed by [last], where every filter of [path]
    passes an operation on with [grpc_call_next_op] from its own
    element and [last] passes none on.  Then [grpc_call_next_op] from
    the element at index [i] returns, having called
    [start_transport_op] of exactly these filters, once each, in
    ascending index order, each on its own element with the same
    operation; nothing below [last] is called.
    [grpc_call_element_send_cancel] does the same with the
    cancellation operation. *)
Theorem call_op_traversal call_stack fs i path last fuel m :
  call_stack_at call_stack fs m ->
  (forall k f, (path ++ [last]) !! k = Some f ->
     fs !! (S i + k)%nat = Some f) ->
  Forall forwards_call_ops path -> consumes_call_ops last ->
  (length path <= fuel)%nat ->
  let cur := grpc_call_stack_element call_stack (Z.of_nat i) in
  (forall op,
     grpc_call_next_op fuel cur op m =
     (Ok tt,
      record_calls
        (transport_calls call_stack op (S i) (path ++ [last])) m)) /\
  grpc_call_element_send_cancel fuel cur m =
    (Ok tt,
     record_calls
       (transport_calls call_stack cancel_op (S i) (path ++ [last])) m).
Proof.
  intros [_ Htable] Hpath Hfw Hlast Hfuel cur.
  assert (Hgo : forall op,
            grpc_call_next_op fuel cur op m =
            (Ok tt,
             record_calls
               (transport_calls call_stack op (S i) (path ++ [last])) m)).
  { intros op. apply call_op_traversal_from; try assumption.
    intros k f Hk. apply Htable, Hpath, Hk. }
  split; [exact Hgo|].
  unfold grpc_call_element_send_cancel. apply (Hgo cancel_op).
Qed.

Lemma channel_op_traversal_from stack path :
  forall last fuel op m i,
    (forall k f, (path ++ [last]) !! k = Some f ->
       filter_refs m !! (channel_elem_filter,
                         grpc_channel_stack_element stack
                           (i + (Z.of_nat k + 1) * dir op)) = Some f) ->
    Forall forwards_channel_ops path -> consumes_channel_ops last ->
    (length path <= fuel)%nat ->
    grpc_channel_next_op fuel (grpc_channel_stack_element stack i) op m =
    (Ok tt, record_calls (channel_op_calls stack op i (path ++ [last])) m).
Proof.
  induction path as [|f path IH]; intros last fuel op m i Hmem Hfw Hlast Hfuel.
  - pose proof (Hmem 0%nat last eq_refl) as Hf.
    replace (i + (Z.of_nat 0 + 1) * dir op) with (i + dir op) in Hf by lia.
    unfold grpc_channel_stack_element in Hf.
    rewrite <- (elem_ptr_step _ _ i (dir op)) in Hf.
    unfold grpc_channel_stack_element.
    rewrite (grpc_channel_next_op_run fuel _ op last m Hf), Hlast.
    unfold run_handler. simpl. unfold ret. f_equal.
    unfold record_call, record_calls, channel_op_calls,
      grpc_channel_stack_element.
    simpl. rewrite elem_ptr_step.
    replace (i + (Z.of_nat 0 + 1) * dir op) with (i + dir op) by lia.
    replace (i + Z.of_nat 0 * dir op) with i by lia.
    reflexivity.
  - destruct fuel as [|fuel]; [simpl in Hfuel; lia|].
    pose proof (Hmem 0%nat f eq_refl) as Hf.
    replace (i + (Z.of_nat 0 + 1) * dir op) with (i + dir op) in Hf by lia.
    unfold grpc_channel_stack_element in Hf.
    rewrite <- (elem_ptr_step _ _ i (dir op)) in Hf.
    apply Forall_cons in Hfw as [Hff Hfw].
    unfold grpc_channel_stack_element at 1.
    rewrite (grpc_channel_next_op_run (S fuel) _ op f m Hf), Hff.
    rewrite run_handler_forward_channel, elem_ptr_step.
    fold (grpc_channel_stack_element stack (i + dir op)).
    rewrite (IH last fuel op _ (i + dir op));
      [| | exact Hfw | exact Hlast |].
    + rewrite record_calls_cons. do 2 f_equal.
      unfold channel_op_calls. simpl. f_equal.
      * unfold grpc_channel_stack_element. f_equal; f_equal; lia.
      * apply imap_ext. intros k g _. simpl. f_equal; f_equal; lia.
    + intros k g Hk. simpl.
      replace (i + dir op + (Z.of_nat k + 1) * dir op)
        with (i + (Z.of_nat (S k) + 1) * dir op) by lia.
      apply Hmem. exact Hk.
    + simpl in Hfuel. lia.
Qed.

(** X14.  A channel operation travels in its direction to the first
    consumer.  In a channel stack of the filters [fs], let [path]
    followed by [last] be the filters met from index [i] in steps of
    [dir op] (downwards for [+1], upwards for [-1]), where every filter
    of [path] passes the operation on with [grpc_channel_next_op] from
    its own element and [last] passes none on.  Then
    [grpc_channel_next_op] from the element at index [i] returns,
    having called [channel_op] of exactly these filters, once each, in
    that order, each on its own element and with the element one step
    before it as [from_elem]. *)
Theorem channel_op_traversal stack fs i path last fuel op m :
  channel_stack_at stack fs m ->
  (forall k f, (path ++ [last]) !! k = Some f ->
     0 <= i + (Z.of_nat k + 1) * dir op /\
     fs !! Z.to_nat (i + (Z.of_nat k + 1) * dir op) = Some f) ->
  Forall forwards_channel_ops path -> consumes_channel_ops last ->
  (length path <= fuel)%nat ->
  grpc_channel_next_op fuel (grpc_channel_stack_element stack i) op m =
  (Ok tt, record_calls (channel_op_calls stack op i (path ++ [last])) m).
Proof.
  intros [_ Htable] Hpath Hfw Hlast Hfuel.
  apply channel_op_traversal_from; try assumption.
  intros k f Hk. destruct (Hpath k f Hk) as [Hpos Hf].
  apply Htable in Hf. now rewrite Z2Nat.id in Hf by lia.
Qed.

End Traversal.

(** ** What the two init functions write

    The statements below are about the stores of [channel_stack.c]
    itself: the filters' hooks are calls in the record, and fields of
    different structures are kept apart by the memory, so the
    structures are taken not to overlap. *)

Section Frames.
Context `{P : Platform}.

(** Whatever a counted loop does to the machine is made of what its
    iterations do, also when one of them fails. *)
Lemma for_loop_frame {L} (R : machine -> machine -> Prop)
    (body : Z -> L -> M L) lo hi :
  (forall m, R m m) ->
  (forall m1 m2 m3, R m1 m2 -> R m2 m3 -> R m1 m3) ->
  (forall j l m r m', lo <= j < hi -> body j l m = (r, m') -> R m m') ->
  forall n i l m r m',
    lo <= i -> i + Z.of_nat n <= hi ->
    for_loop n i body l m = (r, m') -> R m m'.
Proof.
  intros Hrefl Htrans Hbody.
  induction n as [|n IH]; intros i l m r m' Hlo Hhi Hrun; simpl in Hrun.
  - injection Hrun as _ <-. apply Hrefl.
  - unfold bind in Hrun at 1.
    assert (Hi : lo <= i < hi) by lia.
    destruct (body i l m) as [[l1| | |] m1] eqn:E;
      try (injection Hrun as _ <-; exact (Hbody i l m _ _ Hi E)).
    apply (Htrans _ m1); [exact (Hbody i l m _ _ Hi E)|].
    apply (IH (i + 1) l1 m1 r m'); [lia | lia | exact Hrun].
Qed.

(** X15.  What [grpc_call_stack_init] writes.  Whether it returns or
    not, [grpc_call_stack_init] on a channel stack of count [n] writes
    the count of its own call-stack header and the three fields of its
    own elements at the indices below [n], and nothing else: every
    field of every channel stack, the count of every other call-stack
    header and the fields of every call element at another address are
    as before. *)
Theorem grpc_call_stack_init_frame
    stack transport_server_data initial_op call_stack n m r m' :
  words m !! (channel_stack_count, stack) = Some n ->
  grpc_call_stack_init stack transport_server_data initial_op
    call_stack m = (r, m') ->
  channel_fields_kept m m' /\
  (forall p, p <> call_stack ->
     words m' !! (call_stack_count, p) = words m !! (call_stack_count, p)) /\
  (forall p,
     (forall j, 0 <= j < n -> p <> grpc_call_stack_element call_stack j) ->
     filter_refs m' !! (call_elem_filter, p) =
       filter_refs m !! (call_elem_filter, p) /\
     words m' !! (call_elem_channel_data, p) =
       words m !! (call_elem_channel_data, p) /\
     words m' !! (call_elem_call_data, p) =
       words m !! (call_elem_call_data, p)).
Proof.
  intros Hcount Hinit.
  set (R := fun m1 m2 : machine =>
    channel_fields_kept m1 m2 /\
    (forall p, p <> call_stack ->
       words m2 !! (call_stack_count, p) =
       words m1 !! (call_stack_count, p)) /\
    (forall p,
       (forall j, 0 <= j < n -> p <> grpc_call_stack_element call_stack j) ->
       filter_refs m2 !! (call_elem_filter, p) =
         filter_refs m1 !! (call_elem_filter, p) /\
       words m2 !! (call_elem_channel_data, p) =
         words m1 !! (call_elem_channel_data, p) /\
       words m2 !! (call_elem_call_data, p) =
         words m1 !! (call_elem_call_data, p))).
  assert (Hrefl : forall m0, R m0 m0).
  { intros m0. unfold R, channel_fields_kept. repeat split. }
  assert (Htrans : forall m1 m2 m3, R m1 m2 -> R m2 m3 -> R m1 m3).
  { intros m1 m2 m3 ((A1 & A2 & A3 & A4) & B & C)
      ((A1' & A2' & A3' & A4') & B' & C').
    unfold R, channel_fields_kept.
    split; [split; [|split; [|split]] | split].
    - intros p. now rewrite A1', A1.
    - intros p. now rewrite A2', A2.
    - intros p. now rewrite A3', A3.
    - intros p. now rewrite A4', A4.
    - intros p Hp. now rewrite B', B.
    - intros p Hp. destruct (C p Hp) as (H1 & H2 & H3).
      destruct (C' p Hp) as (H1' & H2' & H3').
      now rewrite H1', H1, H2', H2, H3', H3. }
  change (R m m').
  unfold grpc_call_stack_init in Hinit.
  assert (Hloop : exists r0,
            grpc_call_stack_init_elems stack transport_server_data
              initial_op call_stack m = (r0, m')).
  { unfold bind in Hinit.
    destruct (grpc_call_stack_init_elems _ _ _ _ m) as [[l| | |] m1];
      injection Hinit as _ <-; eauto. }
  destruct Hloop as [r0 Hloop]. clear Hinit.
  unfold grpc_call_stack_init_elems in Hloop.
  rewrite (bind_ok _ _ _ _ _ (load_word_ok _ _ _ _ Hcount)) in Hloop.
  unfold store_word at 1 in Hloop.
  rewrite (bind_ok _ _ m tt (set_word call_stack_count call_stack n m))
    in Hloop by reflexivity.
  apply (Htrans _ (set_word call_stack_count call_stack n m)).
  { unfold R, channel_fields_kept. simpl.
    repeat split; intros;
      rewrite ?lookup_insert_ne by congruence; reflexivity. }
  revert Hloop.
  apply (for_loop_frame R _ 0 (Z.of_nat (Z.to_nat n)) Hrefl Htrans);
    [| lia | lia].
  intros j l m1 r1 m2 Hj Hbody.
  assert (Hjn : 0 <= j < n) by lia.
  unfold bind, load_filter, store_filter, load_word, store_word, invoke,
    ret in Hbody.
  simpl in Hbody.
  repeat (match type of Hbody with
          | context [match ?mp !! ?key with _ => _ end] =>
              destruct (mp !! key) eqn:?
          end; simpl in Hbody);
    injection Hbody as _ <-;
    unfold R, channel_fields_kept; simpl; repeat split; intros;
    try match goal with
        | H : forall i, _ -> _ <> _ |- _ =>
            pose proof (H j Hjn); unfold grpc_call_stack_element in *
        end;
    rewrite ?lookup_insert_ne by congruence; reflexivity.
Qed.

(** X16.  What [grpc_channel_stack_init] writes.  Whether it returns or
    aborts, [grpc_channel_stack_init] writes the two fields of its own
    header and the two fields of its own elements at the indices below
    [filter_count], and nothing else: every field of every call stack,
    the header of every other channel stack and the fields of every
    channel element at another address are as before. *)
Theorem grpc_channel_stack_init_frame
    filters filter_count args metadata_context stack m r m' :
  0 <= filter_count ->
  grpc_channel_stack_init filters filter_count args metadata_context
    stack m = (r, m') ->
  (forall p,
     filter_refs m' !! (call_elem_filter, p) =
       filter_refs m !! (call_elem_filter, p) /\
     words m' !! (call_stack_count, p) = words m !! (call_stack_count, p) /\
     words m' !! (call_elem_channel_data, p) =
       words m !! (call_elem_channel_data, p) /\
     words m' !! (call_elem_call_data, p) =
       words m !! (call_elem_call_data, p)) /\
  (forall p, p <> stack ->
     words m' !! (channel_stack_count, p) =
       words m !! (channel_stack_count, p) /\
     words m' !! (channel_stack_call_stack_size, p) =
       words m !! (channel_stack_call_stack_size, p)) /\
  (forall p,
     (forall j, 0 <= j < filter_count ->
        p <> grpc_channel_stack_element stack j) ->
     filter_refs m' !! (channel_elem_filter, p) =
       filter_refs m !! (channel_elem_filter, p) /\
     words m' !! (channel_elem_channel_data, p) =
       words m !! (channel_elem_channel_data, p)).
Proof.
  intros Hn Hinit.
  set (R := fun m1 m2 : machine =>
    (forall p,
       filter_refs m2 !! (call_elem_filter, p) =
         filter_refs m1 !! (call_elem_filter, p) /\
       words m2 !! (call_stack_count, p) =
         words m1 !! (call_stack_count, p) /\
       words m2 !! (call_elem_channel_data, p) =
         words m1 !! (call_elem_channel_data, p) /\
       words m2 !! (call_elem_call_data, p) =
         words m1 !! (call_elem_call_data, p)) /\
    (forall p, p <> stack ->
       words m2 !! (channel_stack_count, p) =
         words m1 !! (channel_stack_count, p) /\
       words m2 !! (channel_stack_call_stack_size, p) =
         words m1 !! (channel_stack_call_stack_size, p)) /\
    (forall p,
       (forall j, 0 <= j < filter_count ->
          p <> grpc_channel_stack_element stack j) ->
       filter_refs m2 !! (channel_elem_filter, p) =
         filter_refs m1 !! (channel_elem_filter, p) /\
       words m2 !! (channel_elem_channel_data, p) =
         words m1 !! (channel_elem_channel_data, p))).
  assert (Hrefl : forall m0, R m0 m0).
  { intros m0. unfold R. repeat split. }
  assert (Htrans : forall m1 m2 m3, R m1 m2 -> R m2 m3 -> R m1 m3).
  { intros m1 m2 m3 (A & B & C) (A' & B' & C').
    unfold R. split; [|split]; intros p.
    - destruct (A p) as (H1 & H2 & H3 & H4).
      destruct (A' p) as (H1' & H2' & H3' & H4').
      now rewrite H1', H1, H2', H2, H3', H3, H4', H4.
    - intros Hp. destruct (B p Hp) as (H1 & H2).
      destruct (B' p Hp) as (H1' & H2').
      now rewrite H1', H1, H2', H2.
    - intros Hp. destruct (C p Hp) as (H1 & H2).
      destruct (C' p Hp) as (H1' & H2').
      now rewrite H1', H1, H2', H2. }
  change (R m m').
  assert (Hstore : forall fld v m0,
            (fld = channel_stack_count \/
             fld = channel_stack_call_stack_size) ->
            R m0 (set_word fld stack v m0)).
  { intros fld v m0 Hfld. unfold R. simpl.
    destruct Hfld as [-> | ->]; repeat split; intros;
      rewrite ?lookup_insert_ne by congruence; reflexivity. }
  assert (Hloop : forall r0 m1,
            grpc_channel_stack_init_elems filters filter_count args
              metadata_context stack m = (r0, m1) -> R m m1).
  { intros r0 m1 Hrun. unfold grpc_channel_stack_init_elems in Hrun.
    unfold store_word at 1 in Hrun.
    rewrite (bind_ok _ _ m tt
               (set_word channel_stack_count stack filter_count m))
      in Hrun by reflexivity.
    apply (Htrans _ (set_word channel_stack_count stack filter_count m));
      [apply Hstore; now left|].
    revert Hrun.
    apply (for_loop_frame R _ 0 (Z.of_nat (Z.to_nat filter_count))
             Hrefl Htrans); [| lia | lia].
    intros j [ud cs] m2 r1 m3 Hj Hbody.
    assert (Hjn : 0 <= j < filter_count) by lia.
    unfold bind, filter_at, fail_with, load_filter, store_filter,
      store_word, invoke, ret in Hbody.
    simpl in Hbody.
    repeat (match type of Hbody with
            | context [match ?mp !! ?key with _ => _ end] =>
                destruct (mp !! key) eqn:?
            end; simpl in Hbody);
      injection Hbody as _ <-;
      unfold R; simpl; repeat split; intros;
      try match goal with
          | H : forall i, _ -> _ <> _ |- _ =>
              pose proof (H j Hjn); unfold grpc_channel_stack_element in *
          end;
      rewrite ?lookup_insert_ne by congruence; reflexivity. }
  unfold grpc_channel_stack_init, bind in Hinit.
  destruct (grpc_channel_stack_init_elems _ _ _ _ _ m)
    as [[[ud cs]| | |] m1] eqn:Hrun;
    pose proof (Hloop _ _ eq_refl) as HR;
    try (injection Hinit as _ <-; exact HR).
  unfold GPR_ASSERT, abort, fail_with, ret in Hinit.
  destruct (stack <? ud); [|injection Hinit as _ <-; exact HR].
  destruct (grpc_channel_stack_size filters filter_count m1)
    as [[size| | |] m2] eqn:Hsize;
    pose proof (grpc_channel_stack_size_pure _ _ _ _ _ Hsize) as ->;
    try (injection Hinit as _ <-; exact HR).
  destruct (wsub ud stack =? size); [|injection Hinit as _ <-; exact HR].
  unfold store_word in Hinit. injection Hinit as _ <-.
  apply (Htrans _ m1 _ HR). apply Hstore. now right.
Qed.

End Frames.

(** ** The further properties in the scenario *)

Section FurtherScenario.
#[local] Existing Instance lp64.

(** The scenario instance of [grpc_channel_stack_size_closed_form]. *)
Lemma grpc_channel_stack_size_closed_form_scenario :
  0 <= 3 /\ (Z.to_nat 3 <= length consuming_filters)%nat /\
  grpc_channel_stack_size consuming_filters 3 empty_machine =
    (if alignment_is_power_of_two
     then Ok (wrap (ROUND_UP_TO_ALIGNMENT_SIZE sizeof_grpc_channel_stack +
                    ROUND_UP_TO_ALIGNMENT_SIZE
                      (wmul 3 sizeof_grpc_channel_element) +
                    sum_Z (aligned_channel_sizes
                             (take (Z.to_nat 3) consuming_filters))))
     else Abort, empty_machine) /\
  forall filters' count' m0 r m',
    grpc_channel_stack_size filters' count' m0 = (r, m') -> m' = m0.
Proof.
  assert (H1 : 0 <= 3) by lia.
  assert (H2 : (Z.to_nat 3 <= length consuming_filters)%nat)
    by (simpl; lia).
  exact (conj H1 (conj H2
           (grpc_channel_stack_size_closed_form consuming_filters 3
              empty_machine H1 H2))).
Defined.

(** The scenario instance of [grpc_channel_stack_size_permutation]:
    the first two filters swapped. *)
Lemma grpc_channel_stack_size_permutation_scenario :
  let fs := consuming_filters in
  let fs' :=
    [consuming_filter 0 4; consuming_filter 8 4; consuming_filter 16 0] in
  fs ≡ₚ fs' /\
  grpc_channel_stack_size fs (Z.of_nat (length fs)) empty_machine =
  grpc_channel_stack_size fs' (Z.of_nat (length fs')) empty_machine.
Proof.
  assert (H1 : consuming_filters ≡ₚ
               [consuming_filter 0 4; consuming_filter 8 4;
                consuming_filter 16 0]) by apply perm_swap.
  exact (conj H1
           (grpc_channel_stack_size_permutation consuming_filters _
              empty_machine H1)).
Defined.

(** The scenario instance of [grpc_channel_stack_size_covers]. *)
Lemma grpc_channel_stack_size_covers_scenario :
  0 <= 4 /\ GPR_MAX_ALIGNMENT = 2 ^ 4 /\
  0 <= sizeof_grpc_channel_stack /\
  sizeof_grpc_channel_stack + GPR_MAX_ALIGNMENT - 1 < modulus /\
  channel_stack_fits 0 consuming_filters = true /\
  let fs := consuming_filters in
  let n := Z.of_nat (length fs) in
  let declared :=
    sizeof_grpc_channel_stack + n * sizeof_grpc_channel_element +
    sum_Z (map sizeof_channel_data fs) in
  exists size,
    grpc_channel_stack_size fs n empty_machine = (Ok size, empty_machine) /\
    declared <= size <= declared + (n + 2) * (GPR_MAX_ALIGNMENT - 1).
Proof.
  assert (H1 : 0 <= 4) by lia.
  assert (H2 : GPR_MAX_ALIGNMENT = 2 ^ 4) by reflexivity.
  assert (H3 : 0 <= sizeof_grpc_channel_stack)
    by (vm_compute; discriminate).
  assert (H4 : sizeof_grpc_channel_stack + GPR_MAX_ALIGNMENT - 1 < modulus)
    by (vm_compute; reflexivity).
  assert (H5 : channel_stack_fits 0 consuming_filters = true)
    by (vm_compute; reflexivity).
  exact (conj H1 (conj H2 (conj H3 (conj H4 (conj H5
           (grpc_channel_stack_size_covers 4 consuming_filters
              empty_machine H1 H2 H3 H4 H5)))))).
Defined.

(** The scenario instance of [grpc_channel_stack_last_element_spec]. *)
Lemma grpc_channel_stack_last_element_spec_scenario :
  let fs := consuming_filters in
  let m := scenario_channel consuming_filters in
  channel_stack_at 4096 fs m /\
  Z.of_nat (length fs) < modulus /\
  (forall f, last fs = Some f ->
     let tail := grpc_channel_stack_element 4096
                   (Z.of_nat (length fs) - 1) in
     grpc_channel_stack_last_element 4096 m = (Ok tail, m) /\
     filter_refs m !! (channel_elem_filter, tail) = Some f) /\
  (fs = [] ->
     grpc_channel_stack_last_element 4096 m =
       (Ok (grpc_channel_stack_element 4096 (-1)), m) /\
     grpc_channel_stack_element 4096 (-1) =
       wsub (CHANNEL_ELEMS_FROM_STACK 4096) sizeof_grpc_channel_element).
Proof.
  assert (H1 : channel_stack_at 4096 consuming_filters
                 (scenario_channel consuming_filters)).
  { split; [vm_compute; reflexivity|].
    intros [|[|[|j]]] f Hj; simpl in Hj; try discriminate;
      injection Hj as <-; vm_compute; reflexivity. }
  assert (H2 : Z.of_nat (length consuming_filters) < modulus)
    by (vm_compute; reflexivity).
  exact (conj H1 (conj H2
           (grpc_channel_stack_last_element_spec 4096 consuming_filters
              (scenario_channel consuming_filters) H1 H2))).
Defined.

(** The scenario instance of [grpc_channel_stack_init_populates]. *)
Lemma grpc_channel_stack_init_populates_scenario :
  let m1 := scenario_channel consuming_filters in
  0 <= 3 /\ (Z.to_nat 3 <= length consuming_filters)%nat /\
  0 < sizeof_grpc_channel_element /\
  3 * sizeof_grpc_channel_element <= modulus /\
  grpc_channel_stack_init consuming_filters 3 0 0 4096 empty_machine =
    (Ok tt, m1) /\
  let fs := take (Z.to_nat 3) consuming_filters in
  words m1 !! (channel_stack_count, 4096) = Some 3 /\
  forall j f, fs !! j = Some f ->
    let elem := grpc_channel_stack_element 4096 (Z.of_nat j) in
    filter_refs m1 !! (channel_elem_filter, elem) = Some f /\
    words m1 !! (channel_elem_channel_data, elem) =
      Some (wrap (4096 +
                  ROUND_UP_TO_ALIGNMENT_SIZE sizeof_grpc_channel_stack +
                  ROUND_UP_TO_ALIGNMENT_SIZE
                    (wmul 3 sizeof_grpc_channel_element) +
                  sum_Z (aligned_channel_sizes (take j fs)))).
Proof.
  assert (H1 : 0 <= 3) by lia.
  assert (H2 : (Z.to_nat 3 <= length consuming_filters)%nat)
    by (simpl; lia).
  assert (H3 : 0 < sizeof_grpc_channel_element)
    by (vm_compute; reflexivity).
  assert (H4 : 3 * sizeof_grpc_channel_element <= modulus)
    by (vm_compute; discriminate).
  assert (H5 : grpc_channel_stack_init consuming_filters 3 0 0 4096
                 empty_machine =
               (Ok tt, scenario_channel consuming_filters))
    by (vm_compute; reflexivity).
  exact (conj H1 (conj H2 (conj H3 (conj H4 (conj H5
           (grpc_channel_stack_init_populates consuming_filters 3 0 0
              4096 empty_machine (scenario_channel consuming_filters)
              H1 H2 H3 H4 H5)))))).
Defined.

(** The scenario instance of [channel_data_aligned]. *)
Lemma channel_data_aligned_scenario :
  let m1 := scenario_channel consuming_filters in
  0 <= 4 <= Z.of_nat size_t_bits /\ GPR_MAX_ALIGNMENT = 2 ^ 4 /\
  (GPR_MAX_ALIGNMENT | 4096) /\
  0 <= 3 /\ (Z.to_nat 3 <= length consuming_filters)%nat /\
  0 < sizeof_grpc_channel_element /\
  3 * sizeof_grpc_channel_element <= modulus /\
  grpc_channel_stack_init consuming_filters 3 0 0 4096 empty_machine =
    (Ok tt, m1) /\
  (GPR_MAX_ALIGNMENT | CHANNEL_ELEMS_FROM_STACK 4096) /\
  forall j d,
    (j < Z.to_nat 3)%nat ->
    words m1 !! (channel_elem_channel_data,
                 grpc_channel_stack_element 4096 (Z.of_nat j)) = Some d ->
    (GPR_MAX_ALIGNMENT | d).
Proof.
  assert (H0 : 0 <= 4 <= Z.of_nat size_t_bits)
    by (vm_compute; split; discriminate).
  assert (HA : GPR_MAX_ALIGNMENT = 2 ^ 4) by reflexivity.
  assert (HS : (GPR_MAX_ALIGNMENT | 4096)) by (exists 256; reflexivity).
  assert (H1 : 0 <= 3) by lia.
  assert (H2 : (Z.to_nat 3 <= length consuming_filters)%nat)
    by (simpl; lia).
  assert (H3 : 0 < sizeof_grpc_channel_element)
    by (vm_compute; reflexivity).
  assert (H4 : 3 * sizeof_grpc_channel_element <= modulus)
    by (vm_compute; discriminate).
  assert (H5 : grpc_channel_stack_init consuming_filters 3 0 0 4096
                 empty_machine =
               (Ok tt, scenario_channel consuming_filters))
    by (vm_compute; reflexivity).
  exact (conj H0 (conj HA (conj HS (conj H1 (conj H2 (conj H3 (conj H4
          (conj H5
             (channel_data_aligned 4 consuming_filters 3 0 0 4096
                empty_machine (scenario_channel consuming_filters)
                H0 HA HS H1 H2 H3 H4 H5))))))))).
Defined.

(** The scenario instance of [init_boundary_flags]. *)
Lemma init_boundary_flags_scenario :
  let fs := consuming_filters in
  Z.of_nat (length fs) < modulus /\
  exists locals m',
    grpc_channel_stack_init_elems fs (Z.of_nat (length fs)) 0 0 4096
      empty_machine = (Ok locals, m') /\
    forall j f, fs !! j = Some f ->
      hook_calls m' !! (length (hook_calls empty_machine) + j)%nat =
      Some (hook_init_channel_elem f
              (grpc_channel_stack_element 4096 (Z.of_nat j)) 0 0
              (bool_decide (j = 0%nat))
              (bool_decide (S j = length fs))).
Proof.
  assert (H1 : Z.of_nat (length consuming_filters) < modulus)
    by (vm_compute; reflexivity).
  exact (conj H1
           (init_boundary_flags consuming_filters 0 0 4096 empty_machine
              H1)).
Defined.

(** The scenario instance of [grpc_channel_stack_init_outcome]. *)
Lemma grpc_channel_stack_init_outcome_scenario :
  0 <= 3 /\ (Z.to_nat 3 <= length consuming_filters)%nat /\
  exists user_data call_size m',
    grpc_channel_stack_init_elems consuming_filters 3 0 0 4096
      empty_machine = (Ok (user_data, call_size), m') /\
    hook_calls m' =
      hook_calls empty_machine ++
      channel_init_calls 4096 3 0 0
        (take (Z.to_nat 3) consuming_filters) /\
    grpc_channel_stack_init consuming_filters 3 0 0 4096 empty_machine =
      if (4096 <? user_data) && alignment_is_power_of_two
      then (Ok tt,
            set_word channel_stack_call_stack_size 4096 call_size m')
      else (Abort, m').
Proof.
  assert (H1 : 0 <= 3) by lia.
  assert (H2 : (Z.to_nat 3 <= length consuming_filters)%nat)
    by (simpl; lia).
  exact (conj H1 (conj H2
           (grpc_channel_stack_init_outcome consuming_filters 3 0 0 4096
              empty_machine H1 H2))).
Defined.

(** The scenario instance of [grpc_channel_stack_init_returns]. *)
Lemma grpc_channel_stack_init_returns_scenario :
  0 <= 4 /\ GPR_MAX_ALIGNMENT = 2 ^ 4 /\
  0 < sizeof_grpc_channel_stack /\
  sizeof_grpc_channel_stack + GPR_MAX_ALIGNMENT - 1 < modulus /\
  channel_stack_fits 4096 consuming_filters = true /\
  exists m1,
    grpc_channel_stack_init consuming_filters
      (Z.of_nat (length consuming_filters)) 0 0 4096 empty_machine =
    (Ok tt, m1).
Proof.
  assert (H1 : 0 <= 4) by lia.
  assert (H2 : GPR_MAX_ALIGNMENT = 2 ^ 4) by reflexivity.
  assert (H3 : 0 < sizeof_grpc_channel_stack)
    by (vm_compute; reflexivity).
  assert (H4 : sizeof_grpc_channel_stack + GPR_MAX_ALIGNMENT - 1 < modulus)
    by (vm_compute; reflexivity).
  assert (H5 : channel_stack_fits 4096 consuming_filters = true)
    by (vm_compute; reflexivity).
  exact (conj H1 (conj H2 (conj H3 (conj H4 (conj H5
           (grpc_channel_stack_init_returns 4 consuming_filters 0 0 4096
              empty_machine H1 H2 H3 H4 H5)))))).
Defined.

(** The scenario instance of [grpc_call_stack_init_mirrors]. *)
Lemma grpc_call_stack_init_mirrors_scenario :
  let fs := consuming_filters in
  let data := [4160; 4176; 4176] in
  let m := scenario_channel consuming_filters in
  channel_stack_at 4096 fs m /\ channel_data_at 4096 data m /\
  length data = length fs /\
  0 < sizeof_grpc_call_element /\
  Z.of_nat (length fs) * sizeof_grpc_call_element <= modulus /\
  exists m',
    grpc_call_stack_init 4096 0 0 8192 m = (Ok tt, m') /\
    words m' !! (call_stack_count, 8192) =
      words m' !! (channel_stack_count, 4096) /\
    forall j, (j < length fs)%nat ->
      let channel_elem := grpc_channel_stack_element 4096 (Z.of_nat j) in
      let call_elem := grpc_call_stack_element 8192 (Z.of_nat j) in
      filter_refs m' !! (call_elem_filter, call_elem) = fs !! j /\
      filter_refs m' !! (channel_elem_filter, channel_elem) = fs !! j /\
      words m' !! (call_elem_channel_data, call_elem) = data !! j /\
      words m' !! (channel_elem_channel_data, channel_elem) = data !! j /\
      words m' !! (call_elem_call_data, call_elem) =
        Some (wrap (8192 +
                    ROUND_UP_TO_ALIGNMENT_SIZE sizeof_grpc_call_stack +
                    ROUND_UP_TO_ALIGNMENT_SIZE
                      (wmul (Z.of_nat (length fs))
                            sizeof_grpc_call_element) +
                    sum_Z (aligned_call_sizes (take j fs)))).
Proof.
  assert (H1 : channel_stack_at 4096 consuming_filters
                 (scenario_channel consuming_filters)).
  { split; [vm_compute; reflexivity|].
    intros [|[|[|j]]] f Hj; simpl in Hj; try discriminate;
      injection Hj as <-; vm_compute; reflexivity. }
  assert (H2 : channel_data_at 4096 [4160; 4176; 4176]
                 (scenario_channel consuming_filters)).
  { intros [|[|[|j]]] d Hj; simpl in Hj; try discriminate;
      injection Hj as <-; vm_compute; reflexivity. }
  assert (H3 : length [4160; 4176; 4176] = length consuming_filters)
    by reflexivity.
  assert (H4 : 0 < sizeof_grpc_call_element) by (vm_compute; reflexivity).
  assert (H5 : Z.of_nat (length consuming_filters) *
               sizeof_grpc_call_element <= modulus)
    by (vm_compute; discriminate).
  exact (conj H1 (conj H2 (conj H3 (conj H4 (conj H5
           (grpc_call_stack_init_mirrors 4096 consuming_filters
              [4160; 4176; 4176] 0 0 8192
              (scenario_channel consuming_filters) H1 H2 H3 H4 H5)))))).
Defined.

(** The scenario instance of [grpc_call_stack_init_keeps_channel]. *)
Lemma grpc_call_stack_init_keeps_channel_scenario :
  let fs := consuming_filters in
  let data := [4160; 4176; 4176] in
  let m := scenario_channel consuming_filters in
  channel_stack_at 4096 fs m /\ channel_data_at 4096 data m /\
  length data = length fs /\
  exists m',
    grpc_call_stack_init 4096 0 0 8192 m = (Ok tt, m') /\
    hook_calls m' = hook_calls m ++ call_init_calls 8192 0 0 fs /\
    channel_fields_kept m m' /\
    channel_stack_at 4096 fs m' /\ channel_data_at 4096 data m'.
Proof.
  assert (H1 : channel_stack_at 4096 consuming_filters
                 (scenario_channel consuming_filters)).
  { split; [vm_compute; reflexivity|].
    intros [|[|[|j]]] f Hj; simpl in Hj; try discriminate;
      injection Hj as <-; vm_compute; reflexivity. }
  assert (H2 : channel_data_at 4096 [4160; 4176; 4176]
                 (scenario_channel consuming_filters)).
  { intros [|[|[|j]]] d Hj; simpl in Hj; try discriminate;
      injection Hj as <-; vm_compute; reflexivity. }
  assert (H3 : length [4160; 4176; 4176] = length consuming_filters)
    by reflexivity.
  exact (conj H1 (conj H2 (conj H3
           (grpc_call_stack_init_keeps_channel 4096 consuming_filters
              [4160; 4176; 4176] 0 0 8192
              (scenario_channel consuming_filters) H1 H2 H3)))).
Defined.

(** The scenario instance of [call_data_aligned]. *)
Lemma call_data_aligned_scenario :
  let fs := consuming_filters in
  let data := [4160; 4176; 4176] in
  let m := scenario_channel consuming_filters in
  let m' := scenario_call consuming_filters in
  0 <= 4 <= Z.of_nat size_t_bits /\ GPR_MAX_ALIGNMENT = 2 ^ 4 /\
  (GPR_MAX_ALIGNMENT | 8192) /\
  channel_stack_at 4096 fs m /\ channel_data_at 4096 data m /\
  length data = length fs /\
  0 < sizeof_grpc_call_element /\
  Z.of_nat (length fs) * sizeof_grpc_call_element <= modulus /\
  grpc_call_stack_init 4096 0 0 8192 m = (Ok tt, m') /\
  (GPR_MAX_ALIGNMENT | CALL_ELEMS_FROM_STACK 8192) /\
  forall j d,
    (j < length fs)%nat ->
    words m' !! (call_elem_call_data,
                 grpc_call_stack_element 8192 (Z.of_nat j)) = Some d ->
    (GPR_MAX_ALIGNMENT | d).
Proof.
  assert (H0 : 0 <= 4 <= Z.of_nat size_t_bits)
    by (vm_compute; split; discriminate).
  assert (HA : GPR_MAX_ALIGNMENT = 2 ^ 4) by reflexivity.
  assert (HS : (GPR_MAX_ALIGNMENT | 8192)) by (exists 512; reflexivity).
  assert (H1 : channel_stack_at 4096 consuming_filters
                 (scenario_channel consuming_filters)).
  { split; [vm_compute; reflexivity|].
    intros [|[|[|j]]] f Hj; simpl in Hj; try discriminate;
      injection Hj as <-; vm_compute; reflexivity. }
  assert (H2 : channel_data_at 4096 [4160; 4176; 4176]
                 (scenario_channel consuming_filters)).
  { intros [|[|[|j]]] d Hj; simpl in Hj; try discriminate;
      injection Hj as <-; vm_compute; reflexivity. }
  assert (H3 : length [4160; 4176; 4176] = length consuming_filters)
    by reflexivity.
  assert (H4 : 0 < sizeof_grpc_call_element) by (vm_compute; reflexivity).
  assert (H5 : Z.of_nat (length consuming_filters) *
               sizeof_grpc_call_element <= modulus)
    by (vm_compute; discriminate).
  assert (H6 : grpc_call_stack_init 4096 0 0 8192
                 (scenario_channel consuming_filters) =
               (Ok tt, scenario_call consuming_filters))
    by (vm_compute; reflexivity).
  exact (conj H0 (conj HA (conj HS (conj H1 (conj H2 (conj H3 (conj H4
          (conj H5 (conj H6
             (call_data_aligned 4 4096 consuming_filters
                [4160; 4176; 4176] 0 0 8192
                (scenario_channel consuming_filters) (Ok tt)
                (scenario_call consuming_filters)
                H0 HA HS H1 H2 H3 H4 H5 H6)))))))))).
Defined.

(** The scenario instance of [destroy_clears_nothing]. *)
Lemma destroy_clears_nothing_scenario :
  let fs := consuming_filters in
  let m := scenario_call consuming_filters in
  channel_stack_at 4096 fs m /\ call_stack_at 8192 fs m /\
  (exists m1 m2,
     grpc_channel_stack_destroy 4096 m = (Ok tt, m1) /\
     same_memory m m1 /\
     grpc_channel_stack_destroy 4096 m1 = (Ok tt, m2) /\
     hook_calls m2 =
       hook_calls m ++ channel_destroy_calls 4096 fs ++
       channel_destroy_calls 4096 fs) /\
  (exists m1 m2,
     grpc_call_stack_destroy 8192 m = (Ok tt, m1) /\
     same_memory m m1 /\
     grpc_call_stack_destroy 8192 m1 = (Ok tt, m2) /\
     hook_calls m2 =
       hook_calls m ++ call_destroy_calls 8192 fs ++
       call_destroy_calls 8192 fs).
Proof.
  assert (H1 : channel_stack_at 4096 consuming_filters
                 (scenario_call consuming_filters)).
  { split; [vm_compute; reflexivity|].
    intros [|[|[|j]]] f Hj; simpl in Hj; try discriminate;
      injection Hj as <-; vm_compute; reflexivity. }
  assert (H2 : call_stack_at 8192 consuming_filters
                 (scenario_call consuming_filters)).
  { split; [vm_compute; reflexivity|].
    intros [|[|[|j]]] f Hj; simpl in Hj; try discriminate;
      injection Hj as <-; vm_compute; reflexivity. }
  exact (conj H1 (conj H2
           (destroy_clears_nothing 4096 8192 consuming_filters
              (scenario_call consuming_filters) H1 H2))).
Defined.

(** The scenario instance of [call_op_traversal]: from the top element
    through one forwarding filter to the consuming one. *)
Lemma call_op_traversal_scenario :
  let fs := forwarding_filters in
  let path := [forwarding_filter 0 4] in
  let last := consuming_filter 16 0 in
  let m := scenario_call forwarding_filters in
  call_stack_at 8192 fs m /\
  (forall k f, (path ++ [last]) !! k = Some f ->
     fs !! (1 + k)%nat = Some f) /\
  Forall forwards_call_ops path /\ consumes_call_ops last /\
  (length path <= 1)%nat /\
  let cur := grpc_call_stack_element 8192 (Z.of_nat 0) in
  (forall op,
     grpc_call_next_op 1 cur op m =
     (Ok tt,
      record_calls (transport_calls 8192 op 1 (path ++ [last])) m)) /\
  grpc_call_element_send_cancel 1 cur m =
    (Ok tt,
     record_calls (transport_calls 8192 cancel_op 1 (path ++ [last])) m).
Proof.
  assert (H1 : call_stack_at 8192 forwarding_filters
                 (scenario_call forwarding_filters)).
  { split; [vm_compute; reflexivity|].
    intros [|[|[|j]]] f Hj; simpl in Hj; try discriminate;
      injection Hj as <-; vm_compute; reflexivity. }
  assert (H2 : forall k f,
            ([forwarding_filter 0 4] ++ [consuming_filter 16 0]) !! k
              = Some f ->
            forwarding_filters !! (1 + k)%nat = Some f).
  { intros [|[|k]] f Hk; simpl in Hk; try discriminate; exact Hk. }
  assert (H3 : Forall forwards_call_ops [forwarding_filter 0 4]).
  { constructor; [|constructor]. intros elem op. reflexivity. }
  assert (H4 : consumes_call_ops (consuming_filter 16 0)).
  { intros elem op. reflexivity. }
  assert (H5 : (length [forwarding_filter 0 4] <= 1)%nat) by (simpl; lia).
  exact (conj H1 (conj H2 (conj H3 (conj H4 (conj H5
           (call_op_traversal 8192 forwarding_filters 0
              [forwarding_filter 0 4] (consuming_filter 16 0) 1
              (scenario_call forwarding_filters) H1 H2 H3 H4 H5)))))).
Defined.

(** The scenario instance of [channel_op_traversal]: a downward
    operation from the top element. *)
Lemma channel_op_traversal_scenario :
  let fs := forwarding_filters in
  let path := [forwarding_filter 0 4] in
  let last := consuming_filter 16 0 in
  let op := {| dir := 1; channel_op_rest := [] |} in
  let m := scenario_call forwarding_filters in
  channel_stack_at 4096 fs m /\
  (forall k f, (path ++ [last]) !! k = Some f ->
     0 <= 0 + (Z.of_nat k + 1) * dir op /\
     fs !! Z.to_nat (0 + (Z.of_nat k + 1) * dir op) = Some f) /\
  Forall forwards_channel_ops path /\ consumes_channel_ops last /\
  (length path <= 1)%nat /\
  grpc_channel_next_op 1 (grpc_channel_stack_element 4096 0) op m =
  (Ok tt, record_calls (channel_op_calls 4096 op 0 (path ++ [last])) m).
Proof.
  assert (H1 : channel_stack_at 4096 forwarding_filters
                 (scenario_call forwarding_filters)).
  { split; [vm_compute; reflexivity|].
    intros [|[|[|j]]] f Hj; simpl in Hj; try discriminate;
      injection Hj as <-; vm_compute; reflexivity. }
  assert (H2 : forall k f,
            ([forwarding_filter 0 4] ++ [consuming_filter 16 0]) !! k
              = Some f ->
            0 <= 0 + (Z.of_nat k + 1) *
                     dir {| dir := 1; channel_op_rest := [] |} /\
            forwarding_filters
              !! Z.to_nat (0 + (Z.of_nat k + 1) *
                               dir {| dir := 1; channel_op_rest := [] |})
              = Some f).
  { intros [|[|k]] f Hk; simpl in Hk; try discriminate;
      (split; [simpl; lia | exact Hk]). }
  assert (H3 : Forall forwards_channel_ops [forwarding_filter 0 4]).
  { constructor; [|constructor]. intros elem from_elem op. reflexivity. }
  assert (H4 : consumes_channel_ops (consuming_filter 16 0)).
  { intros elem from_elem op. reflexivity. }
  assert (H5 : (length [forwarding_filter 0 4] <= 1)%nat) by (simpl; lia).
  exact (conj H1 (conj H2 (conj H3 (conj H4 (conj H5
           (channel_op_traversal 4096 forwarding_filters 0
              [forwarding_filter 0 4] (consuming_filter 16 0) 1
              {| dir := 1; channel_op_rest := [] |}
              (scenario_call forwarding_filters) H1 H2 H3 H4 H5)))))).
Defined.

(** The scenario instance of [grpc_call_stack_init_frame]. *)
Lemma grpc_call_stack_init_frame_scenario :
  let m := scenario_channel consuming_filters in
  let m' := scenario_call consuming_filters in
  words m !! (channel_stack_count, 4096) = Some 3 /\
  grpc_call_stack_init 4096 0 0 8192 m = (Ok tt, m') /\
  channel_fields_kept m m' /\
  (forall p, p <> 8192 ->
     words m' !! (call_stack_count, p) = words m !! (call_stack_count, p)) /\
  (forall p,
     (forall j, 0 <= j < 3 -> p <> grpc_call_stack_element 8192 j) ->
     filter_refs m' !! (call_elem_filter, p) =
       filter_refs m !! (call_elem_filter, p) /\
     words m' !! (call_elem_channel_data, p) =
       words m !! (call_elem_channel_data, p) /\
     words m' !! (call_elem_call_data, p) =
       words m !! (call_elem_call_data, p)).
Proof.
  assert (H1 : words (scenario_channel consuming_filters)
                 !! (channel_stack_count, 4096) = Some 3)
    by (vm_compute; reflexivity).
  assert (H2 : grpc_call_stack_init 4096 0 0 8192
                 (scenario_channel consuming_filters) =
               (Ok tt, scenario_call consuming_filters))
    by (vm_compute; reflexivity).
  exact (conj H1 (conj H2
           (grpc_call_stack_init_frame 4096 0 0 8192 3
              (scenario_channel consuming_filters) (Ok tt)
              (scenario_call consuming_filters) H1 H2))).
Defined.

(** The scenario instance of [grpc_channel_stack_init_frame]. *)
Lemma grpc_channel_stack_init_frame_scenario :
  let m := empty_machine in
  let m' := scenario_channel consuming_filters in
  0 <= 3 /\
  grpc_channel_stack_init consuming_filters 3 0 0 4096 m = (Ok tt, m') /\
  (forall p,
     filter_refs m' !! (call_elem_filter, p) =
       filter_refs m !! (call_elem_filter, p) /\
     words m' !! (call_stack_count, p) = words m !! (call_stack_count, p) /\
     words m' !! (call_elem_channel_data, p) =
       words m !! (call_elem_channel_data, p) /\
     words m' !! (call_elem_call_data, p) =
       words m !! (call_elem_call_data, p)) /\
  (forall p, p <> 4096 ->
     words m' !! (channel_stack_count, p) =
       words m !! (channel_stack_count, p) /\
     words m' !! (channel_stack_call_stack_size, p) =
       words m !! (channel_stack_call_stack_size, p)) /\
  (forall p,
     (forall j, 0 <= j < 3 -> p <> grpc_channel_stack_element 4096 j) ->
     filter_refs m' !! (channel_elem_filter, p) =
       filter_refs m !! (channel_elem_filter, p) /\
     words m' !! (channel_elem_channel_data, p) =
       words m !! (channel_elem_channel_data, p)).
Proof.
  assert (H1 : 0 <= 3) by lia.
  assert (H2 : grpc_channel_stack_init consuming_filters 3 0 0 4096
                 empty_machine =
               (Ok tt, scenario_channel consuming_filters))
    by (vm_compute; reflexivity).
  exact (conj H1 (conj H2
           (grpc_channel_stack_init_frame consuming_filters 3 0 0 4096
              empty_machine (Ok tt) (scenario_channel consuming_filters)
              H1 H2))).
Defined.

End FurtherScenario.
